(** * uvue server: the request pipeline of [Server.ts]

    A shallow embedding of [packages/@uvue/server/src/Server.ts]: the plugin
    registry ([addPlugin], [invoke], [invokeAsync]), the terminal middleware
    ([renderMiddleware], [sendResponse]) and the start/stop life cycle.

    JavaScript objects that the pipeline shares with plugins and with the
    renderer (the response context, the request context and the transport
    response [res]) live in one store, [World]; hook arguments are references
    into that store.  A hook is also handed the server: what it can reach
    through it is [Reach].  Control effects (throw, early [return], [await])
    are made explicit in a small state / exception / output monad. *)

From Stdlib Require Import String Ascii List ZArith NArith Bool Lia.
Import ListNotations.
Open Scope string_scope.
Open Scope list_scope.

(** ** Strings whose length is observed

    A JavaScript string is a sequence of UTF-16 code units and [s.length]
    counts code units.  The page body is the one string whose length the
    source reads, so it is modelled as a list of code units. *)

Definition JSString := list N.

Definition js (s : string) : JSString :=
  map N_of_ascii (list_ascii_of_string s).

Definition js_length (s : JSString) : Z := Z.of_nat (length s).

(** [s || d] on strings: the empty string is the only falsy string. *)
Definition js_or_string (s d : JSString) : JSString :=
  match s with
  | [] => d
  | _ :: _ => s
  end.

(** [n || d] on an optional number: [undefined] and [0] are falsy. *)
Definition js_or_number (n : option Z) (d : Z) : Z :=
  match n with
  | Some v => if Z.eqb v 0 then d else v
  | None => d
  end.

(** Number of bytes of the UTF-8 encoding of a UTF-16 string, which is what
    the transport writes for [res.end(body)] and what an HTTP
    [Content-Length] counts.  A surrogate pair encodes one code point on four
    bytes; a lone surrogate is replaced by U+FFFD (three bytes). *)
Definition is_high_surrogate (u : N) : bool := (0xD800 <=? u)%N && (u <=? 0xDBFF)%N.
Definition is_low_surrogate (u : N) : bool := (0xDC00 <=? u)%N && (u <=? 0xDFFF)%N.

Fixpoint utf8_byte_length (s : JSString) : Z :=
  match s with
  | [] => 0
  | u :: rest =>
      if (u <? 0x80)%N then 1 + utf8_byte_length rest
      else if (u <? 0x800)%N then 2 + utf8_byte_length rest
      else if is_high_surrogate u then
        match rest with
        | v :: rest' =>
            if is_low_surrogate v then 4 + utf8_byte_length rest'
            else 3 + utf8_byte_length rest
        | [] => 3
        end
      else 3 + utf8_byte_length rest
  end%Z.

(** [x | 0]: the conversion to a signed 32-bit integer. *)
Definition to_int32 (z : Z) : Z :=
  ((z + 2147483648) mod 4294967296 - 2147483648)%Z.

(** ** Data model *)

Definition Err := string.
Definition RendererId := nat.

Inductive HeaderValue :=
| HString (s : string)
| HNumber (n : Z).

(** The members of Node's [ServerResponse] that the source touches:
    [setHeader], [statusCode], [end] and [finished].  A response is [Open]
    until its header block is sent (by [writeHead], a first [write] or
    [end]) and [Finished] once [end] was called.  [ended] lists the bodies
    written by [end], oldest first. *)
Inductive Phase := Open | HeadersSent | Finished.

Record ServerResponse := mkServerResponse {
  phase : Phase;
  headers : list (string * HeaderValue);
  res_statusCode : Z;
  ended : list JSString
}.

(** [res.finished] and [res.headersSent] *)
Definition finished (r : ServerResponse) : bool :=
  match phase r with
  | Finished => true
  | _ => false
  end.

Definition headersSent (r : ServerResponse) : bool :=
  match phase r with
  | Open => false
  | _ => true
  end.

Record IncomingMessage := mkIncomingMessage {
  req_url : string
}.

Record IResponseContext := mkResponseContext {
  body : JSString;
  status : Z
}.

(** [req] is kept by value (the pipeline only reads it); [res] is the shared
    transport response of the [World]: [context.res] and the [res] that the
    pipeline tests are one object, and no hook points [context.res]
    elsewhere. *)
Record IRequestContext := mkRequestContext {
  data : list (string * string);
  redirected : bool;
  req : IncomingMessage;
  url : string;
  statusCode : option Z
}.

Record World := mkWorld {
  response : IResponseContext;
  context : IRequestContext;
  res : ServerResponse
}.

(** Arguments handed to a hook: an error value, a reference to one of the
    shared objects, or the callback that [start] gives to
    [setupDevMiddleware]. *)
Inductive Arg :=
| ArgErr (e : Err)
| ArgResponse
| ArgContext
| ArgServer
| ArgOptions
| ArgCallback.

Inductive Completion (A : Type) :=
| Normal (a : A) (w : World)
| Abrupt (e : Err) (w : World).
Arguments Normal {A} a w.
Arguments Abrupt {A} e w.

(** Calls made on the transport adapter ([IAdapter]).  The adapters
    themselves are behind the interface: an adapter is given by how [start]
    and [stop] settle after a given history of calls ([None]: the promise
    resolves). *)
Inductive AdapterCall := AUse | AStart | AStop.

Record IAdapter := mkAdapter {
  adapter_start : list AdapterCall -> option Err;
  adapter_stop : list AdapterCall -> option Err
}.

(** What a hook can reach.  Every hook is handed the server (and
    [beforeRender] and its like the contexts), and runs in the process of
    the server: besides the store of the request it may change what
    [this.renderer] and [this.started] hold, call the adapter (through
    [use] or [getAdapter]) and add or remove signal listeners. *)
Record Reach := mkReach {
  store : World;
  its_renderer : RendererId;
  its_started : bool;
  its_adapter_calls : list AdapterCall;
  its_listeners : list string
}.

(** What calling a hook does, as seen by the caller: it throws, it returns a
    plain value, or it returns a promise.  In each case [r] is what the hook
    left of what it can reach when the call returns, and [added] lists the
    plugins that it registered meanwhile with [addPlugin], which pushes
    them on [this.plugins] ([this.plugins] is private and [addPlugin] the
    only way to it, so a hook can extend the list but not change what it
    holds already).  For a promise, [k] is the rest of the hook, run when the
    promise is awaited, from what it can reach then. *)
#[local] Unset Elimination Schemes.
Inductive HookResult :=
| HThrow (e : Err) (r : Reach)
    (added : list (string -> option (list Arg -> Reach -> HookResult)))
| HReturn (r : Reach)
    (added : list (string -> option (list Arg -> Reach -> HookResult)))
| HPromise (r : Reach)
    (added : list (string -> option (list Arg -> Reach -> HookResult)))
    (k : Reach -> Settled)
with Settled :=
| Resolved (r : Reach)
    (added : list (string -> option (list Arg -> Reach -> HookResult)))
| Rejected (e : Err) (r : Reach)
    (added : list (string -> option (list Arg -> Reach -> HookResult))).
#[local] Set Elimination Schemes.

Definition Hook := list Arg -> Reach -> HookResult.

(** [plugin[name]]: [Some h] when [typeof plugin[name] === 'function']. *)
Definition Plugin := string -> option Hook.

(** The renderer capability ([IRenderer]); every method returns a promise
    that the pipeline awaits, so a synchronous throw and a rejection are one
    outcome.  A renderer is handed the request context, not the server. *)
Record IRenderer := mkRenderer {
  renderSPAPage : World -> Completion JSString;
  render : World -> Completion JSString;
  renderSSRPage : JSString -> World -> Completion JSString
}.

Record IServerOptions := mkServerOptions {
  spaPaths : option (list string);
  webpack : bool
}.

(** ** Observable events of one run

    [EvEnd b] is a completed terminal write: a call of [res.end] that wrote
    the body [b]. *)

Inductive Event :=
| EvHook (name : string) (i : nat)
| EvAwaited (name : string) (i : nat)
| EvMatch (u : string) (globs : list string)
| EvRenderSPAPage (r : RendererId)
| EvRender (r : RendererId)
| EvRenderSSRPage (r : RendererId) (b : JSString)
| EvRebuild (r : RendererId)
| EvLog (e : Err)
| EvEnd (b : JSString).

(** ** The monad

    State: the store of the request being served, the fields of the server
    object ([this.plugins], [this.renderer], [this.started], the calls made
    on [this.adapter]), the signal listeners of the process and the
    development rebuilds still to come.  [rebuilds] has one entry per
    suspension on a pending promise: [Some r] when the callback that [start]
    gives to [setupDevMiddleware] assigns renderer [r] to [this.renderer]
    while the caller is suspended there. *)

Record St := mkSt {
  world : World;
  plugins : list Plugin;
  renderer : RendererId;
  started : bool;
  adapter_calls : list AdapterCall;
  listeners : list string;
  rebuilds : list (option RendererId)
}.

Definition with_world (w : World) (st : St) : St :=
  mkSt w (plugins st) (renderer st) (started st) (adapter_calls st)
       (listeners st) (rebuilds st).

Definition with_plugins (ps : list Plugin) (st : St) : St :=
  mkSt (world st) ps (renderer st) (started st) (adapter_calls st)
       (listeners st) (rebuilds st).

Definition with_renderer (r : RendererId) (st : St) : St :=
  mkSt (world st) (plugins st) r (started st) (adapter_calls st)
       (listeners st) (rebuilds st).

Definition with_started (b : bool) (st : St) : St :=
  mkSt (world st) (plugins st) (renderer st) b (adapter_calls st)
       (listeners st) (rebuilds st).

Definition with_adapter_calls (cs : list AdapterCall) (st : St) : St :=
  mkSt (world st) (plugins st) (renderer st) (started st) cs
       (listeners st) (rebuilds st).

Definition with_listeners (ls : list string) (st : St) : St :=
  mkSt (world st) (plugins st) (renderer st) (started st) (adapter_calls st)
       ls (rebuilds st).

Definition with_rebuilds (q : list (option RendererId)) (st : St) : St :=
  mkSt (world st) (plugins st) (renderer st) (started st) (adapter_calls st)
       (listeners st) q.

(** What a hook called in state [st] can reach, and the state once a hook
    has left [r] of it and registered the plugins [added]. *)
Definition reach (st : St) : Reach :=
  mkReach (world st) (renderer st) (started st) (adapter_calls st) (listeners st).

Definition reached (r : Reach) (added : list Plugin) (st : St) : St :=
  mkSt (store r) (plugins st ++ added) (its_renderer r) (its_started r)
       (its_adapter_calls r) (its_listeners r) (rebuilds st).

(** A computation ends normally, throws, or has not ended: [Diverge] is the
    outcome of a loop over [this.plugins] that is still running when the
    rounds allowed to it are used up (see [invoke_rest]). *)
Inductive Res (A : Type) :=
| Ok (a : A)
| Throw (e : Err)
| Diverge.
Arguments Ok {A} a.
Arguments Throw {A} e.
Arguments Diverge {A}.

Definition M (A : Type) := St -> Res A * St * list Event.

Definition ret {A} (a : A) : M A := fun st => (Ok a, st, []).

Definition bind {A B} (m : M A) (f : A -> M B) : M B :=
  fun st =>
    match m st with
    | (Ok a, st1, ev1) =>
        match f a st1 with
        | (r, st2, ev2) => (r, st2, ev1 ++ ev2)
        end
    | (Throw e, st1, ev1) => (Throw e, st1, ev1)
    | (Diverge, st1, ev1) => (Diverge, st1, ev1)
    end.

Notation "x <- m ;; k" := (bind m (fun x => k))
  (at level 61, m at next level, right associativity).
Notation "m ;; k" := (bind m (fun _ => k))
  (at level 61, right associativity).

Definition throw {A} (e : Err) : M A := fun st => (Throw e, st, []).

Definition diverge {A} : M A := fun st => (Diverge, st, []).

Definition try_catch {A} (m : M A) (h : Err -> M A) : M A :=
  fun st =>
    match m st with
    | (Ok a, st1, ev1) => (Ok a, st1, ev1)
    | (Throw e, st1, ev1) =>
        match h e st1 with
        | (r, st2, ev2) => (r, st2, ev1 ++ ev2)
        end
    | (Diverge, st1, ev1) => (Diverge, st1, ev1)
    end.

Definition emit (e : Event) : M unit := fun st => (Ok tt, st, [e]).

Definition gets {A} (f : St -> A) : M A := fun st => (Ok (f st), st, []).

Definition update (f : St -> St) : M unit := fun st => (Ok tt, f st, []).

Definition get_world : M World := gets world.

Definition set_world (w : World) : M unit := update (with_world w).

Definition modify (f : World -> World) : M unit :=
  w <- get_world ;; set_world (f w).

(** Suspension on a pending promise: the next scheduled rebuild, if any,
    replaces [this.renderer] (the callback given to [setupDevMiddleware]). *)
Definition suspend : M unit :=
  fun st =>
    match rebuilds st with
    | [] => (Ok tt, st, [])
    | None :: q => (Ok tt, with_rebuilds q st, [])
    | Some r :: q => (Ok tt, with_rebuilds q (with_renderer r st), [EvRebuild r])
    end.

(** Resuming after an awaited computation. *)
Definition settle {A} (c : Completion A) : M A :=
  match c with
  | Normal a w => set_world w ;; ret a
  | Abrupt e w => set_world w ;; throw e
  end.

(** ** Store updates *)

Definition set_body (b : JSString) (w : World) : World :=
  mkWorld (mkResponseContext b (status (response w))) (context w) (res w).

Definition set_status (s : Z) (w : World) : World :=
  mkWorld (mkResponseContext (body (response w)) s) (context w) (res w).

Definition set_redirected (b : bool) (w : World) : World :=
  let c := context w in
  mkWorld (response w)
    (mkRequestContext (data c) b (req c) (url c) (statusCode c)) (res w).

Definition set_statusCode (s : option Z) (w : World) : World :=
  let c := context w in
  mkWorld (response w)
    (mkRequestContext (data c) (redirected c) (req c) (url c) s) (res w).

Definition set_res (r : ServerResponse) (w : World) : World :=
  mkWorld (response w) (context w) r.

(** The header table after [res.setHeader(name, value)]: a later value
    replaces an earlier one. *)
Definition res_setHeader (name : string) (v : HeaderValue) (r : ServerResponse)
  : ServerResponse :=
  mkServerResponse (phase r)
    ((name, v) :: filter (fun kv => negb (String.eqb (fst kv) name)) (headers r))
    (res_statusCode r) (ended r).

Definition res_getHeader (name : string) (r : ServerResponse) : option HeaderValue :=
  match find (fun kv => String.eqb (fst kv) name) (headers r) with
  | Some kv => Some (snd kv)
  | None => None
  end.

Definition res_set_statusCode (s : Z) (r : ServerResponse) : ServerResponse :=
  mkServerResponse (phase r) (headers r) s (ended r).

(** The response after [res.end(body)] wrote the body and finalized it. *)
Definition res_end (b : JSString) (r : ServerResponse) : ServerResponse :=
  mkServerResponse Finished (headers r) (res_statusCode r) (ended r ++ [b]).

(** A response as the transport hands it to the first middleware. *)
Definition fresh_res : ServerResponse := mkServerResponse Open [] 200 [].

(** ** The transport response

    [res.setHeader(name, value)] throws once the header block is sent. *)
Definition setHeader (name : string) (v : HeaderValue) : M unit :=
  w <- get_world ;;
  if headersSent (res w) then throw "ERR_HTTP_HEADERS_SENT"
  else set_world (set_res (res_setHeader name v (res w)) w).

(** The status codes that [writeHead] accepts: [statusCode | 0] must lie
    between 100 and 999. *)
Definition valid_status (s : Z) : bool :=
  (100 <=? to_int32 s)%Z && (to_int32 s <=? 999)%Z.

(** [res.end(body)].  On an open response the header block is written first
    with [res.statusCode], which throws when the status code is not valid:
    nothing is written then and the response stays open.  On a finished
    response nothing is written. *)
Definition end_response (b : JSString) : M unit :=
  w <- get_world ;;
  match phase (res w) with
  | Finished => ret tt
  | HeadersSent =>
      emit (EvEnd b) ;;
      set_world (set_res (res_end b (res w)) w)
  | Open =>
      if valid_status (res_statusCode (res w)) then
        emit (EvEnd b) ;;
        set_world
          (set_res
             (res_end b (res_set_statusCode (to_int32 (res_statusCode (res w))) (res w)))
             w)
      else throw "ERR_HTTP_INVALID_STATUS_CODE"
  end.

(** ** The server *)

(** How a block of statements ends: by falling through or by [return]. *)
Inductive Flow := FallThrough | Return.

(** One synchronous call [plugin[name].bind(plugin)(...args)] whose value is
    dropped: a returned promise is not awaited. *)
Definition call_hook (h : Hook) (args : list Arg) : M unit :=
  r <- gets reach ;;
  match h args r with
  | HThrow e r' added => update (reached r' added) ;; throw e
  | HReturn r' added => update (reached r' added)
  | HPromise r' added _ => update (reached r' added)
  end.

(** A promise settles. *)
Definition settle_hook (s : Settled) : M unit :=
  match s with
  | Resolved r' added => update (reached r' added)
  | Rejected e r' added => update (reached r' added) ;; throw e
  end.

(** [await plugin[name].bind(plugin)(...args)]: a returned promise suspends
    the caller until it settles; a rejection is thrown at the [await]. *)
Definition await_hook (h : Hook) (args : list Arg) : M unit :=
  r <- gets reach ;;
  match h args r with
  | HThrow e r' added => update (reached r' added) ;; throw e
  | HReturn r' added => update (reached r' added)
  | HPromise r' added k =>
      update (reached r' added) ;;
      suspend ;;
      r'' <- gets reach ;;
      settle_hook (k r'')
  end.

(** One pass of the loop of [invoke(name, ...args)] over the plugins [ps],
    which [this.plugins] holds from index [i] on. *)
Fixpoint invoke_from (i : nat) (ps : list Plugin) (name : string)
    (args : list Arg) : M unit :=
  match ps with
  | [] => ret tt
  | plugin :: rest =>
      match plugin name with
      | Some h =>
          emit (EvHook name i) ;;
          call_hook h args ;;
          invoke_from (S i) rest name args
      | None => invoke_from (S i) rest name args
      end
  end.

(** [for (const plugin of this.plugins)] reads the array as it stands at
    each step, so the loop also visits the plugins that the hooks it calls
    have pushed.  [invoke_rest] goes on from index [i]: it takes what the
    array holds from there, passes over it and starts again, until the array
    holds nothing more.  [fuel] bounds the number of such rounds. *)
Fixpoint invoke_rest (fuel : nat) (i : nat) (name : string) (args : list Arg)
  : M unit :=
  more <- gets (fun st => skipn i (plugins st)) ;;
  match more with
  | [] => ret tt
  | _ :: _ =>
      match fuel with
      | 0 => diverge
      | S fuel' =>
          invoke_from i more name args ;;
          invoke_rest fuel' (i + length more) name args
      end
  end.

(** [invoke(name, ...args)] *)
Definition invoke (fuel : nat) (name : string) (args : list Arg) : M unit :=
  ps <- gets plugins ;;
  invoke_from 0 ps name args ;;
  invoke_rest fuel (length ps) name args.

(** The loop of [invokeAsync(name, ...args)]: each call is awaited before the
    loop goes on. *)
Fixpoint invokeAsync_from (i : nat) (ps : list Plugin) (name : string)
    (args : list Arg) : M unit :=
  match ps with
  | [] => ret tt
  | plugin :: rest =>
      match plugin name with
      | Some h =>
          emit (EvHook name i) ;;
          await_hook h args ;;
          emit (EvAwaited name i) ;;
          invokeAsync_from (S i) rest name args
      | None => invokeAsync_from (S i) rest name args
      end
  end.

Fixpoint invokeAsync_rest (fuel : nat) (i : nat) (name : string)
    (args : list Arg) : M unit :=
  more <- gets (fun st => skipn i (plugins st)) ;;
  match more with
  | [] => ret tt
  | _ :: _ =>
      match fuel with
      | 0 => diverge
      | S fuel' =>
          invokeAsync_from i more name args ;;
          invokeAsync_rest fuel' (i + length more) name args
      end
  end.

(** [invokeAsync(name, ...args)] *)
Definition invokeAsync (fuel : nat) (name : string) (args : list Arg) : M unit :=
  ps <- gets plugins ;;
  invokeAsync_from 0 ps name args ;;
  invokeAsync_rest fuel (length ps) name args.

(** [addPlugin(plugin, options)]: the plugin is pushed before its [install]
    hook is called. *)
Definition addPlugin (plugin : Plugin) : M unit :=
  update (fun st => with_plugins (plugins st ++ [plugin]) st) ;;
  match plugin "install" with
  | Some h => call_hook h [ArgServer; ArgOptions]
  | None => ret tt
  end.

(** [sendResponse(response, context)] *)
Definition sendResponse : M unit :=
  setHeader "Content-Type" (HString "text/html; charset=utf-8") ;;
  w <- get_world ;;
  setHeader "Content-Length" (HNumber (js_length (body (response w)))) ;;
  modify (fun w =>
    set_res (res_set_statusCode
               (js_or_number (statusCode (context w)) (status (response w))) (res w)) w) ;;
  w <- get_world ;;
  end_response (body (response w)).

Section Server.

(** The rounds allowed to a loop over [this.plugins], [this.options], the
    renderers that [createRenderer] builds (numbered in build order),
    [micromatch.some], [process.env.NODE_ENV], the adapter, and how
    reading the built files ([getBuiltFiles]) turns out: the renderer
    built from them, or the error thrown.  [setupDevMiddleware] belongs
    to this repository but its file is not among the sources at hand: it
    is handed the server and the callback, so it is taken to be any
    function with the reach of a hook. *)
Variable fuel : nat.
Variable options : IServerOptions.
Variable renderers : RendererId -> IRenderer.
Variable micromatch_some : string -> list string -> bool.
Variable NODE_ENV : option string.
Variable adapter : IAdapter.
Variable built_files : RendererId + Err.
Variable setupDevMiddleware : Hook.

(** [await this.renderer.m(...)]: [this.renderer] is read when the call is
    made; the pipeline is then suspended until the promise settles. *)
Definition call_renderer (ev : RendererId -> Event)
    (m : IRenderer -> World -> Completion JSString) : M JSString :=
  r <- gets renderer ;;
  emit (ev r) ;;
  w <- get_world ;;
  let c := m (renderers r) w in
  suspend ;;
  settle c.

(** [spaPaths && spaPaths.length && micromatch.some(context.url, spaPaths)] *)
Definition is_spa_route : M bool :=
  match spaPaths options with
  | None => ret false
  | Some [] => ret false
  | Some (g :: gs) =>
      w <- get_world ;;
      emit (EvMatch (url (context w)) (g :: gs)) ;;
      ret (micromatch_some (url (context w)) (g :: gs))
  end.

(** The SPA branch of the [try] block. *)
Definition spa_branch : M Flow :=
  b <- call_renderer EvRenderSPAPage renderSPAPage ;;
  modify (set_body b) ;;
  ret FallThrough.

(** The SSR branch of the [try] block, with its bare [return]. *)
Definition ssr_branch : M Flow :=
  b <- call_renderer EvRender render ;;
  modify (set_body b) ;;
  w1 <- get_world ;;
  if redirected (context w1) then ret Return
  else
    invokeAsync fuel "beforeBuild" [ArgResponse; ArgContext; ArgServer] ;;
    w2 <- get_world ;;
    b' <- call_renderer (fun r => EvRenderSSRPage r (body (response w2)))
            (fun rd => renderSSRPage rd (body (response w2))) ;;
    modify (set_body b') ;;
    ret FallThrough.

(** What follows the two branches, unless the SSR branch returned. *)
Definition rendered_and_send (flow : Flow) : M Flow :=
  match flow with
  | Return => ret Return
  | FallThrough =>
      invokeAsync fuel "rendered" [ArgResponse; ArgContext; ArgServer] ;;
      sendResponse ;;
      ret FallThrough
  end.

(** The body of the [try] block of [renderMiddleware]. *)
Definition try_block : M Flow :=
  invokeAsync fuel "beforeRender" [ArgContext; ArgServer] ;;
  w <- get_world ;;
  if negb (finished (res w)) then
    spa <- is_spa_route ;;
    flow <- (if spa then spa_branch else ssr_branch) ;;
    rendered_and_send flow
  else ret FallThrough.

(** [process.env.NODE_ENV === 'test'] *)
Definition in_test_mode : bool :=
  match NODE_ENV with
  | Some v => String.eqb v "test"
  | None => false
  end.

(** The body of the [catch (err)] block. *)
Definition catch_block (err : Err) : M Flow :=
  (if in_test_mode then ret tt else emit (EvLog err)) ;;
  invokeAsync fuel "routeError" [ArgErr err; ArgResponse; ArgContext; ArgServer] ;;
  w <- get_world ;;
  (if negb (finished (res w)) then
     modify (fun w => set_body (js_or_string (body (response w)) (js "Server error")) w) ;;
     modify (set_status 500) ;;
     sendResponse
   else ret tt) ;;
  ret FallThrough.

(** The fresh [response] and [context] objects of a request; [res] is the
    transport response of the store. *)
Definition fresh_contexts (rq : IncomingMessage) (w : World) : World :=
  mkWorld (mkResponseContext [] 200)
          (mkRequestContext [] false rq (req_url rq) None)
          (res w).

(** [renderMiddleware(req, res)].  The result is [None] for the bare
    [return]. *)
Definition renderMiddleware (rq : IncomingMessage)
  : M (option (IRequestContext * IResponseContext)) :=
  modify (fresh_contexts rq) ;;
  flow <- try_catch try_block catch_block ;;
  match flow with
  | Return => ret None
  | FallThrough =>
      invoke fuel "afterResponse" [ArgContext; ArgServer] ;;
      w <- get_world ;;
      ret (Some (context w, response w))
  end.

(** A call on the adapter that returns a promise, awaited by the caller. *)
Definition call_adapter (c : AdapterCall)
    (settles : list AdapterCall -> option Err) : M unit :=
  cs <- gets adapter_calls ;;
  update (with_adapter_calls (cs ++ [c])) ;;
  match settles cs with
  | None => ret tt
  | Some e => throw e
  end.

(** [process.removeAllListeners(signal)] *)
Definition removeAllListeners (signal : string) : M unit :=
  update (fun st =>
    with_listeners (filter (fun s => negb (String.eqb s signal)) (listeners st)) st).

(** [process.once(signal, handler)] with the handler of [start]. *)
Definition process_once (signal : string) : M unit :=
  update (fun st => with_listeners (listeners st ++ [signal]) st).

(** [use(...args)]: the middleware is handed to the adapter. *)
Definition use : M unit :=
  update (fun st => with_adapter_calls (adapter_calls st ++ [AUse]) st).

(** [start()].  In development mode [readyPromise] is what
    [setupDevMiddleware(this, callback)] returns. *)
Definition start : M unit :=
  invokeAsync fuel "beforeStart" [ArgServer] ;;
  (if webpack options then
     await_hook setupDevMiddleware [ArgServer; ArgCallback]
   else
     match built_files with
     | inl r => update (with_renderer r)
     | inr e => throw e
     end) ;;
  use ;;
  call_adapter AStart (adapter_start adapter) ;;
  update (with_started true) ;;
  process_once "SIGINT" ;;
  process_once "SIGTERM".

(** [stop()] *)
Definition stop : M unit :=
  running <- gets started ;;
  if running then
    removeAllListeners "SIGINT" ;;
    removeAllListeners "SIGTERM" ;;
    call_adapter AStop (adapter_stop adapter)
  else ret tt.

End Server.

(** The three components of a run: how it ended, the state it left and the
    events it emitted. *)
Definition result {A} (x : Res A * St * list Event) : Res A := fst (fst x).
Definition final {A} (x : Res A * St * list Event) : St := snd (fst x).
Definition events {A} (x : Res A * St * list Event) : list Event := snd x.

(** ** Concrete servers, used to run the pipeline *)

Module Examples.

(** A stand-in for [micromatch.some] in the runs below: plain string
    equality with one of the globs.  The runs apply it to ["/app"],
    ["/app?x=1"] and ["/about"] against the glob ["/app"] only, where
    [micromatch.some] gives the same answers. *)
Definition literal_some (u : string) (globs : list string) : bool :=
  existsb (String.eqb u) globs.

(** A renderer that never fails and never touches the store. *)
Definition page_renderer (tag : string) : IRenderer :=
  mkRenderer
    (fun w => Normal (js "<spa>" ++ js tag) w)
    (fun w => Normal (js "<div>" ++ js tag) w)
    (fun b w => Normal (js "<html>" ++ b) w).

(** A renderer whose [render] issues a redirect: it flags the context and
    leaves the transport response alone. *)
Definition redirecting_renderer : IRenderer :=
  mkRenderer
    (fun w => Normal (js "<spa>") w)
    (fun w => Normal [] (set_redirected true w))
    (fun b w => Normal (js "<html>" ++ b) w).

(** A renderer whose [render] rejects. *)
Definition failing_renderer : IRenderer :=
  mkRenderer
    (fun w => Normal (js "<spa>") w)
    (fun w => Abrupt "render failed" w)
    (fun b w => Normal (js "<html>" ++ b) w).

(** A renderer producing a one-character page, [U+00E9]. *)
Definition accent_renderer : IRenderer :=
  mkRenderer
    (fun w => Normal [0xE9%N] w)
    (fun w => Normal [0xE9%N] w)
    (fun b w => Normal b w).

(** A renderer whose page assembly rejects. *)
Definition assembly_fails : IRenderer :=
  mkRenderer
    (fun w => Normal (js "<spa>") w)
    (fun w => Normal (js "<div>About") w)
    (fun b w => Abrupt "template missing" w).

(** A plugin with the single hook [name]. *)
Definition plugin_with (name : string) (h : Hook) : Plugin :=
  fun n => if String.eqb n name then Some h else None.

(** A change of the store of the request, and nothing else. *)
Definition on_store (f : World -> World) (r : Reach) : Reach :=
  mkReach (f (store r)) (its_renderer r) (its_started r) (its_adapter_calls r)
          (its_listeners r).

Definition hook_throw (e : Err) : Hook := fun _ r => HThrow e r [].
Definition hook_noop : Hook := fun _ r => HReturn r [].
Definition hook_redirect_flag : Hook :=
  fun _ r => HReturn (on_store (set_redirected true) r) [].
Definition hook_set_statusCode (s : Z) : Hook :=
  fun _ r => HReturn (on_store (set_statusCode (Some s)) r) [].
Definition hook_set_status (s : Z) : Hook :=
  fun _ r => HReturn (on_store (set_status s) r) [].
Definition hook_set_body (b : JSString) : Hook :=
  fun _ r => HReturn (on_store (set_body b) r) [].

(** A hook that answers by itself: it writes a redirect on the transport
    response, ends it and flags the context. *)
Definition hook_redirect : Hook :=
  fun _ r =>
    HReturn
      (on_store (fun w => set_redirected true
                   (set_res (res_end [] (res_set_statusCode 302 (res w))) w)) r)
      [].

(** A hook that hands a middleware to the adapter with [server.use], as
    the [install] hook of the static files plugin does. *)
Definition hook_use : Hook :=
  fun _ r =>
    HReturn (mkReach (store r) (its_renderer r) (its_started r)
                     (its_adapter_calls r ++ [AUse]) (its_listeners r)) [].

(** A hook that registers the plugins [ps] with [server.addPlugin]. *)
Definition hook_register (ps : list Plugin) : Hook :=
  fun _ r => HReturn r ps.

(** A hook that reassigns [this.renderer], as a call of [server.start]
    from within a hook does. *)
Definition hook_swap_renderer (n : RendererId) : Hook :=
  fun _ r =>
    HReturn (mkReach (store r) n (its_started r) (its_adapter_calls r)
                     (its_listeners r)) [].

Definition blank_world (r : ServerResponse) : World :=
  mkWorld (mkResponseContext [] 0)
          (mkRequestContext [] false (mkIncomingMessage "") "" None) r.

(** A running server with plugins [ps] and renderer number [0], about to
    handle a request on a fresh transport response. *)
Definition serving (ps : list Plugin) (q : list (option RendererId)) : St :=
  mkSt (blank_world fresh_res) ps 0 true [AUse; AStart] ["SIGINT"; "SIGTERM"] q.

(** A server object just constructed. *)
Definition constructed (ps : list Plugin) : St :=
  mkSt (blank_world fresh_res) ps 0 false [] [] [].

(** A process in which the application has listeners of its own. *)
Definition with_own_listeners (ps : list Plugin) : St :=
  mkSt (blank_world fresh_res) ps 0 false [] ["SIGINT"; "SIGHUP"] [].

Definition no_spa : IServerOptions := mkServerOptions None false.
Definition spa_app : IServerOptions := mkServerOptions (Some ["/app"]) false.
Definition dev_no_spa : IServerOptions := mkServerOptions None true.

(** An adapter whose [start] and [stop] always resolve. *)
Definition easy_adapter : IAdapter := mkAdapter (fun _ => None) (fun _ => None).

(** Rounds allowed to the loops of the runs below. *)
Definition rounds : nat := 2.

(** Start in production mode with built files giving renderer [0], then
    stop twice. *)
Definition started_once : St :=
  final (start rounds no_spa easy_adapter (inl 0) hook_noop (constructed [])).

Definition stopped_once : St := final (stop easy_adapter started_once).

Definition stopped_twice : St := final (stop easy_adapter stopped_once).

Definition about := mkIncomingMessage "/about".

(** No plugin, no SPA route: the plain SSR request. *)
Definition about_run :=
  renderMiddleware rounds no_spa (fun _ => page_renderer "About") literal_some None
    about (serving [] []).

(** [render] flags a redirect and answers nothing. *)
Definition redirect_run :=
  renderMiddleware rounds no_spa (fun _ => redirecting_renderer) literal_some None
    about (serving [] []).

(** A [beforeRender] hook sets [context.redirected] on an SPA route;
    another plugin listens to [rendered]. *)
Definition flagged_plugins : list Plugin :=
  [plugin_with "beforeRender" hook_redirect_flag;
   plugin_with "rendered" hook_noop;
   plugin_with "afterResponse" hook_noop].

Definition flagged_run :=
  renderMiddleware rounds spa_app (fun _ => page_renderer "App") literal_some None
    (mkIncomingMessage "/app") (serving flagged_plugins []).

(** The same plugins on a route rendered on the server. *)
Definition flagged_ssr_run :=
  renderMiddleware rounds spa_app (fun _ => page_renderer "About") literal_some None
    about (serving flagged_plugins []).

(** A [beforeRender] hook answers the request itself. *)
Definition answering_plugins : list Plugin :=
  [plugin_with "beforeRender" hook_redirect;
   plugin_with "rendered" hook_noop;
   plugin_with "afterResponse" hook_noop].

Definition answered_run :=
  renderMiddleware rounds spa_app (fun _ => page_renderer "App") literal_some None
    (mkIncomingMessage "/app") (serving answering_plugins []).

(** [render] rejects and the only [routeError] hook throws. *)
Definition routeError_throws_run :=
  renderMiddleware rounds no_spa (fun _ => failing_renderer) literal_some None
    about (serving [plugin_with "routeError" (hook_throw "boom")] []).

(** [render] rejects; no plugin. *)
Definition render_fails_run :=
  renderMiddleware rounds no_spa (fun _ => failing_renderer) literal_some None
    about (serving [] []).

(** [render] rejects; a [routeError] hook writes a page of its own into
    the response context. *)
Definition custom_error_plugins : list Plugin :=
  [plugin_with "routeError" (hook_set_body (js "Oops"))].

(** [render] rejects after a [beforeRender] hook set [context.statusCode]
    to 1000. *)
Definition invalid_status_run :=
  renderMiddleware rounds no_spa (fun _ => failing_renderer) literal_some None
    about (serving [plugin_with "beforeRender" (hook_set_statusCode 1000)] []).

(** A [rendered] hook sets [response.status] to 1000: the send step of
    the [try] block throws and the [catch] block sends. *)
Definition resent_run :=
  renderMiddleware rounds no_spa (fun _ => page_renderer "About") literal_some None
    about (serving [plugin_with "rendered" (hook_set_status 1000)] []).



(** The SPA route [/app] requested with a query string. *)
Definition query_string_run :=
  renderMiddleware rounds spa_app (fun _ => page_renderer "App") literal_some None
    (mkIncomingMessage "/app?x=1") (serving [] []).

(** The same route requested without a query string. *)
Definition plain_path_run :=
  renderMiddleware rounds spa_app (fun _ => page_renderer "App") literal_some None
    (mkIncomingMessage "/app") (serving [] []).

(** Development mode: a rebuild installs renderer [1] while [render] of
    renderer [0] is pending. *)
Definition rebuild_during_render_run :=
  renderMiddleware rounds dev_no_spa
    (fun r => page_renderer (if Nat.eqb r 0 then "old" else "new"))
    literal_some None about (serving [] [Some 1]).

(** A [beforeRender] hook sets [context.statusCode] to 404. *)
Definition not_found_run :=
  renderMiddleware rounds no_spa (fun _ => page_renderer "About") literal_some None
    about (serving [plugin_with "beforeRender" (hook_set_statusCode 404)] []).


(** A page whose body is the single character [U+00E9]. *)
Definition accent_run :=
  renderMiddleware rounds no_spa (fun _ => accent_renderer) literal_some None
    about (serving [] []).

(** A plugin whose [beforeStart] hook registers a second plugin, which
    has a [beforeStart] hook too. *)
Definition registering_plugins : list Plugin :=
  [plugin_with "beforeStart" (hook_register [plugin_with "beforeStart" hook_use])].

End Examples.

(** ** Vocabulary for statements about runs *)

(** [preserves I E m]: from a state in [I], [m] ends in [I] and emits only
    events of [E]. *)
Definition preserves {A} (I : St -> Prop) (E : Event -> Prop) (m : M A) : Prop :=
  forall st, I st -> I (final (m st)) /\ Forall E (events (m st)).

(** Invariants that do not read the store of the request. *)
Definition storeless (I : St -> Prop) : Prop :=
  forall st w, I st -> I (with_world w st).

Definition is_end (e : Event) : bool :=
  match e with EvEnd _ => true | _ => false end.

Definition is_spa_call (e : Event) : bool :=
  match e with EvRenderSPAPage _ => true | _ => false end.

Definition is_ssr_call (e : Event) : bool :=
  match e with EvRender _ | EvRenderSSRPage _ _ => true | _ => false end.

Definition is_log (e : Event) : bool :=
  match e with EvLog _ => true | _ => false end.

Definition is_match (e : Event) : bool :=
  match e with EvMatch _ _ => true | _ => false end.

(** The hook calls among the events of a hook invocation. *)
Definition is_call (e : Event) : bool :=
  match e with EvHook _ _ => true | _ => false end.

Definition calls (evs : list Event) : list Event := filter is_call evs.

(** The renderer that served a renderer call. *)
Definition renderer_of (e : Event) : option RendererId :=
  match e with
  | EvRenderSPAPage r | EvRender r | EvRenderSSRPage r _ => Some r
  | _ => None
  end.

Definition count (p : Event -> bool) (evs : list Event) : nat :=
  length (filter p evs).

(** Number of terminal writes completed by the pipeline. *)
Definition sends (evs : list Event) : nat := count is_end evs.

(** The plugin has no hook called [name]. *)
Definition lacks (name : string) (p : Plugin) : Prop := p name = None.

(** The plugin has none of the hooks that the pipeline invokes. *)
Definition no_request_hooks (p : Plugin) : Prop :=
  lacks "beforeRender" p /\ lacks "beforeBuild" p /\ lacks "rendered" p
  /\ lacks "routeError" p /\ lacks "afterResponse" p.

(** ** Hook invocation, as the specification words it

    One call of a hook, its value dropped ([invoke]) or awaited
    ([invokeAsync]): how the call ends, the state it leaves and what it
    emits.  A hook that throws fails the call.  A returned promise is not
    looked at when the value is dropped; when it is awaited the caller is
    suspended until it settles, and a rejection fails the call. *)
Inductive Mode := Dropped | Awaited.

Definition marker (m : Mode) (name : string) (i : nat) : list Event :=
  match m with
  | Dropped => []
  | Awaited => [EvAwaited name i]
  end.

Inductive one_call (m : Mode) (name : string) (i : nat) (h : Hook)
    (args : list Arg) (st : St) : Res unit -> St -> list Event -> Prop :=
| call_throws e r added :
    h args (reach st) = HThrow e r added ->
    one_call m name i h args st (Throw e) (reached r added st) [EvHook name i]
| call_returns r added :
    h args (reach st) = HReturn r added ->
    one_call m name i h args st (Ok tt) (reached r added st)
      (EvHook name i :: marker m name i)
| call_drops r added k :
    m = Dropped ->
    h args (reach st) = HPromise r added k ->
    one_call m name i h args st (Ok tt) (reached r added st) [EvHook name i]
| call_resolves r added k r2 added2 :
    m = Awaited ->
    h args (reach st) = HPromise r added k ->
    k (reach (final (suspend (reached r added st)))) = Resolved r2 added2 ->
    one_call m name i h args st (Ok tt)
      (reached r2 added2 (final (suspend (reached r added st))))
      (EvHook name i :: events (suspend (reached r added st)) ++ [EvAwaited name i])
| call_rejects r added k e r2 added2 :
    m = Awaited ->
    h args (reach st) = HPromise r added k ->
    k (reach (final (suspend (reached r added st)))) = Rejected e r2 added2 ->
    one_call m name i h args st (Throw e)
      (reached r2 added2 (final (suspend (reached r added st))))
      (EvHook name i :: events (suspend (reached r added st))).

(** The hook [name] is called on each plugin that has it, in the order of
    [this.plugins] from index [i] on, plugins without it being skipped; a
    call that fails aborts the invocation, the error going to the caller
    and the remaining plugins not being called.  The list is read as it
    stands when index [i] is reached. *)
Inductive in_order (m : Mode) (name : string) (args : list Arg)
  : nat -> St -> Res unit -> St -> list Event -> Prop :=
| order_done i st :
    nth_error (plugins st) i = None ->
    in_order m name args i st (Ok tt) st []
| order_skip i st p r st' evs :
    nth_error (plugins st) i = Some p ->
    p name = None ->
    in_order m name args (S i) st r st' evs ->
    in_order m name args i st r st' evs
| order_call i st p h st1 ev1 r st2 ev2 :
    nth_error (plugins st) i = Some p ->
    p name = Some h ->
    one_call m name i h args st (Ok tt) st1 ev1 ->
    in_order m name args (S i) st1 r st2 ev2 ->
    in_order m name args i st r st2 (ev1 ++ ev2)
| order_abort i st p h e st1 ev1 :
    nth_error (plugins st) i = Some p ->
    p name = Some h ->
    one_call m name i h args st (Throw e) st1 ev1 ->
    in_order m name args i st (Throw e) st1 ev1.

(** ** What hooks may be assumed to respect

    [abides R p]: every call of a hook of [p], and of a hook of a plugin
    that such a call registers, relates what the hook found to what it
    leaves by [R]. *)
#[local] Unset Elimination Schemes.
Inductive abides (R : Reach -> Reach -> Prop) : Plugin -> Prop :=
| abides_intro (p : Plugin) :
    (forall name h args r e r' added,
        p name = Some h -> h args r = HThrow e r' added ->
        R r r' /\ Forall (abides R) added) ->
    (forall name h args r r' added,
        p name = Some h -> h args r = HReturn r' added ->
        R r r' /\ Forall (abides R) added) ->
    (forall name h args r r' added k,
        p name = Some h -> h args r = HPromise r' added k ->
        R r r' /\ Forall (abides R) added) ->
    (forall name h args r r' added k r1 r2 added2,
        p name = Some h -> h args r = HPromise r' added k ->
        k r1 = Resolved r2 added2 ->
        R r1 r2 /\ Forall (abides R) added2) ->
    (forall name h args r r' added k r1 e r2 added2,
        p name = Some h -> h args r = HPromise r' added k ->
        k r1 = Rejected e r2 added2 ->
        R r1 r2 /\ Forall (abides R) added2) ->
    abides R p.

(** A hook that registers no plugin and relates what it found to what it
    leaves by [R]. *)
Definition plain_hook (R : Reach -> Reach -> Prop) (h : Hook) : Prop :=
  forall args r,
    match h args r with
    | HThrow _ r' added | HReturn r' added => R r r' /\ added = []
    | HPromise r' added k =>
        R r r' /\ added = []
        /\ forall r1,
             match k r1 with
             | Resolved r2 added2 | Rejected _ r2 added2 => R r1 r2 /\ added2 = []
             end
    end.

(** The transport response is not finished by the hook itself. *)
Definition keeps_unfinished (r r' : Reach) : Prop :=
  finished (res (store r)) = false -> finished (res (store r')) = false.

(** [this.renderer] is not reassigned by the hook. *)
Definition keeps_renderer (r r' : Reach) : Prop :=
  its_renderer r' = its_renderer r.

(** The hook leaves the adapter and the signal listeners alone. *)
Definition keeps_host (r r' : Reach) : Prop :=
  its_adapter_calls r' = its_adapter_calls r /\ its_listeners r' = its_listeners r.

(** The hook leaves the server as it is: the [started] mark, the adapter
    and the signal listeners. *)
Definition keeps_server (r r' : Reach) : Prop :=
  its_started r' = its_started r /\ keeps_host r r'.

Definition any_reach (r r' : Reach) : Prop := True.

(** What the hooks can reach is in [J], and every plugin abides by [R]. *)
Definition framed (R : Reach -> Reach -> Prop) (J : Reach -> Prop) (st : St) : Prop :=
  J (reach st) /\ Forall (abides R) (plugins st).

(** How the [try] block ends when nothing but the pipeline finishes the
    response: [n] is the number of terminal writes, and the response is
    still unfinished when the block throws. *)
Definition tried_open (unfinished : St -> Prop) (r : Res Flow) (s : St) (n : nat) : Prop :=
  match r with
  | Ok FallThrough => n = 1
  | Ok Return => n = 0
  | Throw _ => n = 0 /\ unfinished s
  | Diverge => n = 0
  end.

(** The hook [name] of the plugin registers no plugin. *)
Definition registers_nothing (name : string) (p : Plugin) : Prop :=
  forall h args r,
    p name = Some h ->
    match h args r with
    | HThrow _ _ added | HReturn _ added => added = []
    | HPromise _ added k =>
        added = []
        /\ forall r1,
             match k r1 with
             | Resolved _ added2 | Rejected _ _ added2 => added2 = []
             end
    end.

(** The hook [name] of the plugin, if it has one, never returns a promise,
    and neither do the hooks [name] of the plugins that it registers. *)
Inductive synchronous (name : string) : Plugin -> Prop :=
| synchronous_intro (p : Plugin) :
    (forall h args r r' added k,
        p name = Some h -> h args r <> HPromise r' added k) ->
    (forall h args r e r' added,
        p name = Some h -> h args r = HThrow e r' added ->
        Forall (synchronous name) added) ->
    (forall h args r r' added,
        p name = Some h -> h args r = HReturn r' added ->
        Forall (synchronous name) added) ->
    synchronous name p.
#[local] Set Elimination Schemes.

Definition world_of {A} (c : Completion A) : World :=
  match c with
  | Normal _ w => w
  | Abrupt _ w => w
  end.

(** No method of the renderer finishes the transport response by itself. *)
Definition renderer_leaves_open (rd : IRenderer) : Prop :=
  forall w,
    finished (res w) = false ->
    finished (res (world_of (renderSPAPage rd w))) = false
    /\ finished (res (world_of (render rd w))) = false
    /\ forall b, finished (res (world_of (renderSSRPage rd b w))) = false.

(** The transport response is not finished, and no plugin finishes it by
    itself. *)
Definition all_open (st : St) : Prop :=
  finished (res (world st)) = false
  /\ Forall (abides keeps_unfinished) (plugins st).

(** ** The send step *)

(** The status code that the send step assigns: [statusCode || status]. *)
Definition status_to_send (w : World) : Z :=
  match statusCode (context w) with
  | Some c => if (c =? 0)%Z then status (response w) else c
  | None => status (response w)
  end.

(** The store once the send step has set its two headers and assigned the
    status code. *)
Definition prepared (w : World) : World :=
  set_res
    (res_set_statusCode (status_to_send w)
       (res_setHeader "Content-Length" (HNumber (Z.of_nat (length (body (response w)))))
          (res_setHeader "Content-Type" (HString "text/html; charset=utf-8")
             (res w))))
    w.

(** The store after a send step that completed. *)
Definition sent (w : World) : World :=
  set_res
    (res_end (body (response w))
       (res_set_statusCode (to_int32 (status_to_send w)) (res (prepared w))))
    w.

(** The send step can complete: the header block is not sent yet and the
    status code is one that the transport accepts. *)
Definition can_send (w : World) : bool :=
  negb (headersSent (res w))
  && (100 <=? to_int32 (status_to_send w))%Z
  && (to_int32 (status_to_send w) <=? 999)%Z.

(** How the send step ends in state [st]. *)
Definition send_run (st : St) : Res unit * St * list Event :=
  let w := world st in
  match phase (res w) with
  | Open =>
      if can_send w then (Ok tt, with_world (sent w) st, [EvEnd (body (response w))])
      else (Throw "ERR_HTTP_INVALID_STATUS_CODE", with_world (prepared w) st, [])
  | _ => (Throw "ERR_HTTP_HEADERS_SENT", st, [])
  end.

(** A run of the send step as the end of a block. *)
Definition as_flow (r : Res unit) : Res Flow :=
  match r with
  | Ok _ => Ok FallThrough
  | Throw e => Throw e
  | Diverge => Diverge
  end.

Definition anywhere : St -> Prop := fun _ => True.

Definition no_end (e : Event) : Prop := is_end e = false.

(** [m] makes no terminal write. *)
Definition silent {A} (m : M A) : Prop := preserves anywhere no_end m.

(** The terminal write, if there is one, is the last event. *)
Definition ends_with_send (evs : list Event) : Prop :=
  Forall no_end evs
  \/ exists pre b, evs = pre ++ [EvEnd b] /\ Forall no_end pre.

(** [m] makes no terminal write unless it ends normally, and then none or
    one as its last step. *)
Definition send_last {A} (m : M A) : Prop :=
  forall st,
    match result (m st) with
    | Ok _ => ends_with_send (events (m st))
    | _ => Forall no_end (events (m st))
    end.

(** The page that the [catch] block sends: the existing body, or
    ["Server error"] when it is empty. *)
Definition error_page (w : World) : JSString :=
  match body (response w) with
  | [] => js "Server error"
  | _ :: _ => body (response w)
  end.

(** The store after the defaults of the [catch] block. *)
Definition error_defaults (w : World) : World :=
  mkWorld (mkResponseContext (error_page w) 500) (context w) (res w).

(** What the [catch] block logs. *)
Definition logged (NODE_ENV : option string) (err : Err) : list Event :=
  if in_test_mode NODE_ENV then [] else [EvLog err].

(** The state in which the pipeline starts on request [rq]. *)
Definition entering (rq : IncomingMessage) (st : St) : St :=
  with_world (fresh_contexts rq (world st)) st.

(** The hooks returned normally and left the transport response
    unfinished: the condition under which the [try] block goes on to render
    after [beforeRender], and the [catch] block applies its defaults and
    sends after [routeError]. *)
Definition returned_open {A} (hooks : Res A * St * list Event) : bool :=
  match result hooks with
  | Ok _ => negb (finished (res (world (final hooks))))
  | _ => false
  end.

(** Events of hook invocations for the names [ns] and of rebuilds. *)
Definition only_hooks (ns : list string) (e : Event) : Prop :=
  match e with
  | EvHook n _ | EvAwaited n _ => In n ns
  | EvRebuild _ => True
  | _ => False
  end.

Definition no_log (e : Event) : Prop := is_log e = false.

(** Events outside the class [p]. *)
Definition never (p : Event -> bool) : Event -> Prop := fun e => p e = false.

(** The value of
    [spaPaths && spaPaths.length && micromatch.some(url, spaPaths)]. *)
Definition spa_route (options : IServerOptions)
    (micromatch_some : string -> list string -> bool) (u : string) : bool :=
  match spaPaths options with
  | Some (g :: gs) => micromatch_some u (g :: gs)
  | _ => false
  end.

(** The call of [micromatch.some] that this test makes, if any. *)
Definition match_events (options : IServerOptions) (u : string) : list Event :=
  match spaPaths options with
  | Some (g :: gs) => [EvMatch u (g :: gs)]
  | _ => []
  end.

Definition is_renderer_call (e : Event) : bool :=
  match renderer_of e with Some _ => true | None => false end.

(** Events that are neither renderer calls nor glob matches. *)
Definition outside_rendering : Event -> Prop :=
  never (fun e => is_renderer_call e || is_match e).

(** The path of a request URL: what precedes the first [?]. *)
Fixpoint url_path (u : string) : string :=
  match u with
  | EmptyString => EmptyString
  | String c rest => if Ascii.eqb c "?" then EmptyString else String c (url_path rest)
  end.

(** No development rebuild is pending. *)
Definition no_rebuild (st : St) : Prop := Forall (fun o => o = None) (rebuilds st).

(** [this.renderer] is [r0] and nothing is going to reassign it. *)
Definition steady (r0 : RendererId) (st : St) : Prop :=
  renderer st = r0 /\ no_rebuild st /\ Forall (abides keeps_renderer) (plugins st).

(** A renderer call, if [e] is one, is a call on renderer [r0]. *)
Definition served_by (r0 : RendererId) (e : Event) : Prop :=
  match renderer_of e with
  | Some r => r = r0
  | None => True
  end.

Definition is_ascii_unit (u : N) : Prop := (u < 0x80)%N.

(** What the pipeline emits after its first terminal write. *)
Fixpoint after_send (evs : list Event) : list Event :=
  match evs with
  | [] => []
  | EvEnd _ :: rest => rest
  | _ :: rest => after_send rest
  end.

Definition afterResponse_call (e : Event) : Prop :=
  match e with
  | EvHook n _ => n = "afterResponse"
  | _ => False
  end.

(** What a request that ends by the bare [return] has done: [beforeRender]
    hooks, the glob test, the call of [render], and rebuilds meanwhile. *)
Definition before_return (e : Event) : Prop :=
  match e with
  | EvHook n _ | EvAwaited n _ => n = "beforeRender"
  | EvMatch _ _ | EvRender _ | EvRebuild _ => True
  | _ => False
  end.

(** The signals on which [start] installs a listener. *)
Definition is_termination_signal (s : string) : bool :=
  String.eqb s "SIGINT" || String.eqb s "SIGTERM".

(** Numbers of the plugins of [ps] that have the hook [name], the first
    plugin of [ps] being number [i]. *)
Fixpoint having_from (i : nat) (ps : list Plugin) (name : string) : list nat :=
  match ps with
  | [] => []
  | plugin :: rest =>
      match plugin name with
      | Some _ => i :: having_from (S i) rest name
      | None => having_from (S i) rest name
      end
  end.

(** ** The two loops as one

    Both loops pass over the plugins in the same way and differ in the step
    made on a plugin that has the hook. *)
Definition sync_step (name : string) (args : list Arg) (i : nat) (h : Hook) : M unit :=
  emit (EvHook name i) ;; call_hook h args.

Definition async_step (name : string) (args : list Arg) (i : nat) (h : Hook) : M unit :=
  emit (EvHook name i) ;; await_hook h args ;; emit (EvAwaited name i).

Definition step_of (m : Mode) : string -> list Arg -> nat -> Hook -> M unit :=
  match m with
  | Dropped => sync_step
  | Awaited => async_step
  end.

Fixpoint pass (step : nat -> Hook -> M unit) (name : string) (i : nat)
    (ps : list Plugin) : M unit :=
  match ps with
  | [] => ret tt
  | plugin :: rest =>
      match plugin name with
      | Some h => step i h ;; pass step name (S i) rest
      | None => pass step name (S i) rest
      end
  end.

Fixpoint rounds (step : nat -> Hook -> M unit) (name : string) (fuel i : nat)
  : M unit :=
  more <- gets (fun st => skipn i (plugins st)) ;;
  match more with
  | [] => ret tt
  | _ :: _ =>
      match fuel with
      | 0 => diverge
      | S fuel' =>
          pass step name i more ;;
          rounds step name fuel' (i + length more)
      end
  end.

Definition loop (step : nat -> Hook -> M unit) (name : string) (fuel : nat) : M unit :=
  ps <- gets plugins ;;
  pass step name 0 ps ;;
  rounds step name fuel (length ps).

(** The invocation of the hook [name] in mode [m]. *)
Definition invocation (m : Mode) (fuel : nat) (name : string) (args : list Arg)
  : M unit :=
  match m with
  | Dropped => invoke fuel name args
  | Awaited => invokeAsync fuel name args
  end.

(** ** The static files plugin

    The [setHeaders] option that the plugin's [install] passes by default to
    the static middleware. *)

Module StaticPlugin.

(** [prefix p s]: [s] starts with [p]. *)
Fixpoint starts_with (p s : string) : bool :=
match p, s with
| EmptyString, _ => true
| String a p', String b s' => Ascii.eqb a b && starts_with p' s'
| String _ _, EmptyString => false
end.

(** [/re/.test(s)] for a regular expression [re] that spells the literal
  [needle] and has no anchor: [needle] occurs somewhere in [s]. *)
Fixpoint occurs_in (needle s : string) : bool :=
starts_with needle s
|| match s with
   | EmptyString => false
   | String _ s' => occurs_in needle s'
   end.

(** [setHeaders(res, path)] *)
Definition setHeaders (r : ServerResponse) (path : string) : ServerResponse :=
if occurs_in "service-worker.js" path
then res_setHeader "Cache-Control" (HString "public, max-age=0") r
else r.

(** The path has [service-worker.js] somewhere in it. *)
Definition mentions_service_worker (path : string) : Prop :=
exists pre suf,
  path = String.append pre (String.append "service-worker.js" suf).

End StaticPlugin.

(** ** The client webpack configuration

    The function that adapts the chained webpack configuration of the
    client build.  A chained configuration is kept as its named entry points
    and its named plugins, in order. *)

Module ClientConfig.

(** The arguments given to a plugin: those of the modern mode plugin and
  those of the SSR client plugin. *)
Inductive PluginArgs :=
| ModernModeArgs (targetDir : string) (isModernBuild : bool)
| ManifestArgs (filename : string).

Inductive PluginCtor := ModernModePlugin | VueSSRClientPlugin | OtherPlugin (n : string).

Record ChainPlugin := mkChainPlugin {
ctor : PluginCtor;
args : list PluginArgs
}.

Record ChainConfig := mkChainConfig {
entryPoints : list (string * list string);
chain_plugins : list (string * ChainPlugin)
}.

(** [process.env]: the two variables that the function reads. *)
Record Env := mkEnv {
VUE_CLI_MODERN_MODE : option string;
VUE_CLI_MODERN_BUILD : option string
}.

(** Truthiness of an environment variable: set and not empty. *)
Definition truthy (v : option string) : bool :=
match v with
| Some s => negb (String.eqb s "")
| None => false
end.

Fixpoint lookup {V} (k : string) (m : list (string * V)) : option V :=
match m with
| [] => None
| (k', v) :: rest => if String.eqb k' k then Some v else lookup k rest
end.

(** Setting a key of an ordered map: an existing key keeps its place. *)
Fixpoint set_key {V} (k : string) (v : V) (m : list (string * V)) : list (string * V) :=
match m with
| [] => [(k, v)]
| (k', v') :: rest =>
    if String.eqb k' k then (k, v) :: rest else (k', v') :: set_key k v rest
end.

(** [chainConfig.plugin(name).use(ctor, args)] *)
Definition use_plugin (name : string) (c : PluginCtor) (a : list PluginArgs)
  (cfg : ChainConfig) : ChainConfig :=
mkChainConfig (entryPoints cfg)
  (set_key name (mkChainPlugin c a) (chain_plugins cfg)).

Definition legacy_manifest : string := ".uvue/client-manifest-legacy.json".
Definition modern_manifest : string := ".uvue/client-manifest.json".

(** The exported function.  [outputDir] is
  [api.service.projectOptions.outputDir] and [client_entry] the path that
  [require.resolve('@uvue/core/client')] gives; the result is the chained
  configuration handed to [api.resolveWebpackConfig].  Without an [app]
  entry point, [entryPoints.get('app')] is [undefined] and the call of
  [clear] on it throws. *)
Definition client_config (env : Env) (outputDir client_entry : string)
  (cfg : ChainConfig) : Res ChainConfig :=
match lookup "app" (entryPoints cfg) with
| None => Throw "TypeError"
| Some _ =>
    let cfg1 :=
      mkChainConfig (set_key "app" [client_entry] (entryPoints cfg))
                    (chain_plugins cfg) in
    let cfg2 :=
      if truthy (VUE_CLI_MODERN_MODE env) then
        if negb (truthy (VUE_CLI_MODERN_BUILD env)) then
          use_plugin "modern-mode-legacy" ModernModePlugin
            [ModernModeArgs outputDir false] cfg1
        else
          use_plugin "modern-mode-modern" ModernModePlugin
            [ModernModeArgs outputDir true] cfg1
      else cfg1 in
    let isLegacyBuild :=
      negb (truthy (VUE_CLI_MODERN_MODE env))
      || negb (truthy (VUE_CLI_MODERN_BUILD env)) in
    Ok (use_plugin "vue-ssr-plugin" VueSSRClientPlugin
          [ManifestArgs (if isLegacyBuild then legacy_manifest else modern_manifest)]
          cfg2)
end.

(** The manifest file name that the SSR client plugin of a configuration is
  given. *)
Definition manifest_of (cfg : ChainConfig) : option string :=
match lookup "vue-ssr-plugin" (chain_plugins cfg) with
| Some (mkChainPlugin VueSSRClientPlugin [ManifestArgs f]) => Some f
| _ => None
end.

(** The configuration that Vue CLI hands over: an [app] entry and some
  plugins of its own. *)
Definition cli_config : ChainConfig :=
mkChainConfig [("app", ["./src/main.js"])]
              [("vue-loader", mkChainPlugin (OtherPlugin "VueLoaderPlugin") [])].

(** The build is the modern one of a modern mode run. *)
Definition modern_build (env : Env) : bool :=
truthy (VUE_CLI_MODERN_MODE env) && truthy (VUE_CLI_MODERN_BUILD env).

(** The names of the plugins that the function may set. *)
Definition own_plugin_names : list string :=
["modern-mode-legacy"; "modern-mode-modern"; "vue-ssr-plugin"].

Definition modern_mode_plugin (outputDir : string) (modern : bool) : ChainPlugin :=
mkChainPlugin ModernModePlugin [ModernModeArgs outputDir modern].

End ClientConfig.

(** ** Reasoning about runs *)

Lemma bind_run {A B} (m : M A) (f : A -> M B) st :
  bind m f st =
  match m st with
  | (Ok a, st1, ev1) =>
      (result (f a st1), final (f a st1), ev1 ++ events (f a st1))
  | (Throw e, st1, ev1) => (Throw e, st1, ev1)
  | (Diverge, st1, ev1) => (Diverge, st1, ev1)
  end.
Proof.
  unfold bind. destruct (m st) as [[[a|e|] st1] ev1]; try reflexivity.
  destruct (f a st1) as [[r st2] ev2]; reflexivity.
Qed.

Lemma try_catch_run {A} (m : M A) (h : Err -> M A) st :
  try_catch m h st =
  match m st with
  | (Throw e, st1, ev1) =>
      (result (h e st1), final (h e st1), ev1 ++ events (h e st1))
  | x => x
  end.
Proof.
  unfold try_catch. destruct (m st) as [[[a|e|] st1] ev1]; try reflexivity.
  destruct (h e st1) as [[r st2] ev2]; reflexivity.
Qed.

Lemma bind_ext {A B} (m : M A) (f g : A -> M B) st :
  (forall a s, f a s = g a s) -> bind m f st = bind m g st.
Proof.
  intros H. unfold bind. destruct (m st) as [[[a|e|] st1] ev1]; try reflexivity.
  rewrite H. reflexivity.
Qed.

Lemma bind_assoc {A B C} (m : M A) (f : A -> M B) (g : B -> M C) st :
  bind (bind m f) g st = bind m (fun a => bind (f a) g) st.
Proof.
  unfold bind. destruct (m st) as [[[a|e|] st1] ev1]; try reflexivity.
  destruct (f a st1) as [[[b|e|] st2] ev2]; try reflexivity.
  destruct (g b st2) as [[r st3] ev3]. rewrite app_assoc. reflexivity.
Qed.

Lemma run_eta {A} (x : Res A * St * list Event) : x = (result x, final x, events x).
Proof. destruct x as [[r s] e]; reflexivity. Qed.

Lemma preserves_bind {A B} I E (m : M A) (f : A -> M B) :
  preserves I E m -> (forall a, preserves I E (f a)) -> preserves I E (bind m f).
Proof.
  intros Hm Hf st HI. rewrite bind_run.
  destruct (Hm st HI) as [H1 H2].
  destruct (m st) as [[[a|e|] st1] ev1]; cbn in *; try (split; assumption).
  destruct (Hf a st1 H1) as [H3 H4].
  split; [assumption | apply Forall_app; split; assumption].
Qed.

Lemma preserves_ret {A} I E (a : A) : preserves I E (ret a).
Proof. intros st HI; split; [assumption | constructor]. Qed.

Lemma preserves_throw {A} I E e : preserves I E (@throw A e).
Proof. intros st HI; split; [assumption | constructor]. Qed.

Lemma preserves_diverge {A} I E : preserves I E (@diverge A).
Proof. intros st HI; split; [assumption | constructor]. Qed.

Lemma preserves_gets {A} I E (f : St -> A) : preserves I E (gets f).
Proof. intros st HI; split; [assumption | constructor]. Qed.

Lemma preserves_emit I E e : E e -> preserves I E (emit e).
Proof. intros He st HI; split; [assumption | repeat constructor; assumption]. Qed.

Lemma preserves_update I E (f : St -> St) :
  (forall st, I st -> I (f st)) -> preserves I E (update f).
Proof. intros Hf st HI; split; [apply Hf; assumption | constructor]. Qed.

Lemma preserves_try_catch {A} I E (m : M A) (h : Err -> M A) :
  preserves I E m -> (forall e, preserves I E (h e)) -> preserves I E (try_catch m h).
Proof.
  intros Hm Hh st HI. rewrite try_catch_run.
  destruct (Hm st HI) as [H1 H2].
  destruct (m st) as [[[a|e|] st1] ev1]; cbn in *; try (split; assumption).
  destruct (Hh e st1 H1) as [H3 H4].
  split; [assumption | apply Forall_app; split; assumption].
Qed.

Lemma preserves_set_world I E w : storeless I -> preserves I E (set_world w).
Proof. intros HI; apply preserves_update; intros st; apply HI. Qed.

Lemma preserves_modify I E f : storeless I -> preserves I E (modify f).
Proof.
  intros HI; unfold modify, get_world.
  apply preserves_bind; [apply preserves_gets | intros; apply preserves_set_world; assumption].
Qed.

Lemma preserves_setHeader I E name v : storeless I -> preserves I E (setHeader name v).
Proof.
  intros HI; unfold setHeader, get_world.
  apply preserves_bind; [apply preserves_gets | intros w].
  destruct (headersSent (res w));
    [apply preserves_throw | apply preserves_set_world; assumption].
Qed.

Lemma preserves_end_response I E b :
  storeless I -> E (EvEnd b) -> preserves I E (end_response b).
Proof.
  intros HI HE; unfold end_response, get_world.
  apply preserves_bind; [apply preserves_gets | intros w].
  destruct (phase (res w)).
  - destruct (valid_status _); [|apply preserves_throw].
    apply preserves_bind; [apply preserves_emit; assumption | intros].
    apply preserves_set_world; assumption.
  - apply preserves_bind; [apply preserves_emit; assumption | intros].
    apply preserves_set_world; assumption.
  - apply preserves_ret.
Qed.

Lemma preserves_sendResponse I E :
  storeless I -> (forall b, E (EvEnd b)) -> preserves I E sendResponse.
Proof.
  intros HI HE; unfold sendResponse, get_world.
  apply preserves_bind; [apply preserves_setHeader; assumption | intros].
  apply preserves_bind; [apply preserves_gets | intros].
  apply preserves_bind; [apply preserves_setHeader; assumption | intros].
  apply preserves_bind; [apply preserves_modify; assumption | intros].
  apply preserves_bind; [apply preserves_gets | intros].
  apply preserves_end_response; [assumption | apply HE].
Qed.

(** ** The send step *)

Lemma with_world_same st : with_world (world st) st = st.
Proof. destruct st; reflexivity. Qed.

Lemma sendResponse_run st : sendResponse st = send_run st.
Proof.
  unfold send_run, sendResponse, setHeader, end_response, modify, get_world,
    set_world, can_send, valid_status, headersSent, sent, prepared,
    status_to_send, js_or_number, js_length.
  destruct st as [w ps rd s cs ls q]. destruct w as [rp cx r].
  destruct r as [ph hs sc en]. destruct cx as [da rdr rq u stc]. cbn.
  destruct ph; cbn; try reflexivity.
  destruct stc as [c|]; [destruct (c =? 0)%Z eqn:Hc|];
    match goal with
    | |- context [(100 <=? to_int32 ?s)%Z] =>
        destruct (100 <=? to_int32 s)%Z; destruct (to_int32 s <=? 999)%Z
    end; reflexivity.
Qed.

(** ** One hook call *)

Lemma suspend_ok st : result (suspend st) = Ok tt.
Proof. unfold suspend; destruct (rebuilds st) as [|[r|] q]; reflexivity. Qed.

Lemma suspend_world st : world (final (suspend st)) = world st.
Proof. unfold suspend; destruct (rebuilds st) as [|[r|] q]; reflexivity. Qed.

Lemma suspend_plugins st : plugins (final (suspend st)) = plugins st.
Proof. unfold suspend; destruct (rebuilds st) as [|[r|] q]; reflexivity. Qed.

Lemma suspend_run st : suspend st = (Ok tt, final (suspend st), events (suspend st)).
Proof. rewrite <- (suspend_ok st). apply run_eta. Qed.

Lemma call_hook_run h args st :
  call_hook h args st =
  match h args (reach st) with
  | HThrow e r added => (Throw e, reached r added st, [])
  | HReturn r added | HPromise r added _ => (Ok tt, reached r added st, [])
  end.
Proof.
  unfold call_hook. rewrite bind_run. cbn.
  destruct (h args (reach st)); reflexivity.
Qed.

Lemma await_hook_run h args st :
  await_hook h args st =
  match h args (reach st) with
  | HThrow e r added => (Throw e, reached r added st, [])
  | HReturn r added => (Ok tt, reached r added st, [])
  | HPromise r added k =>
      let s := suspend (reached r added st) in
      match k (reach (final s)) with
      | Resolved r2 added2 => (Ok tt, reached r2 added2 (final s), events s)
      | Rejected e r2 added2 => (Throw e, reached r2 added2 (final s), events s)
      end
  end.
Proof.
  unfold await_hook. rewrite bind_run. cbn.
  destruct (h args (reach st)) as [e r added|r added|r added k]; try reflexivity.
  rewrite bind_run. cbn. rewrite bind_run.
  rewrite (suspend_run (reached r added st)). cbn zeta.
  rewrite bind_run. cbn.
  destruct (k (reach (final (suspend (reached r added st))))); cbn;
    rewrite ?app_nil_r; reflexivity.
Qed.

Lemma step_spec m name args i h st :
  one_call m name i h args st
    (result (step_of m name args i h st))
    (final (step_of m name args i h st))
    (events (step_of m name args i h st)).
Proof.
  destruct m; unfold step_of, sync_step, async_step.
  - rewrite bind_run. unfold emit. cbn [result final events fst snd app].
    rewrite call_hook_run.
    destruct (h args (reach st)) as [e r added|r added|r added k] eqn:Hh;
      cbn [result final events fst snd app].
    + apply call_throws; assumption.
    + apply (call_returns Dropped); assumption.
    + eapply call_drops; [reflexivity | eassumption].
  - rewrite bind_run. unfold emit. cbn [result final events fst snd app].
    rewrite bind_run, await_hook_run.
    destruct (h args (reach st)) as [e r added|r added|r added k] eqn:Hh;
      cbn [result final events fst snd app marker].
    + apply call_throws; assumption.
    + apply (call_returns Awaited); assumption.
    + cbn zeta. destruct (k (reach (final (suspend (reached r added st))))) eqn:Hk;
        cbn [result final events fst snd app]; rewrite ?app_nil_r.
      * eapply call_resolves; [reflexivity | eassumption | assumption].
      * eapply call_rejects; [reflexivity | eassumption | assumption].
Qed.

Lemma one_call_extends m name i h args st r st' evs :
  one_call m name i h args st r st' evs ->
  exists added, plugins st' = plugins st ++ added.
Proof.
  intros H; inversion H; subst; cbn [plugins reached];
    rewrite ?suspend_plugins; cbn [plugins reached];
    rewrite <- ?app_assoc; eexists; reflexivity.
Qed.

Lemma one_call_ends m name i h args st r st' evs :
  one_call m name i h args st r st' evs -> r <> Diverge.
Proof. intros H; inversion H; discriminate. Qed.

(** ** The loops *)

Lemma invoke_from_pass name args ps : forall i st,
  invoke_from i ps name args st = pass (sync_step name args) name i ps st.
Proof.
  induction ps as [|p rest IH]; intros i st; [reflexivity|].
  cbn [invoke_from pass]. destruct (p name) as [h|]; [|apply IH].
  unfold sync_step. rewrite bind_assoc.
  apply bind_ext; intros _ s. apply bind_ext; intros _ s'. apply IH.
Qed.

Lemma invokeAsync_from_pass name args ps : forall i st,
  invokeAsync_from i ps name args st = pass (async_step name args) name i ps st.
Proof.
  induction ps as [|p rest IH]; intros i st; [reflexivity|].
  cbn [invokeAsync_from pass]. destruct (p name) as [h|]; [|apply IH].
  unfold async_step. rewrite bind_assoc.
  apply bind_ext; intros _ s. rewrite bind_assoc.
  apply bind_ext; intros _ s'. apply bind_ext; intros _ s''. apply IH.
Qed.

Lemma invoke_rest_rounds name args fuel : forall i st,
  invoke_rest fuel i name args st = rounds (sync_step name args) name fuel i st.
Proof.
  induction fuel as [|fuel IH]; intros i st; cbn [invoke_rest rounds];
    apply bind_ext; intros more s; destruct more; try reflexivity.
  rewrite bind_run, (bind_run (pass _ _ _ _)), invoke_from_pass.
  destruct (pass _ _ _ _ s) as [[[u|e|] s1] ev1]; try reflexivity.
  rewrite IH. reflexivity.
Qed.

Lemma invokeAsync_rest_rounds name args fuel : forall i st,
  invokeAsync_rest fuel i name args st = rounds (async_step name args) name fuel i st.
Proof.
  induction fuel as [|fuel IH]; intros i st; cbn [invokeAsync_rest rounds];
    apply bind_ext; intros more s; destruct more; try reflexivity.
  rewrite bind_run, (bind_run (pass _ _ _ _)), invokeAsync_from_pass.
  destruct (pass _ _ _ _ s) as [[[u|e|] s1] ev1]; try reflexivity.
  rewrite IH. reflexivity.
Qed.

Lemma invocation_loop m fuel name args st :
  invocation m fuel name args st = loop (step_of m name args) name fuel st.
Proof.
  destruct m; unfold invocation, invoke, invokeAsync, loop, step_of;
    apply bind_ext; intros ps s;
    rewrite bind_run, (bind_run (pass _ _ _ _)).
  - rewrite invoke_from_pass.
    destruct (pass _ _ _ _ s) as [[[u|e|] s1] ev1]; try reflexivity.
    rewrite invoke_rest_rounds. reflexivity.
  - rewrite invokeAsync_from_pass.
    destruct (pass _ _ _ _ s) as [[[u|e|] s1] ev1]; try reflexivity.
    rewrite invokeAsync_rest_rounds. reflexivity.
Qed.

Lemma invoke_loop fuel name args st :
  invoke fuel name args st = loop (sync_step name args) name fuel st.
Proof. apply (invocation_loop Dropped). Qed.

Lemma invokeAsync_loop fuel name args st :
  invokeAsync fuel name args st = loop (async_step name args) name fuel st.
Proof. apply (invocation_loop Awaited). Qed.

Lemma rounds_run step name fuel i st :
  rounds step name fuel i st =
  match skipn i (plugins st) with
  | [] => (Ok tt, st, [])
  | more =>
      match fuel with
      | 0 => (Diverge, st, [])
      | S fuel' =>
          bind (pass step name i more)
               (fun _ => rounds step name fuel' (i + length more)) st
      end
  end.
Proof.
  destruct fuel; cbn [rounds]; rewrite bind_run; cbn;
    destruct (skipn i (plugins st)); try reflexivity.
  rewrite <- run_eta. reflexivity.
Qed.

Lemma loop_run step name fuel st :
  loop step name fuel st =
  bind (pass step name 0 (plugins st))
       (fun _ => rounds step name fuel (length (plugins st))) st.
Proof. unfold loop. rewrite bind_run. cbn. rewrite <- run_eta. reflexivity. Qed.

Lemma skipn_nil_nth_error {A} (l : list A) i : skipn i l = [] -> nth_error l i = None.
Proof. intros H. apply nth_error_None, skipn_all_iff. assumption. Qed.

Section Loop.

Variable m : Mode.
Variable name : string.
Variable args : list Arg.

Let step := step_of m name args.

Lemma pass_lacks ps : forall i st,
  Forall (lacks name) ps -> pass step name i ps st = (Ok tt, st, []).
Proof.
  induction ps as [|p rest IH]; intros i st H; [reflexivity|].
  inversion H as [|? ? Hp Hrest]; subst. cbn [pass]. rewrite Hp. apply IH; assumption.
Qed.


Lemma pass_extends ps : forall i st,
  exists added, plugins (final (pass step name i ps st)) = plugins st ++ added.
Proof.
  induction ps as [|p rest IH]; intros i st.
  - exists []. cbn. rewrite app_nil_r. reflexivity.
  - cbn [pass]. destruct (p name) as [h|]; [|apply IH].
    rewrite bind_run.
    destruct (one_call_extends _ _ _ _ _ _ _ _ _ (step_spec m name args i h st))
      as [a1 Ha1].
    fold step in Ha1.
    destruct (step i h st) as [[[u|e|] s1] ev1]; cbn [final fst snd] in *;
      try (exists a1; assumption).
    destruct (IH (S i) s1) as [a2 Ha2].
    exists (a1 ++ a2). rewrite Ha2, Ha1, app_assoc. reflexivity.
Qed.


Lemma pass_in_order ps : forall i st pre tail,
  plugins st = pre ++ ps ++ tail -> length pre = i ->
  match result (pass step name i ps st) with
  | Ok _ =>
      forall r s' evs,
        in_order m name args (i + length ps) (final (pass step name i ps st)) r s' evs ->
        in_order m name args i st r s' (events (pass step name i ps st) ++ evs)
  | Throw e =>
      in_order m name args i st (Throw e)
        (final (pass step name i ps st)) (events (pass step name i ps st))
  | Diverge => False
  end.
Proof.
  induction ps as [|p rest IH]; intros i st pre tail Hps Hi.
  - cbn. intros r s' evs H. rewrite Nat.add_0_r in H. exact H.
  - assert (Hnth : nth_error (plugins st) i = Some p).
    { rewrite Hps, nth_error_app2 by lia. subst i. rewrite Nat.sub_diag. reflexivity. }
    cbn [pass]. destruct (p name) as [h|] eqn:Hp.
    + rewrite bind_run.
      pose proof (step_spec m name args i h st) as Hs. fold step in Hs.
      destruct (one_call_extends _ _ _ _ _ _ _ _ _ Hs) as [a1 Ha1].
      destruct (step i h st) as [[[[]|e|] s1] ev1]; cbn [result final events fst snd] in *.
      * assert (Hps1 : plugins s1 = (pre ++ [p]) ++ rest ++ (tail ++ a1)).
        { rewrite Ha1, Hps, <- !app_assoc. reflexivity. }
        assert (Hi1 : length (pre ++ [p]) = S i).
        { rewrite length_app. cbn. lia. }
        specialize (IH (S i) s1 _ _ Hps1 Hi1).
        destruct (result (pass step name (S i) rest s1)) as [u'|e|].
        -- intros r s' evs H. rewrite <- app_assoc.
           eapply order_call; [exact Hnth | exact Hp | exact Hs |].
           apply IH. cbn [length] in H. rewrite Nat.add_succ_r in H. exact H.
        -- eapply order_call; [exact Hnth | exact Hp | exact Hs | exact IH].
        -- exact IH.
      * eapply order_abort; [exact Hnth | exact Hp | exact Hs].
      * apply (one_call_ends _ _ _ _ _ _ _ _ _ Hs). reflexivity.
    + assert (Hps1 : plugins st = (pre ++ [p]) ++ rest ++ tail).
      { rewrite Hps, <- !app_assoc. reflexivity. }
      assert (Hi1 : length (pre ++ [p]) = S i).
      { rewrite length_app. cbn. lia. }
      specialize (IH (S i) st _ _ Hps1 Hi1).
      destruct (result (pass step name (S i) rest st)) as [u'|e|].
      * intros r s' evs H.
        eapply order_skip; [exact Hnth | exact Hp |].
        apply IH. cbn [length] in H. rewrite Nat.add_succ_r in H. exact H.
      * eapply order_skip; [exact Hnth | exact Hp | exact IH].
      * exact IH.
Qed.

Lemma rounds_in_order fuel : forall i st,
  result (rounds step name fuel i st) <> Diverge ->
  in_order m name args i st
    (result (rounds step name fuel i st))
    (final (rounds step name fuel i st))
    (events (rounds step name fuel i st)).
Proof.
  induction fuel as [|fuel IH]; intros i st; rewrite rounds_run;
    destruct (skipn i (plugins st)) as [|p more] eqn:Hmore.
  - intros _. apply order_done, skipn_nil_nth_error; assumption.
  - intros H; contradiction H; reflexivity.
  - intros _. apply order_done, skipn_nil_nth_error; assumption.
  - rewrite bind_run.
    assert (Hlen : i <= length (plugins st)).
    { destruct (Nat.le_gt_cases i (length (plugins st))) as [|Hgt]; [assumption|].
      rewrite skipn_all2 in Hmore by lia. discriminate. }
    pose proof (pass_in_order (p :: more) i st (firstn i (plugins st)) []) as Hpass.
    rewrite app_nil_r, <- Hmore, firstn_skipn in Hpass.
    specialize (Hpass eq_refl (firstn_length_le _ Hlen)).
    rewrite Hmore in Hpass.
    destruct (pass step name i (p :: more) st) as [[[u|e|] s1] ev1];
      cbn [result final events fst snd] in *.
    + intros Hnd. apply Hpass. apply IH. exact Hnd.
    + intros _. exact Hpass.
    + contradiction.
Qed.

End Loop.

Lemma invocation_in_order m fuel name args st :
  result (invocation m fuel name args st) <> Diverge ->
  in_order m name args 0 st
    (result (invocation m fuel name args st))
    (final (invocation m fuel name args st))
    (events (invocation m fuel name args st)).
Proof.
  rewrite invocation_loop, loop_run, bind_run.
  pose proof (pass_in_order m name args (plugins st) 0 st [] []) as Hpass.
  rewrite app_nil_r in Hpass. specialize (Hpass eq_refl eq_refl).
  destruct (pass (step_of m name args) name 0 (plugins st) st) as [[[u|e|] s1] ev1];
    cbn [result final events fst snd] in *.
  - intros Hnd. apply Hpass. apply rounds_in_order. exact Hnd.
  - intros _. exact Hpass.
  - contradiction.
Qed.


Lemma invokeAsync_in_order fuel name args st :
  result (invokeAsync fuel name args st) <> Diverge ->
  in_order Awaited name args 0 st
    (result (invokeAsync fuel name args st))
    (final (invokeAsync fuel name args st))
    (events (invokeAsync fuel name args st)).
Proof. apply (invocation_in_order Awaited). Qed.

(** A hook that no plugin has: nothing is called. *)
Lemma invocation_absent m fuel name args st :
  Forall (lacks name) (plugins st) ->
  invocation m fuel name args st = (Ok tt, st, []).
Proof.
  intros H. rewrite invocation_loop, loop_run, bind_run, pass_lacks by assumption.
  cbn [result final events fst snd app].
  rewrite rounds_run, skipn_all. reflexivity.
Qed.

Lemma invoke_absent fuel name args st :
  Forall (lacks name) (plugins st) -> invoke fuel name args st = (Ok tt, st, []).
Proof. apply (invocation_absent Dropped). Qed.

Lemma invokeAsync_absent fuel name args st :
  Forall (lacks name) (plugins st) -> invokeAsync fuel name args st = (Ok tt, st, []).
Proof. apply (invocation_absent Awaited). Qed.


(** ** Hooks that register nothing *)

Lemma one_call_registers_nothing m name i h args st r st' evs (p : Plugin) :
  registers_nothing name p -> p name = Some h ->
  one_call m name i h args st r st' evs -> plugins st' = plugins st.
Proof.
  intros Hq Hp H. specialize (Hq h args (reach st) Hp).
  inversion H as [e r1 added Heq Hr Hst Hev
                 |r1 added Heq Hr Hst Hev
                 |r1 added k Hm Heq Hr Hst Hev
                 |r1 added k r2 added2 Hm Heq Hk Hr Hst Hev
                 |r1 added k e r2 added2 Hm Heq Hk Hr Hst Hev];
    rewrite Heq in Hq; cbn beta iota in Hq; cbn [plugins reached];
    rewrite ?suspend_plugins; cbn [plugins reached].
  - subst added. apply app_nil_r.
  - subst added. apply app_nil_r.
  - destruct Hq as [Ha _]. subst added. apply app_nil_r.
  - destruct Hq as [Ha Hk'].
    specialize (Hk' (reach (final (suspend (reached r1 added st))))).
    cbn beta iota in Hk'. rewrite Hk in Hk'. subst added added2.
    rewrite !app_nil_r. reflexivity.
  - destruct Hq as [Ha Hk'].
    specialize (Hk' (reach (final (suspend (reached r1 added st))))).
    cbn beta iota in Hk'. rewrite Hk in Hk'. subst added added2.
    rewrite !app_nil_r. reflexivity.
Qed.

Lemma pass_registers_nothing m name args ps : forall i st,
  Forall (registers_nothing name) ps ->
  plugins (final (pass (step_of m name args) name i ps st)) = plugins st.
Proof.
  induction ps as [|p rest IH]; intros i st H; [reflexivity|].
  inversion H as [|? ? Hp Hrest]; subst.
  cbn [pass]. destruct (p name) as [h|] eqn:Hn; [|apply IH; assumption].
  rewrite bind_run.
  pose proof (one_call_registers_nothing _ _ _ _ _ _ _ _ _ p Hp Hn
                (step_spec m name args i h st)) as Hs.
  destruct (step_of m name args i h st) as [[[u|e|] s1] ev1];
    cbn [final fst snd] in *; try assumption.
  rewrite IH by assumption. assumption.
Qed.

(** When no hook [name] registers a plugin, the invocation is the one pass
    over the plugins and ends, whatever the rounds allowed. *)
Lemma invocation_registers_nothing m fuel name args st :
  Forall (registers_nothing name) (plugins st) ->
  invocation m fuel name args st
  = pass (step_of m name args) name 0 (plugins st) st.
Proof.
  intros H. rewrite invocation_loop, loop_run, bind_run.
  pose proof (pass_registers_nothing m name args (plugins st) 0 st H) as Hps.
  destruct (pass (step_of m name args) name 0 (plugins st) st) as [[[[]|e|] s1] ev1];
    cbn [final fst snd] in *; try reflexivity.
  rewrite rounds_run, Hps, skipn_all. cbn. rewrite app_nil_r. reflexivity.
Qed.


(** ** Invariants through hook invocations *)

Section HookInvariant.

Variable I : St -> Prop.
Variable E : Event -> Prop.
Variable names : string -> Prop.
Variable m : Mode.

Hypothesis Hhook : forall st p name h args,
  I st -> In p (plugins st) -> p name = Some h ->
  match h args (reach st) with
  | HThrow _ r added | HReturn r added | HPromise r added _ => I (reached r added st)
  end.
Hypothesis Hsettle : m = Awaited -> forall st p name h args r0 r added k,
  I st -> In p (plugins st) -> p name = Some h ->
  h args r0 = HPromise r added k ->
  match k (reach st) with
  | Resolved r2 added2 | Rejected _ r2 added2 => I (reached r2 added2 st)
  end.
Hypothesis Hsuspend : m = Awaited -> preserves I E suspend.
Hypothesis Hhook_ev : forall n j, names n -> E (EvHook n j).
Hypothesis Hawaited_ev : forall n j, m = Awaited -> names n -> E (EvAwaited n j).

Lemma inv_step name args i h p st :
  names name -> I st -> In p (plugins st) -> p name = Some h ->
  I (final (step_of m name args i h st))
  /\ Forall E (events (step_of m name args i h st)).
Proof.
  intros Hn HI Hin Hp.
  pose proof (step_spec m name args i h st) as Hs.
  pose proof (Hhook st p name h args HI Hin Hp) as Hh.
  inversion Hs as [e r added Heq Hr Hst Hev
                  |r added Heq Hr Hst Hev
                  |r added k Hm Heq Hr Hst Hev
                  |r added k r2 added2 Hm Heq Hk Hr Hst Hev
                  |r added k e r2 added2 Hm Heq Hk Hr Hst Hev];
    rewrite Heq in Hh.
  - split; [assumption | repeat constructor; auto].
  - split; [assumption|]. constructor; [auto|].
    destruct m; cbn; repeat constructor; auto.
  - split; [assumption | repeat constructor; auto].
  - destruct (Hsuspend Hm _ Hh) as [HI1 HE1].
    assert (Hin1 : In p (plugins (final (suspend (reached r added st))))).
    { rewrite suspend_plugins. cbn. apply in_or_app; left; assumption. }
    pose proof (Hsettle Hm _ p name h args _ r added k HI1 Hin1 Hp Heq) as Hk'.
    rewrite Hk in Hk'.
    split; [assumption|]. constructor; [auto|].
    apply Forall_app; split; [assumption | repeat constructor; auto].
  - destruct (Hsuspend Hm _ Hh) as [HI1 HE1].
    assert (Hin1 : In p (plugins (final (suspend (reached r added st))))).
    { rewrite suspend_plugins. cbn. apply in_or_app; left; assumption. }
    pose proof (Hsettle Hm _ p name h args _ r added k HI1 Hin1 Hp Heq) as Hk'.
    rewrite Hk in Hk'.
    split; [assumption|]. constructor; [auto | assumption].
Qed.

Lemma inv_pass name args ps : forall i st,
  names name -> I st -> incl ps (plugins st) ->
  I (final (pass (step_of m name args) name i ps st))
  /\ Forall E (events (pass (step_of m name args) name i ps st)).
Proof.
  induction ps as [|p rest IH]; intros i st Hn HI Hincl.
  - split; [assumption | constructor].
  - cbn [pass].
    assert (Hrest : incl rest (plugins st)) by (intros q Hq; apply Hincl; right; exact Hq).
    destruct (p name) as [h|] eqn:Hp; [|apply IH; assumption].
    rewrite bind_run.
    destruct (inv_step name args i h p st Hn HI (Hincl p (or_introl eq_refl)) Hp)
      as [HI1 HE1].
    destruct (one_call_extends _ _ _ _ _ _ _ _ _ (step_spec m name args i h st))
      as [a1 Ha1].
    destruct (step_of m name args i h st) as [[[u|e|] s1] ev1];
      cbn [result final events fst snd] in *; try (split; assumption).
    assert (Hrest1 : incl rest (plugins s1)).
    { intros q Hq. rewrite Ha1. apply in_or_app; left. apply Hrest; exact Hq. }
    destruct (IH (S i) s1 Hn HI1 Hrest1) as [HI2 HE2].
    split; [assumption | apply Forall_app; split; assumption].
Qed.

Lemma incl_skipn {A} (l : list A) i : incl (skipn i l) l.
Proof.
  intros x Hx. rewrite <- (firstn_skipn i l). apply in_or_app; right; exact Hx.
Qed.

Lemma inv_rounds name args fuel : forall i st,
  names name -> I st ->
  I (final (rounds (step_of m name args) name fuel i st))
  /\ Forall E (events (rounds (step_of m name args) name fuel i st)).
Proof.
  induction fuel as [|fuel IH]; intros i st Hn HI; rewrite rounds_run;
    destruct (skipn i (plugins st)) as [|p more] eqn:Hmore;
    try (split; [assumption | constructor]).
  rewrite bind_run.
  destruct (inv_pass name args (p :: more) i st Hn HI) as [HI1 HE1].
  { rewrite <- Hmore. apply incl_skipn. }
  destruct (pass _ _ _ _ st) as [[[u|e|] s1] ev1];
    cbn [result final events fst snd] in *; try (split; assumption).
  destruct (IH (i + length (p :: more)) s1 Hn HI1) as [HI2 HE2].
  split; [assumption | apply Forall_app; split; assumption].
Qed.

Lemma inv_invocation fuel name args :
  names name -> preserves I E (invocation m fuel name args).
Proof.
  intros Hn st HI. rewrite invocation_loop, loop_run, bind_run.
  destruct (inv_pass name args (plugins st) 0 st Hn HI (incl_refl _)) as [HI1 HE1].
  destruct (pass _ _ _ _ st) as [[[u|e|] s1] ev1];
    cbn [result final events fst snd] in *; try (split; assumption).
  destruct (inv_rounds name args fuel (length (plugins st)) s1 Hn HI1) as [HI2 HE2].
  split; [assumption | apply Forall_app; split; assumption].
Qed.

End HookInvariant.

Lemma inv_invoke I E (names : string -> Prop) :
  (forall st p name h args,
      I st -> In p (plugins st) -> p name = Some h ->
      match h args (reach st) with
      | HThrow _ r added | HReturn r added | HPromise r added _ => I (reached r added st)
      end) ->
  (forall n j, names n -> E (EvHook n j)) ->
  forall fuel name args, names name -> preserves I E (invoke fuel name args).
Proof.
  intros Hhook Hev fuel name args Hn.
  apply (inv_invocation I E names Dropped); try assumption; discriminate.
Qed.

Lemma inv_invokeAsync I E (names : string -> Prop) :
  (forall st p name h args,
      I st -> In p (plugins st) -> p name = Some h ->
      match h args (reach st) with
      | HThrow _ r added | HReturn r added | HPromise r added _ => I (reached r added st)
      end) ->
  (forall st p name h args r0 r added k,
      I st -> In p (plugins st) -> p name = Some h ->
      h args r0 = HPromise r added k ->
      match k (reach st) with
      | Resolved r2 added2 | Rejected _ r2 added2 => I (reached r2 added2 st)
      end) ->
  preserves I E suspend ->
  (forall n j, names n -> E (EvHook n j)) ->
  (forall n j, names n -> E (EvAwaited n j)) ->
  forall fuel name args, names name -> preserves I E (invokeAsync fuel name args).
Proof.
  intros Hhook Hsettle Hsuspend Hev Hev' fuel name args Hn.
  apply (inv_invocation I E names Awaited); auto.
Qed.

(** ** Run equations *)

Lemma bind_gets {A B} (f : St -> A) (k : A -> M B) st :
  bind (gets f) k st = k (f st) st.
Proof. rewrite bind_run. cbn. symmetry. apply run_eta. Qed.

Lemma bind_ret {A B} (a : A) (k : A -> M B) st : bind (ret a) k st = k a st.
Proof. rewrite bind_run. cbn. symmetry. apply run_eta. Qed.

Lemma bind_update {B} (f : St -> St) (k : unit -> M B) st :
  bind (update f) k st = k tt (f st).
Proof. rewrite bind_run. cbn. symmetry. apply run_eta. Qed.

Lemma bind_get_world {B} (k : World -> M B) st :
  bind get_world k st = k (world st) st.
Proof. apply bind_gets. Qed.

Lemma bind_set_world {B} w (k : unit -> M B) st :
  bind (set_world w) k st = k tt (with_world w st).
Proof. apply bind_update. Qed.

Lemma bind_modify {B} (f : World -> World) (k : unit -> M B) st :
  bind (modify f) k st = k tt (with_world (f (world st)) st).
Proof.
  unfold modify. rewrite bind_assoc, bind_get_world, bind_set_world. reflexivity.
Qed.

Lemma bind_emit {B} e (k : unit -> M B) st :
  bind (emit e) k st = (result (k tt st), final (k tt st), e :: events (k tt st)).
Proof. rewrite bind_run. reflexivity. Qed.

Lemma bind_throw {A B} e (k : A -> M B) st : bind (throw e) k st = (Throw e, st, []).
Proof. reflexivity. Qed.

Lemma modify_run f st : modify f st = (Ok tt, with_world (f (world st)) st, []).
Proof. reflexivity. Qed.

Lemma settle_run {A} (c : Completion A) st :
  settle c st =
  (match c with Normal a _ => Ok a | Abrupt e _ => Throw e end,
   with_world (world_of c) st, []).
Proof. destruct c; reflexivity. Qed.

Lemma call_renderer_run renderers ev m st :
  call_renderer renderers ev m st =
  (match m (renderers (renderer st)) (world st) with
   | Normal a _ => Ok a
   | Abrupt e _ => Throw e
   end,
   with_world (world_of (m (renderers (renderer st)) (world st))) (final (suspend st)),
   ev (renderer st) :: events (suspend st)).
Proof.
  unfold call_renderer. rewrite bind_gets, bind_emit, bind_get_world. cbn zeta.
  rewrite bind_run, (suspend_run st), settle_run.
  cbn [result final events fst snd]. rewrite app_nil_r. reflexivity.
Qed.

Lemma error_defaults_run w :
  set_status 500 (set_body (js_or_string (body (response w)) (js "Server error")) w)
  = error_defaults w.
Proof.
  unfold error_defaults, error_page, set_status, set_body, js_or_string.
  destruct (body (response w)); reflexivity.
Qed.

Section Runs.

Variable fuel : nat.
Variable options : IServerOptions.
Variable renderers : RendererId -> IRenderer.
Variable micromatch_some : string -> list string -> bool.
Variable NODE_ENV : option string.

Lemma is_spa_route_run st :
  is_spa_route options micromatch_some st
  = (Ok (spa_route options micromatch_some (url (context (world st)))), st,
     match_events options (url (context (world st)))).
Proof.
  unfold is_spa_route, spa_route, match_events.
  destruct (spaPaths options) as [[|g gs]|]; reflexivity.
Qed.

Lemma spa_branch_run st :
  spa_branch renderers st =
  match renderSPAPage (renderers (renderer st)) (world st) with
  | Normal b w =>
      (Ok FallThrough, with_world (set_body b w) (final (suspend st)),
       EvRenderSPAPage (renderer st) :: events (suspend st))
  | Abrupt e w =>
      (Throw e, with_world w (final (suspend st)),
       EvRenderSPAPage (renderer st) :: events (suspend st))
  end.
Proof.
  unfold spa_branch. rewrite bind_run, call_renderer_run.
  destruct (renderSPAPage (renderers (renderer st)) (world st)) as [b w|e w];
    cbn; rewrite ?app_nil_r; reflexivity.
Qed.

Lemma ssr_branch_run st :
  ssr_branch fuel renderers st =
  let r := renderer st in
  let s := suspend st in
  match render (renderers r) (world st) with
  | Abrupt e w => (Throw e, with_world w (final s), EvRender r :: events s)
  | Normal b w =>
      let s1 := with_world (set_body b w) (final s) in
      if redirected (context w) then (Ok Return, s1, EvRender r :: events s)
      else
        match invokeAsync fuel "beforeBuild" [ArgResponse; ArgContext; ArgServer] s1 with
        | (Ok _, s2, ev2) =>
            let b2 := body (response (world s2)) in
            let s3 := suspend s2 in
            match renderSSRPage (renderers (renderer s2)) b2 (world s2) with
            | Normal b' w' =>
                (Ok FallThrough, with_world (set_body b' w') (final s3),
                 EvRender r :: events s ++ ev2
                   ++ EvRenderSSRPage (renderer s2) b2 :: events s3)
            | Abrupt e w' =>
                (Throw e, with_world w' (final s3),
                 EvRender r :: events s ++ ev2
                   ++ EvRenderSSRPage (renderer s2) b2 :: events s3)
            end
        | (Throw e, s2, ev2) => (Throw e, s2, EvRender r :: events s ++ ev2)
        | (Diverge, s2, ev2) => (Diverge, s2, EvRender r :: events s ++ ev2)
        end
  end.
Proof.
  unfold ssr_branch. rewrite bind_run, call_renderer_run. cbn zeta.
  destruct (render (renderers (renderer st)) (world st)) as [b w|e w];
    [|cbn; reflexivity].
  cbn [world_of]. rewrite bind_modify, bind_get_world.
  cbn [world with_world set_body context].
  destruct (redirected (context w)).
  - cbn. rewrite app_nil_r. reflexivity.
  - rewrite bind_run.
    destruct (invokeAsync fuel "beforeBuild" _ _) as [[[u|e|] s2] ev2];
      cbn [result final events fst snd app]; try reflexivity.
    rewrite bind_get_world, bind_run, call_renderer_run.
    destruct (renderSSRPage (renderers (renderer s2)) _ (world s2)) as [b' w'|e w'];
      cbn; rewrite ?app_nil_r; reflexivity.
Qed.

Lemma rendered_and_send_run flow st :
  rendered_and_send fuel flow st =
  match flow with
  | Return => (Ok Return, st, [])
  | FallThrough =>
      match invokeAsync fuel "rendered" [ArgResponse; ArgContext; ArgServer] st with
      | (Ok _, s1, ev1) =>
          (as_flow (result (send_run s1)), final (send_run s1),
           ev1 ++ events (send_run s1))
      | (Throw e, s1, ev1) => (Throw e, s1, ev1)
      | (Diverge, s1, ev1) => (Diverge, s1, ev1)
      end
  end.
Proof.
  destruct flow; [|reflexivity].
  cbn [rendered_and_send]. rewrite bind_run.
  destruct (invokeAsync fuel "rendered" _ st) as [[[u|e|] s1] ev1]; try reflexivity.
  rewrite bind_run, sendResponse_run.
  destruct (send_run s1) as [[[[]|e|] s2] ev2]; cbn; rewrite ?app_nil_r; reflexivity.
Qed.

Lemma classify_and_render_run st :
  (spa <- is_spa_route options micromatch_some ;;
   flow <- (if spa then spa_branch renderers else ssr_branch fuel renderers) ;;
   rendered_and_send fuel flow) st
  = match (if spa_route options micromatch_some (url (context (world st)))
           then spa_branch renderers else ssr_branch fuel renderers) st with
    | (Ok flow, s2, ev2) =>
        (result (rendered_and_send fuel flow s2), final (rendered_and_send fuel flow s2),
         match_events options (url (context (world st)))
           ++ ev2 ++ events (rendered_and_send fuel flow s2))
    | (Throw e, s2, ev2) =>
        (Throw e, s2, match_events options (url (context (world st))) ++ ev2)
    | (Diverge, s2, ev2) =>
        (Diverge, s2, match_events options (url (context (world st))) ++ ev2)
    end.
Proof.
  rewrite bind_run, is_spa_route_run. rewrite bind_run.
  destruct ((if spa_route options micromatch_some (url (context (world st)))
             then spa_branch renderers else ssr_branch fuel renderers) st)
    as [[[flow|e|] s2] ev2]; reflexivity.
Qed.

Lemma try_block_run st :
  try_block fuel options renderers micromatch_some st =
  match invokeAsync fuel "beforeRender" [ArgContext; ArgServer] st with
  | (Ok _, st1, ev1) =>
      if finished (res (world st1))
      then (Ok FallThrough, st1, ev1)
      else
        let x := (spa <- is_spa_route options micromatch_some ;;
                  flow <- (if spa then spa_branch renderers
                           else ssr_branch fuel renderers) ;;
                  rendered_and_send fuel flow) st1 in
        (result x, final x, ev1 ++ events x)
  | (Throw e, st1, ev1) => (Throw e, st1, ev1)
  | (Diverge, st1, ev1) => (Diverge, st1, ev1)
  end.
Proof.
  unfold try_block. rewrite bind_run.
  destruct (invokeAsync fuel "beforeRender" _ st) as [[[u|e|] st1] ev1];
    try reflexivity.
  rewrite bind_get_world.
  destruct (finished (res (world st1))); cbn [negb].
  - cbn. rewrite app_nil_r. reflexivity.
  - reflexivity.
Qed.

Lemma catch_block_run err st :
  catch_block fuel NODE_ENV err st =
  match invokeAsync fuel "routeError"
          [ArgErr err; ArgResponse; ArgContext; ArgServer] st with
  | (Ok _, st1, ev1) =>
      if finished (res (world st1))
      then (Ok FallThrough, st1, logged NODE_ENV err ++ ev1)
      else
        let y := send_run (with_world (error_defaults (world st1)) st1) in
        (as_flow (result y), final y, logged NODE_ENV err ++ ev1 ++ events y)
  | (Throw e, st1, ev1) => (Throw e, st1, logged NODE_ENV err ++ ev1)
  | (Diverge, st1, ev1) => (Diverge, st1, logged NODE_ENV err ++ ev1)
  end.
Proof.
  assert (Hlog : forall (k : unit -> M Flow),
             bind (if in_test_mode NODE_ENV then ret tt else emit (EvLog err)) k st
             = (result (k tt st), final (k tt st), logged NODE_ENV err ++ events (k tt st))).
  { intros k. unfold logged. destruct (in_test_mode NODE_ENV).
    - rewrite bind_ret. apply run_eta.
    - rewrite bind_emit. reflexivity. }
  unfold catch_block. rewrite Hlog. rewrite bind_run.
  destruct (invokeAsync fuel "routeError" _ st) as [[[u|e|] st1] ev1];
    try reflexivity.
  cbn [result final events fst snd]. rewrite bind_get_world, bind_run.
  destruct (finished (res (world st1))); cbn [negb].
  - cbn. rewrite !app_nil_r. reflexivity.
  - rewrite bind_modify, bind_modify.
    cbn [world with_world]. rewrite error_defaults_run.
    replace (with_world (error_defaults (world st1))
               (with_world (set_body (js_or_string (body (response (world st1)))
                                        (js "Server error")) (world st1)) st1))
      with (with_world (error_defaults (world st1)) st1) by reflexivity.
    rewrite sendResponse_run. cbn zeta.
    destruct (send_run _) as [[[[]|e|] s2] ev2]; cbn; rewrite ?app_nil_r; reflexivity.
Qed.

Lemma renderMiddleware_run rq st :
  renderMiddleware fuel options renderers micromatch_some NODE_ENV rq st =
  match try_catch (try_block fuel options renderers micromatch_some)
          (catch_block fuel NODE_ENV) (entering rq st) with
  | (Ok FallThrough, st1, ev1) =>
      match invoke fuel "afterResponse" [ArgContext; ArgServer] st1 with
      | (Ok _, st2, ev2) =>
          (Ok (Some (context (world st2), response (world st2))), st2, ev1 ++ ev2)
      | (Throw e, st2, ev2) => (Throw e, st2, ev1 ++ ev2)
      | (Diverge, st2, ev2) => (Diverge, st2, ev1 ++ ev2)
      end
  | (Ok Return, st1, ev1) => (Ok None, st1, ev1)
  | (Throw e, st1, ev1) => (Throw e, st1, ev1)
  | (Diverge, st1, ev1) => (Diverge, st1, ev1)
  end.
Proof.
  unfold renderMiddleware. rewrite bind_modify. fold (entering rq st).
  rewrite bind_run.
  destruct (try_catch _ _ (entering rq st)) as [[[[|]|e|] st1] ev1];
    try reflexivity.
  - rewrite bind_run.
    destruct (invoke fuel "afterResponse" _ st1) as [[[u|e|] st2] ev2];
      try reflexivity.
    cbn. rewrite app_nil_r. reflexivity.
  - cbn. rewrite app_nil_r. reflexivity.
Qed.

End Runs.

(** ** Invariants through the pipeline *)

Section Pipeline.

Variable I : St -> Prop.
Variable E : Event -> Prop.

Hypothesis HI : storeless I.
Hypothesis Hhook : forall st p name h args,
  I st -> In p (plugins st) -> p name = Some h ->
  match h args (reach st) with
  | HThrow _ r added | HReturn r added | HPromise r added _ => I (reached r added st)
  end.
Hypothesis Hsettle : forall st p name h args r0 r added k,
  I st -> In p (plugins st) -> p name = Some h ->
  h args r0 = HPromise r added k ->
  match k (reach st) with
  | Resolved r2 added2 | Rejected _ r2 added2 => I (reached r2 added2 st)
  end.
Hypothesis Hsuspend : preserves I E suspend.
Hypothesis Hhook_ev : forall n j, E (EvHook n j).
Hypothesis Hawaited_ev : forall n j, E (EvAwaited n j).

Variable fuel : nat.

Lemma preserves_invoke name args : preserves I E (invoke fuel name args).
Proof.
  apply (inv_invoke I E (fun _ => True)); auto.
Qed.

Lemma preserves_invokeAsync name args : preserves I E (invokeAsync fuel name args).
Proof.
  apply (inv_invokeAsync I E (fun _ => True)); auto.
Qed.

Variable renderers : RendererId -> IRenderer.
Hypothesis Hspa_ev : forall st, I st -> E (EvRenderSPAPage (renderer st)).
Hypothesis Hrender_ev : forall st, I st -> E (EvRender (renderer st)).
Hypothesis Hpage_ev : forall st b, I st -> E (EvRenderSSRPage (renderer st) b).

Lemma preserves_call_renderer ev m :
  (forall st, I st -> E (ev (renderer st))) ->
  preserves I E (call_renderer renderers ev m).
Proof.
  intros Hev st Hst. rewrite call_renderer_run. cbn [final events fst snd].
  destruct (Hsuspend st Hst) as [H1 H2].
  split; [apply HI; assumption | constructor; [apply Hev; assumption | assumption]].
Qed.

Lemma preserves_spa_branch : preserves I E (spa_branch renderers).
Proof.
  unfold spa_branch.
  apply preserves_bind; [apply preserves_call_renderer; assumption | intros b].
  apply preserves_bind; [apply preserves_modify; assumption | intros _].
  apply preserves_ret.
Qed.

Lemma preserves_ssr_branch : preserves I E (ssr_branch fuel renderers).
Proof.
  unfold ssr_branch.
  apply preserves_bind; [apply preserves_call_renderer; assumption | intros b].
  apply preserves_bind; [apply preserves_modify; assumption | intros _].
  apply preserves_bind; [apply preserves_gets | intros w1].
  destruct (redirected (context w1)); [apply preserves_ret|].
  apply preserves_bind; [apply preserves_invokeAsync | intros _].
  apply preserves_bind; [apply preserves_gets | intros w2].
  apply preserves_bind;
    [apply preserves_call_renderer; intros; apply Hpage_ev; assumption | intros b'].
  apply preserves_bind; [apply preserves_modify; assumption | intros _].
  apply preserves_ret.
Qed.

Variable options : IServerOptions.
Variable micromatch_some : string -> list string -> bool.
Variable NODE_ENV : option string.
Hypothesis Hmatch_ev : forall u g, E (EvMatch u g).
Hypothesis Hlog_ev : forall e, E (EvLog e).
Hypothesis Hend_ev : forall b, E (EvEnd b).

Lemma preserves_is_spa_route : preserves I E (is_spa_route options micromatch_some).
Proof.
  intros st Hst. rewrite is_spa_route_run. split; [assumption|].
  unfold match_events. destruct (spaPaths options) as [[|g gs]|]; repeat constructor.
  apply Hmatch_ev.
Qed.

Lemma preserves_rendered_and_send flow :
  preserves I E (rendered_and_send fuel flow).
Proof.
  destruct flow; cbn [rendered_and_send]; [|apply preserves_ret].
  apply preserves_bind; [apply preserves_invokeAsync | intros _].
  apply preserves_bind; [apply preserves_sendResponse; assumption | intros _].
  apply preserves_ret.
Qed.

Lemma preserves_try_block :
  preserves I E (try_block fuel options renderers micromatch_some).
Proof.
  unfold try_block.
  apply preserves_bind; [apply preserves_invokeAsync | intros _].
  apply preserves_bind; [apply preserves_gets | intros w].
  destruct (negb (finished (res w))); [|apply preserves_ret].
  apply preserves_bind; [apply preserves_is_spa_route | intros spa].
  apply preserves_bind;
    [destruct spa; [apply preserves_spa_branch | apply preserves_ssr_branch] | intros flow].
  apply preserves_rendered_and_send.
Qed.

Lemma preserves_catch_block err : preserves I E (catch_block fuel NODE_ENV err).
Proof.
  unfold catch_block.
  apply preserves_bind;
    [destruct (in_test_mode NODE_ENV);
     [apply preserves_ret | apply preserves_emit, Hlog_ev] | intros _].
  apply preserves_bind; [apply preserves_invokeAsync | intros _].
  apply preserves_bind; [apply preserves_gets | intros w].
  apply preserves_bind; [|intros _; apply preserves_ret].
  destruct (negb (finished (res w))); [|apply preserves_ret].
  apply preserves_bind; [apply preserves_modify; assumption | intros _].
  apply preserves_bind; [apply preserves_modify; assumption | intros _].
  apply preserves_sendResponse; assumption.
Qed.

Lemma preserves_renderMiddleware rq :
  preserves I E (renderMiddleware fuel options renderers micromatch_some NODE_ENV rq).
Proof.
  unfold renderMiddleware.
  apply preserves_bind; [apply preserves_modify; assumption | intros _].
  apply preserves_bind;
    [apply preserves_try_catch;
     [apply preserves_try_block | intros; apply preserves_catch_block] | intros flow].
  destruct flow; [|apply preserves_ret].
  apply preserves_bind; [apply preserves_invoke | intros _].
  apply preserves_bind; [apply preserves_gets | intros w].
  apply preserves_ret.
Qed.

End Pipeline.

(** ** Classes of events *)

Lemma storeless_anywhere : storeless anywhere.
Proof. intros st w _; exact Logic.I. Qed.

Lemma anywhere_hook : forall st (p : Plugin) (name : string) h args,
  anywhere st -> In p (plugins st) -> p name = Some h ->
  match h args (reach st) with
  | HThrow _ r added | HReturn r added | HPromise r added _ => anywhere (reached r added st)
  end.
Proof. intros. destruct (h args (reach st)); exact Logic.I. Qed.

Lemma anywhere_settle : forall st (p : Plugin) (name : string) (h : Hook) (args : list Arg)
    r0 r added k,
  anywhere st -> In p (plugins st) -> p name = Some h ->
  h args r0 = HPromise r added k ->
  match k (reach st) with
  | Resolved r2 added2 | Rejected _ r2 added2 => anywhere (reached r2 added2 st)
  end.
Proof. intros. destruct (k (reach st)); exact Logic.I. Qed.

Lemma suspend_class (E : Event -> Prop) :
  (forall r, E (EvRebuild r)) -> preserves anywhere E suspend.
Proof.
  intros HE st _; split; [exact Logic.I|].
  unfold suspend; destruct (rebuilds st) as [|[r|] q]; repeat constructor; apply HE.
Qed.

Lemma count_app p a b : count p (a ++ b) = count p a + count p b.
Proof. unfold count; rewrite filter_app, length_app; reflexivity. Qed.

Lemma count_none p evs : Forall (fun e => p e = false) evs -> count p evs = 0.
Proof.
  induction 1 as [|e evs He _ IH]; [reflexivity|].
  unfold count in *; cbn. rewrite He. assumption.
Qed.

Lemma filter_none p evs : Forall (never p) evs -> filter p evs = [].
Proof.
  induction 1 as [|e evs He _ IH]; [reflexivity|].
  cbn. unfold never in He. rewrite He. assumption.
Qed.

Lemma sends_app a b : sends (a ++ b) = sends a + sends b.
Proof. apply count_app. Qed.

Lemma no_end_sends evs : Forall no_end evs -> sends evs = 0.
Proof. apply count_none. Qed.

(** The events of an invocation of [name]: calls of that hook, their
    awaits, and rebuilds. *)
Lemma invocation_only_hooks m fuel ns name args st :
  In name ns -> Forall (only_hooks ns) (events (invocation m fuel name args st)).
Proof.
  intros Hin.
  apply (inv_invocation anywhere (only_hooks ns) (fun n => In n ns) m);
    try (intros; auto; fail).
  - apply anywhere_hook.
  - intros _. apply anywhere_settle.
  - intros _. apply suspend_class; intros; exact Logic.I.
  - exact Logic.I.
Qed.

Lemma invokeAsync_only_hooks fuel ns name args st :
  In name ns -> Forall (only_hooks ns) (events (invokeAsync fuel name args st)).
Proof. apply (invocation_only_hooks Awaited). Qed.

Lemma invoke_only_hooks fuel ns name args st :
  In name ns -> Forall (only_hooks ns) (events (invoke fuel name args st)).
Proof. apply (invocation_only_hooks Dropped). Qed.

Lemma only_hooks_no_end ns evs : Forall (only_hooks ns) evs -> Forall no_end evs.
Proof.
  intros H; eapply Forall_impl; [|exact H].
  intros [] He; cbn in He; try contradiction; reflexivity.
Qed.

Lemma only_hooks_no_log ns evs : Forall (only_hooks ns) evs -> Forall no_log evs.
Proof.
  intros H; eapply Forall_impl; [|exact H].
  intros [] He; cbn in He; try contradiction; reflexivity.
Qed.

(** Side conditions of the preservation lemmas, for an event class and the
    trivial invariant. *)
Ltac event_class :=
  first
    [ exact storeless_anywhere
    | exact anywhere_hook
    | exact anywhere_settle
    | apply suspend_class; intros; first [reflexivity | exact Logic.I]
    | intros; reflexivity
    | intros; exact Logic.I ].

(** ** Terminal writes *)

Lemma silent_events {A} (m : M A) st : silent m -> Forall no_end (events (m st)).
Proof. intros H; apply (H st Logic.I). Qed.

Lemma silent_invokeAsync fuel name args : silent (invokeAsync fuel name args).
Proof. apply preserves_invokeAsync; event_class. Qed.

Lemma silent_invoke fuel name args : silent (invoke fuel name args).
Proof. apply preserves_invoke; event_class. Qed.

Lemma silent_modify f : silent (modify f).
Proof. apply preserves_modify, storeless_anywhere. Qed.

Lemma silent_get_world : silent get_world.
Proof. apply preserves_gets. Qed.

Lemma after_send_quiet evs : Forall no_end evs -> after_send evs = [].
Proof.
  induction 1 as [|e evs He _ IH]; [reflexivity|].
  destruct e; cbn in *; try exact IH. discriminate.
Qed.

Lemma after_send_app pre b post :
  Forall no_end pre -> after_send (pre ++ EvEnd b :: post) = post.
Proof.
  induction 1 as [|e pre He _ IH]; [reflexivity|].
  destruct e; cbn in *; try exact IH. discriminate.
Qed.

Lemma ends_with_send_sends evs : ends_with_send evs -> sends evs <= 1.
Proof.
  intros [Hq|(pre & b & Heq & Hpre)].
  - rewrite (no_end_sends _ Hq). lia.
  - rewrite Heq, sends_app, (no_end_sends _ Hpre). cbn. lia.
Qed.

Lemma send_last_of_silent {A} (m : M A) : silent m -> send_last m.
Proof.
  intros H st. pose proof (silent_events m st H) as Hq.
  destruct (result (m st)); [left| |]; exact Hq.
Qed.

Lemma send_last_bind {A B} (m : M A) (f : A -> M B) :
  silent m -> (forall a, send_last (f a)) -> send_last (bind m f).
Proof.
  intros Hm Hf st. pose proof (silent_events m st Hm) as H0.
  rewrite bind_run.
  destruct (m st) as [[[a|e|] st1] ev1]; cbn [result events final fst snd] in *;
    try exact H0.
  specialize (Hf a st1).
  destruct (result (f a st1)).
  - destruct Hf as [Hq|(pre & b & Heq & Hpre)].
    + left. apply Forall_app; split; assumption.
    + right. exists (ev1 ++ pre), b. rewrite Heq, app_assoc.
      split; [reflexivity | apply Forall_app; split; assumption].
  - apply Forall_app; split; assumption.
  - apply Forall_app; split; assumption.
Qed.

Lemma send_last_then_ret {A B} (m : M A) (b : B) :
  send_last m -> send_last (m ;; ret b).
Proof.
  intros Hm st; specialize (Hm st). rewrite bind_run.
  destruct (m st) as [[[a|e|] st1] ev1]; cbn [result events final fst snd ret] in *;
    try exact Hm.
  rewrite app_nil_r; exact Hm.
Qed.

Lemma send_last_sendResponse : send_last sendResponse.
Proof.
  intros st. rewrite sendResponse_run. unfold send_run. cbn zeta.
  destruct (phase (res (world st))); try (constructor; fail).
  destruct (can_send (world st)); cbn [result events fst snd]; [|constructor].
  right. exists [], (body (response (world st))). split; [reflexivity | constructor].
Qed.

Lemma send_last_try_catch {A} (m : M A) (h : Err -> M A) :
  send_last m -> (forall e, send_last (h e)) -> send_last (try_catch m h).
Proof.
  intros Hm Hh st; specialize (Hm st). rewrite try_catch_run.
  destruct (m st) as [[[a|e|] st1] ev1]; cbn [result events final fst snd] in *;
    try exact Hm.
  specialize (Hh e st1).
  destruct (result (h e st1)).
  - destruct Hh as [Hq|(pre & b & Heq & Hpre)].
    + left. apply Forall_app; split; assumption.
    + right. exists (ev1 ++ pre), b. rewrite Heq, app_assoc.
      split; [reflexivity | apply Forall_app; split; assumption].
  - apply Forall_app; split; assumption.
  - apply Forall_app; split; assumption.
Qed.

Section Sends.

Variable fuel : nat.
Variable options : IServerOptions.
Variable renderers : RendererId -> IRenderer.
Variable micromatch_some : string -> list string -> bool.
Variable NODE_ENV : option string.

Lemma silent_branch (spa : bool) :
  silent (if spa then spa_branch renderers else ssr_branch fuel renderers).
Proof.
  destruct spa;
    [apply preserves_spa_branch | apply preserves_ssr_branch]; event_class.
Qed.

Lemma silent_is_spa_route : silent (is_spa_route options micromatch_some).
Proof. apply preserves_is_spa_route; event_class. Qed.

Lemma silent_log err :
  silent (if in_test_mode NODE_ENV then ret tt else emit (EvLog err)).
Proof.
  destruct (in_test_mode NODE_ENV);
    [apply preserves_ret | apply preserves_emit; reflexivity].
Qed.

Lemma send_last_try_block :
  send_last (try_block fuel options renderers micromatch_some).
Proof.
  unfold try_block.
  apply send_last_bind; [apply silent_invokeAsync | intros _].
  apply send_last_bind; [apply silent_get_world | intros w].
  destruct (negb (finished (res w))); [|apply send_last_of_silent, preserves_ret].
  apply send_last_bind; [apply silent_is_spa_route | intros spa].
  apply send_last_bind; [apply silent_branch | intros flow].
  destruct flow; cbn [rendered_and_send].
  - apply send_last_bind; [apply silent_invokeAsync | intros _].
    apply send_last_then_ret, send_last_sendResponse.
  - apply send_last_of_silent, preserves_ret.
Qed.

Lemma send_last_catch_block err : send_last (catch_block fuel NODE_ENV err).
Proof.
  unfold catch_block.
  apply send_last_bind; [apply silent_log | intros _].
  apply send_last_bind; [apply silent_invokeAsync | intros _].
  apply send_last_bind; [apply silent_get_world | intros w].
  apply send_last_then_ret.
  destruct (negb (finished (res w))); [|apply send_last_of_silent, preserves_ret].
  apply send_last_bind; [apply silent_modify | intros _].
  apply send_last_bind; [apply silent_modify | intros _].
  apply send_last_sendResponse.
Qed.

Lemma send_last_handled :
  send_last (try_catch (try_block fuel options renderers micromatch_some)
               (catch_block fuel NODE_ENV)).
Proof.
  apply send_last_try_catch; [apply send_last_try_block | apply send_last_catch_block].
Qed.

(** The events of the pipeline: those of the [try]/[catch] statement, in
    which a terminal write can only come last, then calls of
    [afterResponse] hooks. *)
Lemma pipeline_shape rq st :
  exists handled after,
    events (renderMiddleware fuel options renderers micromatch_some NODE_ENV rq st)
    = handled ++ after
    /\ ends_with_send handled
    /\ (after <> [] ->
        result (try_catch (try_block fuel options renderers micromatch_some)
                  (catch_block fuel NODE_ENV) (entering rq st)) = Ok FallThrough)
    /\ Forall afterResponse_call after.
Proof.
  rewrite renderMiddleware_run.
  pose proof (send_last_handled (entering rq st)) as Htc.
  assert (Hafter : forall s, Forall afterResponse_call
                     (events (invoke fuel "afterResponse" [ArgContext; ArgServer] s))).
  { intros s.
    apply (inv_invoke anywhere afterResponse_call (fun n => n = "afterResponse"));
      try (intros; auto; fail).
    - apply anywhere_hook.
    - exact Logic.I. }
  destruct (try_catch _ _ (entering rq st)) as [[[[|]|e|] st1] ev1];
    cbn [result events final fst snd] in *.
  - specialize (Hafter st1).
    destruct (invoke fuel "afterResponse" _ st1) as [[[u|e|] st2] ev2];
      cbn [events snd] in *; exists ev1, ev2; repeat split; auto.
  - exists ev1, []. rewrite app_nil_r. repeat split; auto.
    intros H; contradiction H; reflexivity.
  - exists ev1, []. rewrite app_nil_r. repeat split; auto.
    + left; assumption.
    + intros H; contradiction H; reflexivity.
  - exists ev1, []. rewrite app_nil_r. repeat split; auto.
    + left; assumption.
    + intros H; contradiction H; reflexivity.
Qed.

Lemma afterResponse_call_no_end evs :
  Forall afterResponse_call evs -> Forall no_end evs.
Proof.
  intros H; eapply Forall_impl; [|exact H].
  intros [] He; cbn in He; try contradiction; reflexivity.
Qed.

Lemma renderMiddleware_sends_at_most_once rq st :
  sends (events (renderMiddleware fuel options renderers micromatch_some NODE_ENV rq st))
  <= 1.
Proof.
  destruct (pipeline_shape rq st) as (handled & after & Heq & Hh & _ & Ha).
  rewrite Heq, sends_app, (no_end_sends after (afterResponse_call_no_end _ Ha)).
  pose proof (ends_with_send_sends _ Hh). lia.
Qed.

End Sends.

(** ** Hooks that abide by a relation *)

Lemma reach_reached r added st : reach (reached r added st) = r.
Proof. destruct r; reflexivity. Qed.

Section Framed.

Variable R : Reach -> Reach -> Prop.
Variable J : Reach -> Prop.
Hypothesis HRJ : forall r r', J r -> R r r' -> J r'.

Lemma framed_hook st p (name : string) h args :
  framed R J st -> In p (plugins st) -> p name = Some h ->
  match h args (reach st) with
  | HThrow _ r added | HReturn r added | HPromise r added _ =>
      framed R J (reached r added st)
  end.
Proof.
  intros [HJ Hps] Hin Hp.
  pose proof (proj1 (Forall_forall _ _) Hps p Hin) as Hab.
  inversion Hab as [q Ht Hr Hpr _ _]; subst q.
  destruct (h args (reach st)) as [e r added|r added|r added k] eqn:Heq.
  - destruct (Ht _ _ _ _ _ _ _ Hp Heq) as [H1 H2].
    split; [rewrite reach_reached; apply (HRJ _ _ HJ H1) | apply Forall_app; split; assumption].
  - destruct (Hr _ _ _ _ _ _ Hp Heq) as [H1 H2].
    split; [rewrite reach_reached; apply (HRJ _ _ HJ H1) | apply Forall_app; split; assumption].
  - destruct (Hpr _ _ _ _ _ _ _ Hp Heq) as [H1 H2].
    split; [rewrite reach_reached; apply (HRJ _ _ HJ H1) | apply Forall_app; split; assumption].
Qed.

Lemma framed_settle st p (name : string) (h : Hook) (args : list Arg) r0 r added k :
  framed R J st -> In p (plugins st) -> p name = Some h ->
  h args r0 = HPromise r added k ->
  match k (reach st) with
  | Resolved r2 added2 | Rejected _ r2 added2 => framed R J (reached r2 added2 st)
  end.
Proof.
  intros [HJ Hps] Hin Hp Heq.
  pose proof (proj1 (Forall_forall _ _) Hps p Hin) as Hab.
  inversion Hab as [q _ _ _ Hres Hrej]; subst q.
  destruct (k (reach st)) as [r2 added2|e r2 added2] eqn:Hk.
  - destruct (Hres _ _ _ _ _ _ _ _ _ _ Hp Heq Hk) as [H1 H2].
    split; [rewrite reach_reached; apply (HRJ _ _ HJ H1) | apply Forall_app; split; assumption].
  - destruct (Hrej _ _ _ _ _ _ _ _ _ _ _ Hp Heq Hk) as [H1 H2].
    split; [rewrite reach_reached; apply (HRJ _ _ HJ H1) | apply Forall_app; split; assumption].
Qed.

End Framed.

(** A plugin with one hook that registers nothing. *)
Lemma abides_plugin_with R name h :
  plain_hook R h -> abides R (Examples.plugin_with name h).
Proof.
  intros Hh.
  assert (Hsame : forall n h', Examples.plugin_with name h n = Some h' -> h' = h).
  { intros n h'. unfold Examples.plugin_with.
    destruct (String.eqb n name); [intros H; inversion H; reflexivity | discriminate]. }
  constructor.
  - intros n h' args r e r' added Hp Heq. apply Hsame in Hp; subst h'.
    specialize (Hh args r). rewrite Heq in Hh. destruct Hh as [H1 H2]; subst added.
    split; [assumption | constructor].
  - intros n h' args r r' added Hp Heq. apply Hsame in Hp; subst h'.
    specialize (Hh args r). rewrite Heq in Hh. destruct Hh as [H1 H2]; subst added.
    split; [assumption | constructor].
  - intros n h' args r r' added k Hp Heq. apply Hsame in Hp; subst h'.
    specialize (Hh args r). rewrite Heq in Hh. destruct Hh as (H1 & H2 & _); subst added.
    split; [assumption | constructor].
  - intros n h' args r r' added k r1 r2 added2 Hp Heq Hk. apply Hsame in Hp; subst h'.
    specialize (Hh args r). rewrite Heq in Hh. destruct Hh as (_ & _ & H3).
    specialize (H3 r1). rewrite Hk in H3. destruct H3 as [H1 H2]; subst added2.
    split; [assumption | constructor].
  - intros n h' args r r' added k r1 e r2 added2 Hp Heq Hk. apply Hsame in Hp; subst h'.
    specialize (Hh args r). rewrite Heq in Hh. destruct Hh as (_ & _ & H3).
    specialize (H3 r1). rewrite Hk in H3. destruct H3 as [H1 H2]; subst added2.
    split; [assumption | constructor].
Qed.

(** ** Plugins and renderers that leave the response unfinished *)

Lemma keeps_unfinished_closed r r' :
  finished (res (store r)) = false -> keeps_unfinished r r' ->
  finished (res (store r')) = false.
Proof. intros H1 H2; apply H2; exact H1. Qed.

Lemma all_open_hook st p (name : string) h args :
  all_open st -> In p (plugins st) -> p name = Some h ->
  match h args (reach st) with
  | HThrow _ r added | HReturn r added | HPromise r added _ =>
      all_open (reached r added st)
  end.
Proof.
  apply (framed_hook keeps_unfinished (fun r => finished (res (store r)) = false)
           keeps_unfinished_closed).
Qed.

Lemma all_open_settle st p (name : string) (h : Hook) (args : list Arg) r0 r added k :
  all_open st -> In p (plugins st) -> p name = Some h ->
  h args r0 = HPromise r added k ->
  match k (reach st) with
  | Resolved r2 added2 | Rejected _ r2 added2 => all_open (reached r2 added2 st)
  end.
Proof.
  apply (framed_settle keeps_unfinished (fun r => finished (res (store r)) = false)
           keeps_unfinished_closed).
Qed.

Lemma all_open_suspend : preserves all_open no_end suspend.
Proof.
  intros st [Hw Hp]; split.
  - split; [rewrite suspend_world; exact Hw | rewrite suspend_plugins; exact Hp].
  - unfold suspend; destruct (rebuilds st) as [|[r|] q]; repeat constructor.
Qed.

Lemma all_open_world st w :
  all_open st -> finished (res w) = false -> all_open (with_world w st).
Proof. intros [_ Hp] Hw; split; assumption. Qed.

Lemma open_invokeAsync fuel name args :
  preserves all_open no_end (invokeAsync fuel name args).
Proof.
  apply (inv_invokeAsync all_open no_end (fun _ => True)); auto.
  - exact all_open_hook.
  - exact all_open_settle.
  - exact all_open_suspend.
  - intros; reflexivity.
  - intros; reflexivity.
Qed.

Lemma send_run_open st :
  all_open st ->
  match result (send_run st) with
  | Ok _ => sends (events (send_run st)) = 1
  | _ => sends (events (send_run st)) = 0 /\ all_open (final (send_run st))
  end.
Proof.
  intros [Hw Hp]. unfold send_run. cbn zeta.
  destruct (phase (res (world st))) eqn:Hph.
  - destruct (can_send (world st)); cbn [result final events fst snd].
    + reflexivity.
    + split; [reflexivity|]. split; [|exact Hp].
      cbn. unfold finished. cbn. rewrite Hph. reflexivity.
  - cbn. split; [reflexivity | split; assumption].
  - cbn. split; [reflexivity | split; assumption].
Qed.

Section Open.

Variable fuel : nat.
Variable options : IServerOptions.
Variable renderers : RendererId -> IRenderer.
Variable micromatch_some : string -> list string -> bool.
Variable NODE_ENV : option string.
Hypothesis Hrenderers : forall r, renderer_leaves_open (renderers r).

Lemma open_call_renderer ev m :
  (forall r w, finished (res w) = false ->
               finished (res (world_of (m (renderers r) w))) = false) ->
  (forall r, no_end (ev r)) ->
  preserves all_open no_end (call_renderer renderers ev m).
Proof.
  intros Hm Hev st Hst. rewrite call_renderer_run. cbn [final events fst snd].
  destruct (all_open_suspend st Hst) as [H1 H2].
  split; [|constructor; [apply Hev | assumption]].
  apply all_open_world; [assumption|]. apply Hm. apply Hst.
Qed.

Lemma open_set_body b : preserves all_open no_end (modify (set_body b)).
Proof.
  intros st Hst. rewrite modify_run. split; [|constructor].
  apply all_open_world; [assumption | apply Hst].
Qed.

Lemma open_branch (spa : bool) :
  preserves all_open no_end
    (if spa then spa_branch renderers else ssr_branch fuel renderers).
Proof.
  destruct spa.
  - unfold spa_branch.
    apply preserves_bind; [|intros b].
    + apply open_call_renderer; [|intros; reflexivity].
      intros r w Hw. apply (Hrenderers r). exact Hw.
    + apply preserves_bind; [apply open_set_body | intros _; apply preserves_ret].
  - unfold ssr_branch.
    apply preserves_bind; [|intros b].
    + apply open_call_renderer; [|intros; reflexivity].
      intros r w Hw. apply (Hrenderers r). exact Hw.
    + apply preserves_bind; [apply open_set_body | intros _].
      apply preserves_bind; [apply preserves_gets | intros w1].
      destruct (redirected (context w1)); [apply preserves_ret|].
      apply preserves_bind; [apply open_invokeAsync | intros _].
      apply preserves_bind; [apply preserves_gets | intros w2].
      apply preserves_bind; [|intros b'].
      * apply open_call_renderer; [|intros; reflexivity].
        intros r w Hw. apply (Hrenderers r). exact Hw.
      * apply preserves_bind; [apply open_set_body | intros _; apply preserves_ret].
Qed.

(** One step of a run that starts with a part [m] leaving the response
    unfinished and sending nothing. *)
Lemma open_step {A B} (m : M A) (f : A -> M B)
    (Q : Res B -> St -> nat -> Prop) st :
  preserves all_open no_end m -> all_open st ->
  (forall e s, all_open s -> Q (Throw e) s 0) ->
  (forall s, all_open s -> Q Diverge s 0) ->
  (forall a s, all_open s ->
     Q (result (f a s)) (final (f a s)) (sends (events (f a s)))) ->
  Q (result (bind m f st)) (final (bind m f st)) (sends (events (bind m f st))).
Proof.
  intros Hm Hst Hthrow Hdiv Hnext. rewrite bind_run.
  destruct (Hm st Hst) as [H1 H2]. apply no_end_sends in H2.
  destruct (m st) as [[[a|e|] s] ev]; cbn [result final events fst snd] in *.
  - rewrite sends_app, H2. apply Hnext; assumption.
  - rewrite H2. apply Hthrow; assumption.
  - rewrite H2. apply Hdiv; assumption.
Qed.

Lemma rendered_and_send_open flow st :
  all_open st ->
  tried_open all_open
    (result (rendered_and_send fuel flow st))
    (final (rendered_and_send fuel flow st))
    (sends (events (rendered_and_send fuel flow st))).
Proof.
  intros Hst. rewrite rendered_and_send_run.
  destruct flow; [|reflexivity].
  destruct (open_invokeAsync fuel "rendered" [ArgResponse; ArgContext; ArgServer] st Hst)
    as [H1 H2].
  apply no_end_sends in H2.
  destruct (invokeAsync fuel "rendered" _ st) as [[[u|e|] s1] ev1];
    cbn [result final events fst snd] in *.
  - pose proof (send_run_open s1 H1) as Hs.
    rewrite sends_app, H2.
    destruct (result (send_run s1)); cbn [as_flow tried_open].
    + exact Hs.
    + exact Hs.
    + apply Hs.
  - split; assumption.
  - assumption.
Qed.

Lemma try_block_open st :
  all_open st ->
  tried_open all_open
    (result (try_block fuel options renderers micromatch_some st))
    (final (try_block fuel options renderers micromatch_some st))
    (sends (events (try_block fuel options renderers micromatch_some st))).
Proof.
  intros Hst. unfold try_block.
  apply open_step;
    [apply open_invokeAsync | assumption | intros; split; auto | intros; reflexivity |].
  intros _ s1 Hs1. rewrite bind_get_world.
  destruct Hs1 as [Hopen Hp]. rewrite Hopen. cbn [negb].
  assert (Hs1 : all_open s1) by (split; assumption).
  apply open_step;
    [apply preserves_is_spa_route; intros; reflexivity | assumption
    | intros; split; auto | intros; reflexivity |].
  intros spa s2 Hs2.
  apply open_step;
    [apply open_branch | assumption | intros; split; auto | intros; reflexivity |].
  intros flow s3 Hs3. apply rendered_and_send_open; assumption.
Qed.

Lemma catch_block_open err st :
  all_open st ->
  match result (catch_block fuel NODE_ENV err st) with
  | Ok FallThrough => sends (events (catch_block fuel NODE_ENV err st)) = 1
  | Ok Return => False
  | _ => sends (events (catch_block fuel NODE_ENV err st)) = 0
  end.
Proof.
  intros Hst. rewrite catch_block_run.
  destruct (open_invokeAsync fuel "routeError"
              [ArgErr err; ArgResponse; ArgContext; ArgServer] st Hst) as [H1 H2].
  apply no_end_sends in H2.
  assert (Hlog : sends (logged NODE_ENV err) = 0).
  { unfold logged; destruct (in_test_mode NODE_ENV); reflexivity. }
  destruct (invokeAsync fuel "routeError" _ st) as [[[u|e|] st1] ev1];
    cbn [result final events fst snd] in *.
  - destruct H1 as [Hopen Hp]. rewrite Hopen. cbn zeta.
    assert (Hd : all_open (with_world (error_defaults (world st1)) st1)).
    { split; [exact Hopen | exact Hp]. }
    pose proof (send_run_open _ Hd) as Hs.
    cbn [result final events fst snd].
    rewrite !sends_app, Hlog, H2.
    destruct (result (send_run _)); cbn [as_flow]; [exact Hs | apply Hs | apply Hs].
  - rewrite sends_app, Hlog, H2. reflexivity.
  - rewrite sends_app, Hlog, H2. reflexivity.
Qed.

Lemma renderMiddleware_open rq st :
  all_open st ->
  match result (renderMiddleware fuel options renderers micromatch_some NODE_ENV rq st) with
  | Ok (Some _) =>
      sends (events (renderMiddleware fuel options renderers micromatch_some
                       NODE_ENV rq st)) = 1
  | Ok None =>
      sends (events (renderMiddleware fuel options renderers micromatch_some
                       NODE_ENV rq st)) = 0
  | _ => True
  end.
Proof.
  intros Hst.
  assert (Hin : all_open (entering rq st)).
  { destruct Hst as [Hw Hp]; split; assumption. }
  rewrite renderMiddleware_run, try_catch_run.
  pose proof (try_block_open (entering rq st) Hin) as Htry.
  assert (Hafter : forall s, sends (events (invoke fuel "afterResponse"
                                              [ArgContext; ArgServer] s)) = 0).
  { intros s. apply no_end_sends, silent_events, silent_invoke. }
  destruct (try_block fuel options renderers micromatch_some (entering rq st))
    as [[[[|]|e|] st1] ev1]; cbn [result final events fst snd tried_open] in *.
  - specialize (Hafter st1).
    destruct (invoke fuel "afterResponse" _ st1) as [[[u|e|] st2] ev2];
      cbn [result final events fst snd] in *; try exact Logic.I.
    rewrite sends_app; lia.
  - exact Htry.
  - destruct Htry as [H0 Hopen].
    pose proof (catch_block_open e st1 Hopen) as Hc.
    destruct (catch_block fuel NODE_ENV e st1) as [[[[|]|e'|] st2] ev2];
      cbn [result final events fst snd] in *; try exact Logic.I.
    + specialize (Hafter st2).
      destruct (invoke fuel "afterResponse" _ st2) as [[[u|e''|] st3] ev3];
        cbn [result final events fst snd] in *; try exact Logic.I.
      rewrite !sends_app; lia.
    + contradiction.
  - exact Logic.I.
Qed.

End Open.

(** ** Route classification *)

Lemma class_of {A} (E : Event -> Prop) (m : M A) st :
  preserves anywhere E m -> Forall E (events (m st)).
Proof. intros H; apply (H st Logic.I). Qed.

Lemma outside_rendering_never p evs :
  (forall e, p e = true -> is_renderer_call e || is_match e = true) ->
  Forall outside_rendering evs -> Forall (never p) evs.
Proof.
  intros Hp H; eapply Forall_impl; [|exact H].
  intros e He; unfold outside_rendering, never in *.
  destruct (p e) eqn:Hpe; [|reflexivity].
  rewrite (Hp e Hpe) in He; discriminate.
Qed.

Lemma spa_call_is_rendering e : is_spa_call e = true -> is_renderer_call e || is_match e = true.
Proof. destruct e; cbn; intros; try discriminate; reflexivity. Qed.

Lemma ssr_call_is_rendering e : is_ssr_call e = true -> is_renderer_call e || is_match e = true.
Proof. destruct e; cbn; intros; try discriminate; reflexivity. Qed.

Lemma match_is_rendering e : is_match e = true -> is_renderer_call e || is_match e = true.
Proof. destruct e; cbn; intros; try discriminate; reflexivity. Qed.

Lemma only_hooks_outside ns evs :
  Forall (only_hooks ns) evs -> Forall outside_rendering evs.
Proof.
  intros H; eapply Forall_impl; [|exact H].
  intros [] He; cbn in He; try contradiction; reflexivity.
Qed.

Section Classification.

Variable fuel : nat.
Variable options : IServerOptions.
Variable renderers : RendererId -> IRenderer.
Variable micromatch_some : string -> list string -> bool.
Variable NODE_ENV : option string.

Lemma spa_branch_events st :
  (exists tl, events (spa_branch renderers st) = EvRenderSPAPage (renderer st) :: tl)
  /\ Forall (never is_ssr_call) (events (spa_branch renderers st)).
Proof.
  split.
  - rewrite spa_branch_run.
    destruct (renderSPAPage (renderers (renderer st)) (world st)); eexists; reflexivity.
  - apply class_of, preserves_spa_branch; event_class.
Qed.

Lemma ssr_branch_events st :
  (exists tl, events (ssr_branch fuel renderers st) = EvRender (renderer st) :: tl)
  /\ Forall (never is_spa_call) (events (ssr_branch fuel renderers st)).
Proof.
  split.
  - rewrite ssr_branch_run. cbn zeta.
    destruct (render (renderers (renderer st)) (world st)) as [b w|e w];
      [|eexists; reflexivity].
    destruct (redirected (context w)); [eexists; reflexivity|].
    destruct (invokeAsync fuel "beforeBuild" _ _) as [[[u|e|] s2] ev2];
      try (eexists; reflexivity).
    destruct (renderSSRPage _ _ _); eexists; reflexivity.
  - apply class_of, preserves_ssr_branch; event_class.
Qed.

Lemma branch_no_match (spa : bool) st :
  Forall (never is_match)
    (events ((if spa then spa_branch renderers else ssr_branch fuel renderers) st)).
Proof.
  destruct spa; apply class_of;
    [apply preserves_spa_branch | apply preserves_ssr_branch]; event_class.
Qed.

(** The events of the [try] block: those of the [beforeRender] hooks,
    then, when these returned with the response unfinished, the glob match,
    the chosen branch and what follows it. *)
Lemma try_block_events st :
  let hooks := invokeAsync fuel "beforeRender" [ArgContext; ArgServer] st in
  let u := url (context (world (final hooks))) in
  let branch := (if spa_route options micromatch_some u
                 then spa_branch renderers else ssr_branch fuel renderers) (final hooks) in
  exists tail,
    Forall outside_rendering tail /\
    events (try_block fuel options renderers micromatch_some st)
    = events hooks
        ++ (if returned_open hooks
            then match_events options u ++ events branch ++ tail
            else []).
Proof.
  cbn zeta. rewrite try_block_run. unfold returned_open.
  destruct (invokeAsync fuel "beforeRender" _ st) as [[[u|e|] s1] ev1];
    cbn [result final events fst snd];
    try (exists []; split; [apply Forall_nil | rewrite app_nil_r; reflexivity]).
  destruct (finished (res (world s1))); cbn [negb].
  - exists []; split; [apply Forall_nil | rewrite app_nil_r; reflexivity].
  - cbn zeta. rewrite classify_and_render_run.
    destruct ((if spa_route options micromatch_some (url (context (world s1)))
               then spa_branch renderers else ssr_branch fuel renderers) s1)
      as [[[flow|e|] s2] ev2]; cbn [result final events fst snd];
      try (exists []; split; [apply Forall_nil | rewrite app_nil_r; reflexivity]).
    exists (events (rendered_and_send fuel flow s2)).
    split; [|reflexivity].
    apply class_of, preserves_rendered_and_send; event_class.
Qed.

(** What the pipeline does besides its [try] block involves neither the
    renderer nor the glob match. *)
Lemma pipeline_events rq st :
  exists others,
    Forall outside_rendering others /\
    events (renderMiddleware fuel options renderers micromatch_some NODE_ENV rq st)
    = events (try_block fuel options renderers micromatch_some (entering rq st))
        ++ others.
Proof.
  rewrite renderMiddleware_run, try_catch_run.
  assert (Hafter : forall s, Forall outside_rendering
                     (events (invoke fuel "afterResponse" [ArgContext; ArgServer] s))).
  { intros s. apply (only_hooks_outside ["afterResponse"]).
    apply invoke_only_hooks; cbn; auto. }
  destruct (try_block fuel options renderers micromatch_some (entering rq st))
    as [[[[|]|e|] st1] ev1]; cbn [result final events fst snd];
    try (exists []; split; [apply Forall_nil | rewrite app_nil_r; reflexivity]).
  - exists (events (invoke fuel "afterResponse" [ArgContext; ArgServer] st1)).
    split; [apply Hafter|].
    destruct (invoke fuel "afterResponse" _ st1) as [[[u|e|] st2] ev2]; reflexivity.
  - assert (Hcatch : Forall outside_rendering (events (catch_block fuel NODE_ENV e st1))).
    { apply class_of, preserves_catch_block; event_class. }
    destruct (catch_block fuel NODE_ENV e st1) as [[[[|]|e'|] st2] ev2];
      cbn [result final events fst snd] in *;
      try (exists ev2; split; [assumption | reflexivity]).
    exists (ev2 ++ events (invoke fuel "afterResponse" [ArgContext; ArgServer] st2)).
    split; [apply Forall_app; split; [assumption | apply Hafter]|].
    destruct (invoke fuel "afterResponse" _ st2) as [[[u|e''|] st3] ev3];
      cbn [events snd]; rewrite app_assoc; reflexivity.
Qed.

End Classification.

Lemma assembled (P : Event -> Prop) hooks_ev mev bev tail others (b : bool) :
  Forall P hooks_ev -> Forall P mev -> Forall P bev -> Forall P tail ->
  Forall P others ->
  Forall P ((hooks_ev ++ (if b then mev ++ bev ++ tail else [])) ++ others).
Proof.
  intros H1 H2 H3 H4 H5.
  destruct b; repeat (apply Forall_app; split); auto.
Qed.

Lemma match_events_filter options u :
  filter is_match (match_events options u) = match_events options u.
Proof. unfold match_events; destruct (spaPaths options) as [[|g gs]|]; reflexivity. Qed.

Lemma match_events_never p options u :
  (forall v g, p (EvMatch v g) = false) -> Forall (never p) (match_events options u).
Proof.
  intros Hp; unfold match_events.
  destruct (spaPaths options) as [[|g gs]|]; repeat constructor. apply Hp.
Qed.

(** ** The renderer of a request *)

Lemma steady_storeless r0 : storeless (steady r0).
Proof. intros st w H; exact H. Qed.

Lemma steady_suspend r0 : preserves (steady r0) (served_by r0) suspend.
Proof.
  intros st (Hr & Hq & Hp); unfold suspend, no_rebuild in *.
  destruct (rebuilds st) as [|[r|] q] eqn:Hreb; cbn [final events fst snd].
  - split; [|constructor].
    split; [assumption|]. split; [unfold no_rebuild; rewrite Hreb; constructor | assumption].
  - inversion Hq as [|o l Ho Hl]; discriminate.
  - inversion Hq as [|o l Ho Hl]. split; [|constructor].
    split; [exact Hr|]. split; [exact Hl | exact Hp].
Qed.

Lemma keeps_renderer_closed r0 r r' :
  its_renderer r = r0 -> keeps_renderer r r' -> its_renderer r' = r0.
Proof. unfold keeps_renderer; intros H1 H2; rewrite H2; exact H1. Qed.

Lemma steady_hook r0 st p (name : string) h args :
  steady r0 st -> In p (plugins st) -> p name = Some h ->
  match h args (reach st) with
  | HThrow _ r added | HReturn r added | HPromise r added _ =>
      steady r0 (reached r added st)
  end.
Proof.
  intros (Hr & Hq & Hp) Hin Hn.
  pose proof (framed_hook keeps_renderer (fun r => its_renderer r = r0)
                (keeps_renderer_closed r0) st p name h args (conj Hr Hp) Hin Hn) as H.
  destruct (h args (reach st)); destruct H as [H1 H2];
    (split; [rewrite reach_reached in H1; exact H1 | split; [exact Hq | exact H2]]).
Qed.

Lemma steady_settle r0 st p (name : string) (h : Hook) (args : list Arg) ra r added k :
  steady r0 st -> In p (plugins st) -> p name = Some h ->
  h args ra = HPromise r added k ->
  match k (reach st) with
  | Resolved r2 added2 | Rejected _ r2 added2 => steady r0 (reached r2 added2 st)
  end.
Proof.
  intros (Hr & Hq & Hp) Hin Hn Heq.
  pose proof (framed_settle keeps_renderer (fun r => its_renderer r = r0)
                (keeps_renderer_closed r0) st p name h args ra r added k
                (conj Hr Hp) Hin Hn Heq) as H.
  destruct (k (reach st)); destruct H as [H1 H2];
    (split; [rewrite reach_reached in H1; exact H1 | split; [exact Hq | exact H2]]).
Qed.

Lemma steady_pipeline fuel options renderers micromatch_some NODE_ENV rq r0 :
  preserves (steady r0) (served_by r0)
    (renderMiddleware fuel options renderers micromatch_some NODE_ENV rq).
Proof.
  apply preserves_renderMiddleware.
  - apply steady_storeless.
  - apply steady_hook.
  - apply steady_settle.
  - apply steady_suspend.
  - intros; exact Logic.I.
  - intros; exact Logic.I.
  - intros st [Hr _]; exact Hr.
  - intros st [Hr _]; exact Hr.
  - intros st b [Hr _]; exact Hr.
  - intros; exact Logic.I.
  - intros; exact Logic.I.
  - intros; exact Logic.I.
Qed.

(** ** Length of the body *)

Lemma ascii_byte_length b :
  Forall is_ascii_unit b -> utf8_byte_length b = js_length b.
Proof.
  unfold js_length.
  induction 1 as [|u rest Hu _ IH]; [reflexivity|].
  cbn [utf8_byte_length length].
  unfold is_ascii_unit in Hu. apply N.ltb_lt in Hu. rewrite Hu, IH. lia.
Qed.

(** ** One response per request *)

Lemma plain_set_statusCode s : plain_hook keeps_unfinished (Examples.hook_set_statusCode s).
Proof. intros args r; split; [intros H; exact H | reflexivity]. Qed.

Lemma plain_set_status s : plain_hook keeps_unfinished (Examples.hook_set_status s).
Proof. intros args r; split; [intros H; exact H | reflexivity]. Qed.

Lemma plain_noop R : (forall r, R r r) -> plain_hook R Examples.hook_noop.
Proof. intros HR args r; split; [apply HR | reflexivity]. Qed.

Lemma page_renderer_leaves_open tag : renderer_leaves_open (Examples.page_renderer tag).
Proof. intros w Hw; repeat split; intros; exact Hw. Qed.

(** C1, amended.  The pipeline completes at most one terminal write per
    request, whatever the hooks do, whichever branch is taken and wherever
    an error is thrown.  When moreover no plugin hook and no renderer method
    finishes the transport response itself, exactly one write was completed
    whenever the pipeline resolves with the pair of contexts, and none when
    it ends by the bare [return].  A send step that throws has written
    nothing: when a [rendered] hook sets [response.status] to 1000, the send
    step of the [try] block throws, the error is logged and the [catch]
    block sends the page with status 500. *)
Theorem pipeline_sends_at_most_once
    fuel options renderers micromatch_some NODE_ENV rq st :
  let x := renderMiddleware fuel options renderers micromatch_some NODE_ENV rq st in
  sends (events x) <= 1
  /\ (all_open st -> (forall r, renderer_leaves_open (renderers r)) ->
      match result x with
      | Ok (Some _) => sends (events x) = 1
      | Ok None => sends (events x) = 0
      | _ => True
      end)
  /\ events Examples.resent_run
     = [EvRender 0; EvRenderSSRPage 0 (js "<div>About");
        EvHook "rendered" 0; EvAwaited "rendered" 0;
        EvLog "ERR_HTTP_INVALID_STATUS_CODE"; EvEnd (js "<html><div>About")]
  /\ res_statusCode (res (world (final Examples.resent_run))) = 500%Z.
Proof.
  cbn zeta. split; [apply renderMiddleware_sends_at_most_once|].
  split; [|split; reflexivity].
  intros Hst Hr.
  apply (renderMiddleware_open fuel options renderers micromatch_some NODE_ENV Hr rq st Hst).
Qed.

Lemma pipeline_sends_at_most_once_witness :
  let st := Examples.serving
              [Examples.plugin_with "beforeRender" (Examples.hook_set_statusCode 404);
               Examples.plugin_with "rendered" (Examples.hook_set_status 1000)] [] in
  let x := renderMiddleware Examples.rounds Examples.no_spa
             (fun _ => Examples.page_renderer "About") Examples.literal_some None
             Examples.about st in
  all_open st
  /\ (forall r : RendererId, renderer_leaves_open (Examples.page_renderer "About"))
  /\ sends (events x) = 1
  /\ res_statusCode (res (world (final x))) = 404%Z.
Proof.
  cbn zeta.
  assert (H1 : all_open
                 (Examples.serving
                    [Examples.plugin_with "beforeRender" (Examples.hook_set_statusCode 404);
                     Examples.plugin_with "rendered" (Examples.hook_set_status 1000)] [])).
  { split; [reflexivity|].
    constructor; [apply abides_plugin_with, plain_set_statusCode|].
    constructor; [apply abides_plugin_with, plain_set_status | constructor]. }
  assert (H2 : forall r : RendererId, renderer_leaves_open (Examples.page_renderer "About")).
  { intros _. apply page_renderer_leaves_open. }
  split; [exact H1|]. split; [exact H2|].
  split; [|reflexivity].
  exact (proj1 (proj2 (pipeline_sends_at_most_once Examples.rounds
                         Examples.no_spa (fun _ => Examples.page_renderer "About")
                         Examples.literal_some None Examples.about _))
               H1 H2).
Defined.

(** C1 as stated fails: when [render] flags a redirect the pipeline returns
    without any terminal write; the transport response is left as it was
    received, unfinished. *)
Lemma redirect_from_render_sends_nothing :
  result Examples.redirect_run = Ok None
  /\ events Examples.redirect_run = [EvRender 0]
  /\ sends (events Examples.redirect_run) = 0
  /\ res (world (final Examples.redirect_run)) = fresh_res
  /\ finished fresh_res = false.
Proof. repeat split. Qed.

(** ** After the [beforeRender] hooks *)

(** C2, amended.  When the [beforeRender] hooks have returned, what stops
    the pipeline is a finished transport response (a plugin that redirects
    ends the response itself): then nothing follows but the [afterResponse]
    hooks: no route classification, no renderer call, no [beforeBuild] or
    [rendered] hook, no send.  [context.redirected] is not read at that
    point.  With the response unfinished the route is classified and the
    renderer called, whatever the flag says: on an SPA route
    [renderSPAPage] is called; otherwise [render] is called, and when it
    resolves with the flag set (as a hook or [render] itself left it) the
    pipeline returns at once, with no [beforeBuild] or [rendered] hook, no
    page assembly, no send and no [afterResponse] hook. *)
Theorem finished_after_beforeRender_skips_rendering
    fuel options renderers micromatch_some NODE_ENV rq st :
  let hooks := invokeAsync fuel "beforeRender" [ArgContext; ArgServer] (entering rq st) in
  let s1 := final hooks in
  let after := invoke fuel "afterResponse" [ArgContext; ArgServer] s1 in
  let x := renderMiddleware fuel options renderers micromatch_some NODE_ENV rq st in
  let u := url (context (world s1)) in
  result hooks = Ok tt ->
  in_order Awaited "beforeRender" [ArgContext; ArgServer] 0 (entering rq st)
    (Ok tt) s1 (events hooks)
  /\ (finished (res (world s1)) = true ->
      events x = events hooks ++ events after
      /\ final x = final after
      /\ Forall (only_hooks ["beforeRender"; "afterResponse"]) (events x)
      /\ sends (events x) = 0)
  /\ (finished (res (world s1)) = false ->
      if spa_route options micromatch_some u
      then In (EvRenderSPAPage (renderer s1)) (events x)
      else
        In (EvRender (renderer s1)) (events x)
        /\ forall b w,
             render (renderers (renderer s1)) (world s1) = Normal b w ->
             redirected (context w) = true ->
             x = (Ok None, with_world (set_body b w) (final (suspend s1)),
                  events hooks ++ match_events options u
                    ++ EvRender (renderer s1) :: events (suspend s1))).
Proof.
  cbn zeta. intros Hok.
  split.
  { pose proof (invokeAsync_in_order fuel "beforeRender" [ArgContext; ArgServer]
                  (entering rq st)) as H.
    rewrite Hok in H. apply H. discriminate. }
  split.
  - intros Hfin.
    assert (Hall : Forall (only_hooks ["beforeRender"; "afterResponse"])
                     (events (invokeAsync fuel "beforeRender" [ArgContext; ArgServer]
                                (entering rq st))
                      ++ events (invoke fuel "afterResponse" [ArgContext; ArgServer]
                                   (final (invokeAsync fuel "beforeRender"
                                             [ArgContext; ArgServer] (entering rq st)))))).
    { apply Forall_app; split.
      - apply invokeAsync_only_hooks; cbn; auto.
      - apply invoke_only_hooks; cbn; auto. }
    rewrite renderMiddleware_run, try_catch_run, try_block_run.
    destruct (invokeAsync fuel "beforeRender" _ (entering rq st)) as [[[u|e|] st1] ev1];
      cbn [result final events fst snd] in *; try discriminate.
    rewrite Hfin.
    destruct (invoke fuel "afterResponse" _ st1) as [[[u'|e|] st2] ev2];
      cbn [result final events fst snd] in *;
      (split; [reflexivity|]; split; [reflexivity|]; split; [exact Hall|];
       apply no_end_sends, (only_hooks_no_end _ _ Hall)).
  - intros Hfin.
    destruct (spa_route options micromatch_some _) eqn:Hroute.
    + destruct (pipeline_events fuel options renderers micromatch_some NODE_ENV rq st)
        as (others & _ & Hx).
      destruct (try_block_events fuel options renderers micromatch_some (entering rq st))
        as (tail & _ & Htried).
      cbn zeta in Htried. rewrite Hx, Htried. unfold returned_open.
      rewrite Hok, Hfin, Hroute. cbn [negb].
      destruct (spa_branch_events renderers
                  (final (invokeAsync fuel "beforeRender" [ArgContext; ArgServer]
                            (entering rq st)))) as [[tl Hhd] _].
      rewrite Hhd.
      apply in_or_app; left. apply in_or_app; right.
      apply in_or_app; right. left. reflexivity.
    + split.
      * destruct (pipeline_events fuel options renderers micromatch_some NODE_ENV rq st)
          as (others & _ & Hx).
        destruct (try_block_events fuel options renderers micromatch_some (entering rq st))
          as (tail & _ & Htried).
        cbn zeta in Htried. rewrite Hx, Htried. unfold returned_open.
        rewrite Hok, Hfin, Hroute. cbn [negb].
        destruct (ssr_branch_events fuel renderers
                    (final (invokeAsync fuel "beforeRender" [ArgContext; ArgServer]
                              (entering rq st)))) as [[tl Hhd] _].
        rewrite Hhd.
        apply in_or_app; left. apply in_or_app; right.
        apply in_or_app; right. left. reflexivity.
      * intros b w Hrender Hred.
        rewrite renderMiddleware_run, try_catch_run, try_block_run.
        destruct (invokeAsync fuel "beforeRender" _ (entering rq st))
          as [[[u'|e|] st1] ev1];
          cbn [result final events fst snd] in *; try discriminate.
        rewrite Hfin. cbn zeta. rewrite classify_and_render_run, Hroute, ssr_branch_run.
        cbn zeta. rewrite Hrender, Hred. rewrite rendered_and_send_run.
        cbn [result final events fst snd]. rewrite !app_nil_r.
        reflexivity.
Qed.

Lemma finished_after_beforeRender_skips_rendering_witness :
  let st := Examples.serving Examples.flagged_plugins [] in
  let hooks := invokeAsync Examples.rounds "beforeRender" [ArgContext; ArgServer]
                 (entering Examples.about st) in
  result hooks = Ok tt
  /\ redirected (context (world (final hooks))) = true
  /\ finished (res (world (final hooks))) = false
  /\ Examples.flagged_ssr_run
     = (Ok None, with_world (set_body (js "<div>About") (world (final hooks))) (final hooks),
        [EvHook "beforeRender" 0; EvAwaited "beforeRender" 0;
         EvMatch "/about" ["/app"]; EvRender 0]).
Proof.
  cbn zeta.
  split; [reflexivity|]. split; [reflexivity|]. split; [reflexivity|].
  exact (proj2 (proj2 (proj2 (finished_after_beforeRender_skips_rendering
                                Examples.rounds Examples.spa_app
                                (fun _ => Examples.page_renderer "About")
                                Examples.literal_some None Examples.about
                                (Examples.serving Examples.flagged_plugins [])
                                eq_refl)) eq_refl)
           (js "<div>About") _ eq_refl eq_refl).
Defined.

(** C2 as stated fails: on an SPA route, a [beforeRender] hook that sets
    [context.redirected] does not stop the pipeline.  The route is
    classified, the SPA page is rendered, the [rendered] hook runs, the
    pipeline sends the page and the [afterResponse] hook runs. *)
Lemma redirected_flag_in_beforeRender_does_not_stop :
  redirected (context (world (final Examples.flagged_run))) = true
  /\ events Examples.flagged_run
     = [EvHook "beforeRender" 0; EvAwaited "beforeRender" 0;
        EvMatch "/app" ["/app"]; EvRenderSPAPage 0;
        EvHook "rendered" 1; EvAwaited "rendered" 1;
        EvEnd (js "<spa>App"); EvHook "afterResponse" 2]
  /\ sends (events Examples.flagged_run) = 1
  /\ ended (res (world (final Examples.flagged_run))) = [js "<spa>App"].
Proof. repeat split. Qed.

(** ** The error path of the pipeline *)

Lemma logged_no_log_but NODE_ENV err :
  count is_log (logged NODE_ENV err) = length (logged NODE_ENV err).
Proof. unfold logged; destruct (in_test_mode NODE_ENV); reflexivity. Qed.

Lemma try_block_no_log fuel options renderers micromatch_some st :
  Forall no_log (events (try_block fuel options renderers micromatch_some st)).
Proof. apply class_of, preserves_try_block; event_class. Qed.

Lemma send_run_defaults st1 :
  let w := error_defaults (world st1) in
  let code := match statusCode (context (world st1)) with
              | Some c => if (c =? 0)%Z then 500%Z else c
              | None => 500%Z
              end in
  send_run (with_world w st1) =
  match phase (res (world st1)) with
  | Open =>
      if (100 <=? to_int32 code)%Z && (to_int32 code <=? 999)%Z
      then (Ok tt, with_world (sent w) st1, [EvEnd (error_page (world st1))])
      else (Throw "ERR_HTTP_INVALID_STATUS_CODE", with_world (prepared w) st1, [])
  | _ => (Throw "ERR_HTTP_HEADERS_SENT", with_world w st1, [])
  end.
Proof.
  cbn zeta. unfold send_run, can_send, headersSent, status_to_send.
  cbn [world with_world error_defaults res context response status body statusCode].
  destruct (phase (res (world st1))); reflexivity.
Qed.

(** C3, amended.  An error thrown in the [try] block is caught by the one
    [catch] block, which logs it once (outside test mode) and invokes the
    [routeError] hooks with it, awaiting each in turn.  Provided these hooks
    return normally: when they left the response finished the block is
    done; otherwise the body defaults to the existing body or
    ["Server error"], the status is set to 500 and the send step runs.  The
    send step completes, and so the response is finished when the block
    ends, provided the header block has not been sent yet and the status
    code ([context.statusCode] if set, else 500) is one that the transport
    accepts; otherwise it throws out of the [catch] block, nothing is
    written and the response stays unfinished. *)
Theorem caught_error_gets_a_response
    fuel options renderers micromatch_some NODE_ENV st0 err :
  let tried := try_block fuel options renderers micromatch_some st0 in
  let hooks :=
    invokeAsync fuel "routeError" [ArgErr err; ArgResponse; ArgContext; ArgServer]
      (final tried) in
  let x := try_catch (try_block fuel options renderers micromatch_some)
             (catch_block fuel NODE_ENV) st0 in
  let w1 := world (final hooks) in
  let page := match body (response w1) with
              | [] => js "Server error"
              | _ :: _ => body (response w1)
              end in
  let code := match statusCode (context w1) with
              | Some c => if (c =? 0)%Z then 500%Z else c
              | None => 500%Z
              end in
  let before := events tried ++ logged NODE_ENV err ++ events hooks in
  result tried = Throw err ->
  result hooks = Ok tt ->
  in_order Awaited "routeError" [ArgErr err; ArgResponse; ArgContext; ArgServer] 0
    (final tried) (Ok tt) (final hooks) (events hooks)
  /\ count is_log (events x) = length (logged NODE_ENV err)
  /\ match phase (res w1) with
     | Finished => x = (Ok FallThrough, final hooks, before)
     | HeadersSent =>
         result x = Throw "ERR_HTTP_HEADERS_SENT"
         /\ events x = before
         /\ res (world (final x)) = res w1
     | Open =>
         if (100 <=? to_int32 code)%Z && (to_int32 code <=? 999)%Z then
           result x = Ok FallThrough
           /\ events x = before ++ [EvEnd page]
           /\ finished (res (world (final x))) = true
           /\ response (world (final x)) = mkResponseContext page 500
           /\ ended (res (world (final x))) = ended (res w1) ++ [page]
           /\ res_statusCode (res (world (final x))) = to_int32 code
         else
           result x = Throw "ERR_HTTP_INVALID_STATUS_CODE"
           /\ events x = before
           /\ finished (res (world (final x))) = false
           /\ ended (res (world (final x))) = ended (res w1)
     end.
Proof.
  cbn zeta. intros Htried Hhooks.
  split.
  { pose proof (invokeAsync_in_order fuel "routeError"
                  [ArgErr err; ArgResponse; ArgContext; ArgServer]
                  (final (try_block fuel options renderers micromatch_some st0))) as H.
    rewrite Hhooks in H. apply H. discriminate. }
  rewrite try_catch_run.
  pose proof (try_block_no_log fuel options renderers micromatch_some st0) as Hnolog.
  destruct (try_block fuel options renderers micromatch_some st0) as [[[f|e|] st1] ev1];
    cbn [result final events fst snd] in *; try discriminate.
  inversion Htried; subst e; clear Htried.
  rewrite catch_block_run.
  pose proof (invokeAsync_only_hooks fuel ["routeError"] "routeError"
                [ArgErr err; ArgResponse; ArgContext; ArgServer] st1 (or_introl eq_refl))
    as Hev.
  apply only_hooks_no_log in Hev.
  destruct (invokeAsync fuel "routeError" _ st1) as [[[u|e|] st2] ev2];
    cbn [result final events fst snd] in *; try discriminate.
  assert (Hcount : count is_log (ev1 ++ logged NODE_ENV err ++ ev2)
                   = length (logged NODE_ENV err)).
  { rewrite !count_app, (count_none _ _ Hnolog), (count_none _ _ Hev),
      logged_no_log_but. lia. }
  unfold finished. cbn zeta. rewrite send_run_defaults. cbn zeta.
  fold (error_page (world st2)).
  destruct (phase (res (world st2))) eqn:Hph; cbn [result final events fst snd].
  - destruct ((100 <=? _)%Z && (_ <=? 999)%Z); cbn [result final events fst snd as_flow].
    + split.
      { rewrite !app_assoc, count_app, <- !app_assoc, Hcount.
        unfold count; cbn; lia. }
      rewrite <- !app_assoc. repeat split.
    + rewrite app_nil_r. split; [exact Hcount|].
      repeat split. cbn. unfold finished. cbn. rewrite Hph. reflexivity.
  - rewrite app_nil_r. split; [exact Hcount|]. repeat split.
  - split; [exact Hcount|]. reflexivity.
Qed.

Lemma caught_error_gets_a_response_witness :
  let st0 := entering Examples.about (Examples.serving Examples.custom_error_plugins []) in
  let tried := try_block Examples.rounds Examples.no_spa
                 (fun _ => Examples.failing_renderer) Examples.literal_some st0 in
  let x := try_catch
             (try_block Examples.rounds Examples.no_spa
                (fun _ => Examples.failing_renderer) Examples.literal_some)
             (catch_block Examples.rounds None) st0 in
  result tried = Throw "render failed"
  /\ result (invokeAsync Examples.rounds "routeError"
               [ArgErr "render failed"; ArgResponse; ArgContext; ArgServer]
               (final tried)) = Ok tt
  /\ result x = Ok FallThrough
  /\ events x = [EvRender 0; EvLog "render failed"; EvHook "routeError" 0;
                 EvAwaited "routeError" 0; EvEnd (js "Oops")]
  /\ finished (res (world (final x))) = true.
Proof.
  cbn zeta.
  split; [reflexivity|]. split; [reflexivity|].
  pose proof (caught_error_gets_a_response Examples.rounds
                Examples.no_spa (fun _ => Examples.failing_renderer)
                Examples.literal_some None
                (entering Examples.about (Examples.serving Examples.custom_error_plugins []))
                "render failed" eq_refl eq_refl) as H.
  cbn zeta in H.
  destruct H as (_ & _ & H).
  exact (conj (proj1 H) (conj (proj1 (proj2 H)) (proj1 (proj2 (proj2 H))))).
Defined.

(** C3 as stated fails when a [routeError] hook throws: [render] rejects,
    the hook throws ["boom"], the pipeline rejects with it and nothing is
    ever written on the transport response. *)
Lemma routeError_failure_leaves_no_response :
  result Examples.routeError_throws_run = Throw "boom"
  /\ events Examples.routeError_throws_run
     = [EvRender 0; EvLog "render failed"; EvHook "routeError" 0]
  /\ sends (events Examples.routeError_throws_run) = 0
  /\ res (world (final Examples.routeError_throws_run)) = fresh_res.
Proof. repeat split. Qed.

(** The same happens without any failing hook when the status code is not
    valid: [render] rejects after a hook set [context.statusCode] to 1000,
    and the send step of the [catch] block throws. *)
Example invalid_status_leaves_no_response :
  result Examples.invalid_status_run = Throw "ERR_HTTP_INVALID_STATUS_CODE"
  /\ sends (events Examples.invalid_status_run) = 0
  /\ finished (res (world (final Examples.invalid_status_run))) = false.
Proof. repeat split. Qed.


(** ** After the response *)




(** ** Route classification *)

(** C5, amended.  No request has both an SPA and an SSR renderer call.
    When the [beforeRender] hooks return with the response unfinished, the
    glob test is made once, if [spaPaths] is not empty, on [context.url] as
    it then stands, query string included; when it succeeds [renderSPAPage]
    is called and [render] and [renderSSRPage] never are; otherwise [render]
    is called and [renderSPAPage] never is.  When the hooks throw or finish
    the response there is neither a glob test nor a renderer call. *)
Theorem route_classification_is_exclusive
    fuel options renderers micromatch_some NODE_ENV rq st :
  let x := renderMiddleware fuel options renderers micromatch_some NODE_ENV rq st in
  let hooks := invokeAsync fuel "beforeRender" [ArgContext; ArgServer] (entering rq st) in
  let u := url (context (world (final hooks))) in
  let r := renderer (final hooks) in
  (count is_spa_call (events x) = 0 \/ count is_ssr_call (events x) = 0)
  /\ (if returned_open hooks then
        filter is_match (events x) = match_events options u
        /\ (if spa_route options micromatch_some u
            then In (EvRenderSPAPage r) (events x)
                 /\ count is_ssr_call (events x) = 0
            else In (EvRender r) (events x)
                 /\ count is_spa_call (events x) = 0)
      else
        filter is_match (events x) = []
        /\ count is_spa_call (events x) = 0
        /\ count is_ssr_call (events x) = 0).
Proof.
  cbn zeta.
  destruct (pipeline_events fuel options renderers micromatch_some NODE_ENV rq st)
    as (others & Hothers & Hx).
  destruct (try_block_events fuel options renderers micromatch_some (entering rq st))
    as (tail & Htail & Htried).
  cbn zeta in Htried. rewrite Htried in Hx. clear Htried. rewrite Hx. clear Hx.
  set (hooks := invokeAsync fuel "beforeRender" [ArgContext; ArgServer] (entering rq st)) in *.
  set (u := url (context (world (final hooks)))) in *.
  assert (Hhooks : Forall outside_rendering (events hooks)).
  { apply (only_hooks_outside ["beforeRender"]).
    apply invokeAsync_only_hooks; cbn; auto. }
  pose proof (spa_branch_events renderers (final hooks)) as [[tls Hspa_hd] Hspa].
  pose proof (ssr_branch_events fuel renderers (final hooks)) as [[tlr Hssr_hd] Hssr].
  pose proof (branch_no_match fuel renderers
                (spa_route options micromatch_some u) (final hooks)) as Hbm.
  assert (Hclosed : returned_open hooks = false ->
            forall p, (forall e, p e = true -> is_renderer_call e || is_match e = true) ->
            Forall (never p)
              ((events hooks ++ (if returned_open hooks then
                   match_events options u
                   ++ events ((if spa_route options micromatch_some u
                               then spa_branch renderers else ssr_branch fuel renderers)
                                (final hooks)) ++ tail else [])) ++ others)).
  { intros Hc p Hp. rewrite Hc.
    apply Forall_app; split; [apply Forall_app; split|];
      try apply Forall_nil; apply (outside_rendering_never p); assumption. }
  assert (Hssr0 : spa_route options micromatch_some u = true ->
            count is_ssr_call
              ((events hooks ++ (if returned_open hooks then
                   match_events options u
                   ++ events ((if spa_route options micromatch_some u
                               then spa_branch renderers else ssr_branch fuel renderers)
                                (final hooks)) ++ tail else [])) ++ others) = 0).
  { intros Hs. apply count_none. rewrite Hs.
    apply assembled; try assumption;
      try (apply (outside_rendering_never is_ssr_call);
           [exact ssr_call_is_rendering | assumption]).
    apply match_events_never; reflexivity. }
  assert (Hspa0 : spa_route options micromatch_some u = false ->
            count is_spa_call
              ((events hooks ++ (if returned_open hooks then
                   match_events options u
                   ++ events ((if spa_route options micromatch_some u
                               then spa_branch renderers else ssr_branch fuel renderers)
                                (final hooks)) ++ tail else [])) ++ others) = 0).
  { intros Hs. apply count_none. rewrite Hs.
    apply assembled; try assumption;
      try (apply (outside_rendering_never is_spa_call);
           [exact spa_call_is_rendering | assumption]).
    apply match_events_never; reflexivity. }
  split.
  - destruct (spa_route options micromatch_some u) eqn:Hs;
      [right; apply Hssr0 | left; apply Hspa0]; reflexivity.
  - destruct (returned_open hooks) eqn:Hopen.
    + split.
      * rewrite !filter_app, match_events_filter.
        rewrite (filter_none is_match (events hooks)),
                (filter_none is_match _ Hbm),
                (filter_none is_match tail),
                (filter_none is_match others);
          try (apply (outside_rendering_never is_match);
               [exact match_is_rendering | assumption]).
        cbn [app]. rewrite ?app_nil_r. reflexivity.
      * destruct (spa_route options micromatch_some u) eqn:Hs.
        -- split; [|apply Hssr0; reflexivity].
           rewrite Hspa_hd.
           apply in_or_app; left. apply in_or_app; right.
           apply in_or_app; right. left. reflexivity.
        -- split; [|apply Hspa0; reflexivity].
           rewrite Hssr_hd.
           apply in_or_app; left. apply in_or_app; right.
           apply in_or_app; right. left. reflexivity.
    + specialize (Hclosed eq_refl).
      repeat split.
      * apply filter_none, Hclosed, match_is_rendering.
      * apply count_none, Hclosed, spa_call_is_rendering.
      * apply count_none, Hclosed, ssr_call_is_rendering.
Qed.

(** C5 as stated fails on the query string: the glob test receives the whole
    request URL.  With [spaPaths = ['/app']], the request [/app?x=1], whose
    path is [/app], is tested as ["/app?x=1"] and rendered by the SSR branch,
    while the request [/app] is served the SPA page. *)
Lemma glob_test_sees_the_query_string :
  url_path "/app?x=1" = url_path "/app"
  /\ filter is_match (events Examples.query_string_run) = [EvMatch "/app?x=1" ["/app"]]
  /\ count is_spa_call (events Examples.query_string_run) = 0
  /\ count is_ssr_call (events Examples.query_string_run) = 2
  /\ filter is_match (events Examples.plain_path_run) = [EvMatch "/app" ["/app"]]
  /\ count is_spa_call (events Examples.plain_path_run) = 1.
Proof. repeat split. Qed.

(** ** The renderer of a request *)

Lemma plain_keeps_renderer_statusCode s :
  plain_hook keeps_renderer (Examples.hook_set_statusCode s).
Proof. intros args r; split; reflexivity. Qed.

(** C9, amended.  A request during which nothing reassigns [this.renderer]
    (no development rebuild is pending and no hook reassigns it) is served
    by one renderer for its whole duration, the one installed when the
    request came in, and leaves it installed. *)
Theorem one_renderer_unless_rebuilt
    fuel options renderers micromatch_some NODE_ENV rq st :
  let x := renderMiddleware fuel options renderers micromatch_some NODE_ENV rq st in
  no_rebuild st ->
  Forall (abides keeps_renderer) (plugins st) ->
  Forall (served_by (renderer st)) (events x)
  /\ renderer (final x) = renderer st.
Proof.
  cbn zeta. intros Hq Hp.
  assert (Hst : steady (renderer st) st) by (split; [reflexivity | split; assumption]).
  destruct (steady_pipeline fuel options renderers micromatch_some NODE_ENV rq
              (renderer st) st Hst) as [[Hr _] Hev].
  split; assumption.
Qed.

Lemma one_renderer_unless_rebuilt_witness :
  let st := Examples.serving
              [Examples.plugin_with "beforeRender" (Examples.hook_set_statusCode 404);
               Examples.plugin_with "beforeBuild" Examples.hook_noop] [None; None] in
  let x := renderMiddleware Examples.rounds Examples.dev_no_spa
             (fun r => Examples.page_renderer (if Nat.eqb r 0 then "old" else "new"))
             Examples.literal_some None Examples.about st in
  no_rebuild st
  /\ Forall (abides keeps_renderer) (plugins st)
  /\ Forall (served_by 0) (events x)
  /\ count is_ssr_call (events x) = 2.
Proof.
  cbn zeta.
  assert (H1 : no_rebuild
                 (Examples.serving
                    [Examples.plugin_with "beforeRender" (Examples.hook_set_statusCode 404);
                     Examples.plugin_with "beforeBuild" Examples.hook_noop] [None; None])).
  { repeat constructor. }
  assert (H2 : Forall (abides keeps_renderer)
                 [Examples.plugin_with "beforeRender" (Examples.hook_set_statusCode 404);
                  Examples.plugin_with "beforeBuild" Examples.hook_noop]).
  { constructor; [apply abides_plugin_with, plain_keeps_renderer_statusCode|].
    constructor; [|constructor].
    apply abides_plugin_with, plain_noop. reflexivity. }
  split; [exact H1|]. split; [exact H2|].
  split; [|reflexivity].
  exact (proj1 (one_renderer_unless_rebuilt Examples.rounds Examples.dev_no_spa
                  (fun r => Examples.page_renderer (if Nat.eqb r 0 then "old" else "new"))
                  Examples.literal_some None Examples.about _ H1 H2)).
Defined.

(** C9 as stated fails: the pipeline keeps no binding of its own, every
    renderer call is made on [this.renderer] as it is when the call is made.
    In development mode, a rebuild that installs renderer [1] while [render]
    of renderer [0] is pending makes the same request call [renderSSRPage]
    on renderer [1], with the body that renderer [0] produced. *)
Lemma rebuild_during_render_mixes_renderers :
  webpack Examples.dev_no_spa = true
  /\ events Examples.rebuild_during_render_run
     = [EvRender 0; EvRebuild 1; EvRenderSSRPage 1 (js "<div>old");
        EvEnd (js "<html><div>old")]
  /\ ~ Forall (served_by 0) (events Examples.rebuild_during_render_run).
Proof.
  split; [reflexivity|]. split; [reflexivity|].
  intros H.
  inversion H as [|e1 l1 _ H1]; subst.
  inversion H1 as [|e2 l2 _ H2]; subst.
  inversion H2 as [|e3 l3 H3 _]; subst.
  cbn in H3. discriminate.
Qed.

(** ** The send step *)

(** C6.  On a response whose header block is not sent, and with a status
    code that the transport accepts, the send step sets [Content-Type],
    sets [Content-Length] to [body.length], sets the status code with the
    context's [statusCode] taking precedence, writes the body and finishes
    the response; with another status code it throws after setting the
    headers, and once the header block is sent it throws at once, in both
    cases writing nothing.  [body.length] counts UTF-16 code units, not
    bytes: for the one-character page [U+00E9] the header says 1 while the
    body written is 2 bytes long in UTF-8. *)
Theorem content_length_counts_code_units :
  (forall st,
      let w := world st in
      let x := sendResponse st in
      let r := res (world (final x)) in
      let code := match statusCode (context w) with
                  | Some c => if (c =? 0)%Z then status (response w) else c
                  | None => status (response w)
                  end in
      match phase (res w) with
      | Open =>
          if (100 <=? to_int32 code)%Z && (to_int32 code <=? 999)%Z then
            result x = Ok tt
            /\ events x = [EvEnd (body (response w))]
            /\ res_getHeader "Content-Type" r = Some (HString "text/html; charset=utf-8")
            /\ res_getHeader "Content-Length" r
               = Some (HNumber (Z.of_nat (length (body (response w)))))
            /\ res_statusCode r = to_int32 code
            /\ ended r = ended (res w) ++ [body (response w)]
            /\ finished r = true
          else
            result x = Throw "ERR_HTTP_INVALID_STATUS_CODE"
            /\ events x = []
            /\ ended r = ended (res w)
            /\ finished r = false
      | _ => x = (Throw "ERR_HTTP_HEADERS_SENT", st, [])
      end)
  /\ (let r := res (world (final Examples.accent_run)) in
      ended r = [[0xE9%N]]
      /\ res_getHeader "Content-Length" r = Some (HNumber 1)
      /\ utf8_byte_length [0xE9%N] = 2%Z).
Proof.
  split; [|repeat split].
  intros st. cbn zeta. rewrite sendResponse_run.
  unfold send_run, can_send, headersSent, status_to_send. cbn zeta.
  destruct (phase (res (world st))) eqn:Hph; try reflexivity.
  cbn [negb andb].
  destruct ((100 <=? _)%Z && (_ <=? 999)%Z); cbn [result final events fst snd].
  - repeat split.
  - repeat split. cbn. unfold finished. cbn. rewrite Hph. reflexivity.
Qed.

(** ** Start and stop *)

Lemma stop_run adapter st :
  stop adapter st =
  if started st then
    (match adapter_stop adapter (adapter_calls st) with
     | None => Ok tt
     | Some e => Throw e
     end,
     with_adapter_calls (adapter_calls st ++ [AStop])
       (with_listeners
          (filter (fun s => negb (String.eqb s "SIGTERM"))
             (filter (fun s => negb (String.eqb s "SIGINT")) (listeners st))) st),
     [])
  else (Ok tt, st, []).
Proof.
  unfold stop. rewrite bind_gets.
  destruct (started st); [|reflexivity].
  unfold removeAllListeners. rewrite !bind_update.
  unfold call_adapter. rewrite bind_gets, bind_update. cbn.
  destruct (adapter_stop adapter (adapter_calls st)); reflexivity.
Qed.

(** C8.  [stop] does nothing unless [started] is set; otherwise it removes
    the [SIGINT] and [SIGTERM] listeners and calls the adapter's [stop].  It
    never clears [started]: after a start and a stop the server still counts
    as started, and a second [stop] calls the adapter's [stop] again. *)
Theorem stop_never_clears_started :
  (forall adapter st,
      started (final (stop adapter st)) = started st
      /\ if started st then
           adapter_calls (final (stop adapter st)) = adapter_calls st ++ [AStop]
           /\ listeners (final (stop adapter st))
              = filter (fun s => negb (String.eqb s "SIGTERM"))
                  (filter (fun s => negb (String.eqb s "SIGINT")) (listeners st))
         else stop adapter st = (Ok tt, st, []))
  /\ started (Examples.constructed []) = false
  /\ started Examples.started_once = true
  /\ listeners Examples.started_once = ["SIGINT"; "SIGTERM"]
  /\ started Examples.stopped_once = true
  /\ listeners Examples.stopped_once = []
  /\ adapter_calls Examples.stopped_twice = [AUse; AStart; AStop; AStop].
Proof.
  split; [|repeat split].
  intros adapter st. rewrite stop_run.
  destruct (started st) eqn:Hs; cbn [final fst snd]; [|split; [assumption | reflexivity]].
  repeat split. cbn. assumption.
Qed.

(** ** The plugin registry *)

Lemma addPlugin_run p st :
  addPlugin p st =
  match p "install" with
  | None => (Ok tt, with_plugins (plugins st ++ [p]) st, [])
  | Some h =>
      match h [ArgServer; ArgOptions] (reach (with_plugins (plugins st ++ [p]) st)) with
      | HThrow e r added =>
          (Throw e, reached r added (with_plugins (plugins st ++ [p]) st), [])
      | HReturn r added | HPromise r added _ =>
          (Ok tt, reached r added (with_plugins (plugins st ++ [p]) st), [])
      end
  end.
Proof.
  unfold addPlugin. rewrite bind_update.
  destruct (p "install") as [h|]; [|reflexivity].
  apply call_hook_run.
Qed.



(** A hook that registers a plugin while the loop runs: the loop calls the
    hook of the new plugin too. *)
Example loop_visits_registered_plugins :
  let x := invokeAsync Examples.rounds "beforeStart" [ArgServer]
             (Examples.constructed Examples.registering_plugins) in
  result x = Ok tt
  /\ events x = [EvHook "beforeStart" 0; EvAwaited "beforeStart" 0;
                 EvHook "beforeStart" 1; EvAwaited "beforeStart" 1]
  /\ length (plugins (final x)) = 2
  /\ adapter_calls (final x) = [AUse].
Proof. repeat split. Qed.

(** ** Where a registered plugin runs *)

Lemma having_from_app ps qs : forall i name,
  having_from i (ps ++ qs) name
  = having_from i ps name ++ having_from (i + length ps) qs name.
Proof.
  induction ps as [|p ps IH]; intros i name; cbn [app having_from length].
  - rewrite Nat.add_0_r. reflexivity.
  - rewrite IH, Nat.add_succ_r.
    destruct (p name); reflexivity.
Qed.

Lemma pass_sync_events name args ps : forall i st,
  match result (pass (sync_step name args) name i ps st) with
  | Ok _ =>
      events (pass (sync_step name args) name i ps st)
      = map (EvHook name) (having_from i ps name)
  | Throw _ => True
  | Diverge => False
  end.
Proof.
  induction ps as [|p rest IH]; intros i st; [reflexivity|].
  cbn [pass having_from]. destruct (p name) as [h|]; [|apply IH].
  rewrite bind_run.
  assert (Hstep : sync_step name args i h st
                  = match h args (reach st) with
                    | HThrow e r added => (Throw e, reached r added st, [EvHook name i])
                    | HReturn r added | HPromise r added _ =>
                        (Ok tt, reached r added st, [EvHook name i])
                    end).
  { unfold sync_step. rewrite bind_emit, call_hook_run.
    destruct (h args (reach st)); reflexivity. }
  rewrite Hstep.
  destruct (h args (reach st)) as [e r added|r added|r added k];
    cbn [result final events fst snd app map]; try exact Logic.I.
  - specialize (IH (S i) (reached r added st)).
    destruct (result (pass (sync_step name args) name (S i) rest (reached r added st)));
      try assumption.
    rewrite IH. reflexivity.
  - specialize (IH (S i) (reached r added st)).
    destruct (result (pass (sync_step name args) name (S i) rest (reached r added st)));
      try assumption.
    rewrite IH. reflexivity.
Qed.

(** X1.  A plugin registered by [addPlugin] comes after the plugins
    registered before it, also when its [install] hook throws, and before
    the plugins that its [install] hook registers; it is the last one when
    it has no [install] hook.  When the hooks [name] of the plugins then
    registered register nothing, an invocation of [name] that completes has
    called the hooks of the earlier plugins first, in their order, then the
    hook of the new plugin, if it has one, then the hooks of the plugins
    that its [install] registered; and the invocation does complete or
    throw. *)
Theorem added_plugin_runs_in_its_place fuel p st name args :
  let st' := final (addPlugin p st) in
  exists added,
    plugins st' = plugins st ++ p :: added
    /\ (p "install" = None -> added = [])
    /\ having_from 0 (plugins st') name
       = having_from 0 (plugins st) name
           ++ (match p name with Some _ => [length (plugins st)] | None => [] end)
           ++ having_from (S (length (plugins st))) added name
    /\ (Forall (registers_nothing name) (plugins st') ->
        match result (invoke fuel name args st') with
        | Ok _ =>
            events (invoke fuel name args st')
            = map (EvHook name) (having_from 0 (plugins st) name)
                ++ (match p name with
                    | Some _ => [EvHook name (length (plugins st))]
                    | None => []
                    end)
                ++ map (EvHook name) (having_from (S (length (plugins st))) added name)
        | Throw _ => True
        | Diverge => False
        end).
Proof.
  cbn zeta.
  assert (Hadded : exists added,
             plugins (final (addPlugin p st)) = plugins st ++ p :: added
             /\ (p "install" = None -> added = [])).
  { rewrite addPlugin_run.
    destruct (p "install") as [h|].
    - destruct (h _ _) as [e r added|r added|r added k];
        exists added; cbn [final fst snd plugins reached with_plugins];
        rewrite <- app_assoc; (split; [reflexivity | discriminate]).
    - exists []. split; [reflexivity | reflexivity]. }
  destruct Hadded as (added & Hps & Hnone).
  exists added. split; [exact Hps|]. split; [exact Hnone|].
  assert (Hh : having_from 0 (plugins (final (addPlugin p st))) name
               = having_from 0 (plugins st) name
                   ++ (match p name with Some _ => [length (plugins st)] | None => [] end)
                   ++ having_from (S (length (plugins st))) added name).
  { rewrite Hps, having_from_app. cbn [having_from Nat.add].
    destruct (p name); reflexivity. }
  split; [exact Hh|].
  intros Hreg.
  pose proof (invocation_registers_nothing Dropped fuel name args _ Hreg) as Hinv.
  cbn [invocation step_of] in Hinv. rewrite Hinv.
  pose proof (pass_sync_events name args (plugins (final (addPlugin p st))) 0
                (final (addPlugin p st))) as Hev.
  destruct (result (pass (sync_step name args) name 0 _ _)); try assumption.
  rewrite Hev, Hh, !map_app. destruct (p name); reflexivity.
Qed.

(** ** Hooks that no plugin has *)

(** X2.  Invoking a hook that no registered plugin has, in particular on a
    server without plugins, does nothing: both invocations return at once,
    leave the state as it is and call nothing. *)
Theorem absent_hook_is_a_no_op fuel name args st :
  Forall (lacks name) (plugins st) ->
  invoke fuel name args st = (Ok tt, st, [])
  /\ invokeAsync fuel name args st = (Ok tt, st, []).
Proof.
  intros H; split; [apply invoke_absent | apply invokeAsync_absent]; assumption.
Qed.

Lemma absent_hook_is_a_no_op_witness :
  let st := Examples.serving [Examples.plugin_with "rendered" Examples.hook_noop] [] in
  Forall (lacks "beforeBuild") (plugins st)
  /\ invokeAsync 0 "beforeBuild" [ArgResponse; ArgContext; ArgServer] st = (Ok tt, st, []).
Proof.
  cbn zeta.
  assert (H : Forall (lacks "beforeBuild")
                (plugins (Examples.serving
                            [Examples.plugin_with "rendered" Examples.hook_noop] [])))
    by (repeat constructor).
  split; [exact H|].
  exact (proj2 (absent_hook_is_a_no_op 0 "beforeBuild" [ArgResponse; ArgContext; ArgServer]
                  (Examples.serving [Examples.plugin_with "rendered" Examples.hook_noop] [])
                  H)).
Defined.

(** ** Hooks that return no promise *)

Lemma synchronous_step name args i h (p : Plugin) st :
  synchronous name p -> p name = Some h ->
  result (async_step name args i h st) = result (sync_step name args i h st)
  /\ final (async_step name args i h st) = final (sync_step name args i h st)
  /\ calls (events (async_step name args i h st)) = events (sync_step name args i h st)
  /\ (Forall (synchronous name) (plugins st) ->
      Forall (synchronous name) (plugins (final (sync_step name args i h st)))).
Proof.
  intros Hs Hp. inversion Hs as [q Hnp Ht Hr]; subst q.
  unfold async_step, sync_step.
  rewrite !bind_emit, bind_run, await_hook_run, call_hook_run.
  destruct (h args (reach st)) as [e r added|r added|r added k] eqn:Heq;
    cbn [result final events fst snd app].
  - repeat split. intros Hps. cbn [plugins reached].
    apply Forall_app; split; [assumption | apply (Ht _ _ _ _ _ _ Hp Heq)].
  - repeat split. intros Hps. cbn [plugins reached].
    apply Forall_app; split; [assumption | apply (Hr _ _ _ _ _ Hp Heq)].
  - contradiction (Hnp _ _ _ _ _ _ Hp Heq).
Qed.

Lemma synchronous_pass name args ps : forall i st,
  Forall (synchronous name) ps ->
  result (pass (async_step name args) name i ps st)
  = result (pass (sync_step name args) name i ps st)
  /\ final (pass (async_step name args) name i ps st)
     = final (pass (sync_step name args) name i ps st)
  /\ calls (events (pass (async_step name args) name i ps st))
     = events (pass (sync_step name args) name i ps st)
  /\ (Forall (synchronous name) (plugins st) ->
      Forall (synchronous name) (plugins (final (pass (sync_step name args) name i ps st)))).
Proof.
  induction ps as [|p rest IH]; intros i st H; [repeat split; auto|].
  inversion H as [|q qs Hp Hrest]; subst.
  cbn [pass]. destruct (p name) as [h|] eqn:Hn; [|apply IH; assumption].
  rewrite !bind_run.
  destruct (synchronous_step name args i h p st Hp Hn) as (H1 & H2 & H3 & H4).
  destruct (async_step name args i h st) as [[ra sa] eva].
  destruct (sync_step name args i h st) as [[rs ss] evs].
  cbn [result final events fst snd] in *. subst ra sa.
  destruct rs as [u|e|]; cbn [result final events fst snd]; try (repeat split; auto; fail).
  destruct (IH (S i) ss Hrest) as (I1 & I2 & I3 & I4).
  split; [exact I1|]. split; [exact I2|].
  split; [unfold calls in *; rewrite filter_app, H3, I3; reflexivity|].
  intros Hps. apply I4, H4, Hps.
Qed.

Lemma synchronous_rounds name args fuel : forall i st,
  Forall (synchronous name) (plugins st) ->
  result (rounds (async_step name args) name fuel i st)
  = result (rounds (sync_step name args) name fuel i st)
  /\ final (rounds (async_step name args) name fuel i st)
     = final (rounds (sync_step name args) name fuel i st)
  /\ calls (events (rounds (async_step name args) name fuel i st))
     = events (rounds (sync_step name args) name fuel i st).
Proof.
  induction fuel as [|fuel IH]; intros i st Hps; rewrite !rounds_run;
    destruct (skipn i (plugins st)) as [|p more] eqn:Hmore; try (repeat split; fail).
  rewrite !bind_run.
  assert (Hm : Forall (synchronous name) (p :: more)).
  { rewrite <- Hmore. apply Forall_forall. intros q Hq.
    apply (proj1 (Forall_forall _ _) Hps). apply (incl_skipn _ i). exact Hq. }
  destruct (synchronous_pass name args (p :: more) i st Hm) as (H1 & H2 & H3 & H4).
  destruct (pass (async_step name args) name i (p :: more) st) as [[ra sa] eva].
  destruct (pass (sync_step name args) name i (p :: more) st) as [[rs ss] evs].
  cbn [result final events fst snd] in *. subst ra sa.
  destruct rs as [u|e|]; cbn [result final events fst snd]; try (repeat split; auto; fail).
  destruct (IH (i + length (p :: more)) ss (H4 Hps)) as (I1 & I2 & I3).
  split; [exact I1|]. split; [exact I2|].
  unfold calls in *; rewrite filter_app, H3, I3; reflexivity.
Qed.

(** X3.  On plugins whose hook [name] never returns a promise,
    [invokeAsync] behaves as [invoke]: the same hooks are called in the same
    order, the invocation ends the same way (returning, or throwing the same
    error at the same hook) and leaves the same state. *)
Theorem invokeAsync_on_synchronous_hooks fuel name args st :
  Forall (synchronous name) (plugins st) ->
  result (invokeAsync fuel name args st) = result (invoke fuel name args st)
  /\ final (invokeAsync fuel name args st) = final (invoke fuel name args st)
  /\ calls (events (invokeAsync fuel name args st)) = events (invoke fuel name args st).
Proof.
  intros H. rewrite invokeAsync_loop, invoke_loop, !loop_run, !bind_run.
  destruct (synchronous_pass name args (plugins st) 0 st H) as (H1 & H2 & H3 & H4).
  destruct (pass (async_step name args) name 0 (plugins st) st) as [[ra sa] eva].
  destruct (pass (sync_step name args) name 0 (plugins st) st) as [[rs ss] evs].
  cbn [result final events fst snd] in *. subst ra sa.
  destruct rs as [u|e|]; cbn [result final events fst snd]; try (repeat split; auto; fail).
  destruct (synchronous_rounds name args fuel (length (plugins st)) ss (H4 H))
    as (I1 & I2 & I3).
  split; [exact I1|]. split; [exact I2|].
  unfold calls in *; rewrite filter_app, H3, I3; reflexivity.
Qed.

Lemma synchronous_plugin_with name n h :
  (forall args r, match h args r with
                  | HThrow _ _ added | HReturn _ added => added = []
                  | HPromise _ _ _ => False
                  end) ->
  synchronous name (Examples.plugin_with n h).
Proof.
  intros Hh.
  assert (Hsame : forall h', Examples.plugin_with n h name = Some h' -> h' = h).
  { intros h'. unfold Examples.plugin_with.
    destruct (String.eqb name n); [intros H; inversion H; reflexivity | discriminate]. }
  constructor.
  - intros h' args r r' added k Hp Heq. apply Hsame in Hp; subst h'.
    specialize (Hh args r). rewrite Heq in Hh. exact Hh.
  - intros h' args r e r' added Hp Heq. apply Hsame in Hp; subst h'.
    specialize (Hh args r). rewrite Heq in Hh. subst added. constructor.
  - intros h' args r r' added Hp Heq. apply Hsame in Hp; subst h'.
    specialize (Hh args r). rewrite Heq in Hh. subst added. constructor.
Qed.

Lemma invokeAsync_on_synchronous_hooks_witness :
  let st := Examples.serving
              [Examples.plugin_with "rendered" Examples.hook_noop;
               Examples.plugin_with "rendered" (Examples.hook_throw "boom");
               Examples.plugin_with "rendered" Examples.hook_noop] [] in
  Forall (synchronous "rendered") (plugins st)
  /\ result (invokeAsync Examples.rounds "rendered" [ArgResponse; ArgContext; ArgServer] st)
     = result (invoke Examples.rounds "rendered" [ArgResponse; ArgContext; ArgServer] st).
Proof.
  cbn zeta.
  assert (H : Forall (synchronous "rendered")
                (plugins (Examples.serving
                   [Examples.plugin_with "rendered" Examples.hook_noop;
                    Examples.plugin_with "rendered" (Examples.hook_throw "boom");
                    Examples.plugin_with "rendered" Examples.hook_noop] []))).
  { repeat (constructor; [apply synchronous_plugin_with; intros; reflexivity|]).
    constructor. }
  split; [exact H|].
  exact (proj1 (invokeAsync_on_synchronous_hooks Examples.rounds "rendered"
                  [ArgResponse; ArgContext; ArgServer] _ H)).
Defined.

(** ** Starting and stopping *)

Lemma framed_invokeAsync R J :
  (forall r r', J r -> R r r' -> J r') ->
  (forall st, J (reach st) -> J (reach (final (suspend st)))) ->
  forall fuel name args,
    preserves (framed R J) (fun _ => True) (invokeAsync fuel name args).
Proof.
  intros HRJ Hsus fuel name args.
  apply (inv_invokeAsync (framed R J) (fun _ => True) (fun _ => True)); auto.
  - intros st p n h a. apply framed_hook. exact HRJ.
  - intros st p n h a r0 r added k. apply framed_settle. exact HRJ.
  - intros st [HJ Hps]. split; [|apply Forall_forall; intros; exact Logic.I].
    split; [apply Hsus, HJ | rewrite suspend_plugins; exact Hps].
Qed.

(** [start] from the moment the middleware is handed to the adapter. *)
Lemma start_from_use adapter s :
  (use ;; call_adapter AStart (adapter_start adapter) ;; update (with_started true) ;;
   process_once "SIGINT" ;; process_once "SIGTERM") s
  = match adapter_start adapter (adapter_calls s ++ [AUse]) with
    | None =>
        (Ok tt,
         with_listeners (listeners s ++ ["SIGINT"; "SIGTERM"])
           (with_started true (with_adapter_calls (adapter_calls s ++ [AUse; AStart]) s)),
         [])
    | Some e =>
        (Throw e, with_adapter_calls (adapter_calls s ++ [AUse; AStart]) s, [])
    end.
Proof.
  unfold use, call_adapter, process_once.
  rewrite bind_update, bind_assoc, bind_gets, bind_assoc, bind_update.
  cbn [adapter_calls with_adapter_calls].
  destruct (adapter_start adapter (adapter_calls s ++ [AUse])) as [e|].
  - rewrite bind_throw. destruct s; cbn. rewrite <- app_assoc. reflexivity.
  - rewrite bind_ret, !bind_update. destruct s; unfold update; cbn.
    rewrite <- !app_assoc. reflexivity.
Qed.

Lemma start_cases fuel options adapter built_files setupDevMiddleware st :
  let a := invokeAsync fuel "beforeStart" [ArgServer] st in
  let x := start fuel options adapter built_files setupDevMiddleware st in
  match result a with
  | Ok _ =>
      let b := (if webpack options then
                  await_hook setupDevMiddleware [ArgServer; ArgCallback]
                else
                  match built_files with
                  | inl r => update (with_renderer r)
                  | inr e => throw e
                  end) (final a) in
      match result b with
      | Ok _ =>
          match adapter_start adapter (adapter_calls (final b) ++ [AUse]) with
          | None =>
              result x = Ok tt
              /\ final x
                 = with_listeners (listeners (final b) ++ ["SIGINT"; "SIGTERM"])
                     (with_started true
                        (with_adapter_calls (adapter_calls (final b) ++ [AUse; AStart])
                           (final b)))
          | Some e =>
              result x = Throw e
              /\ final x
                 = with_adapter_calls (adapter_calls (final b) ++ [AUse; AStart]) (final b)
          end
      | Throw e => result x = Throw e /\ final x = final b
      | Diverge => result x = Diverge /\ final x = final b
      end
  | Throw e => result x = Throw e /\ final x = final a
  | Diverge => result x = Diverge /\ final x = final a
  end.
Proof.
  cbn zeta. unfold start. rewrite bind_run.
  destruct (invokeAsync fuel "beforeStart" [ArgServer] st) as [[[[]|e|] s0] ev0];
    cbn [result final events fst snd]; try (split; reflexivity).
  rewrite bind_run.
  destruct ((if webpack options then
               await_hook setupDevMiddleware [ArgServer; ArgCallback]
             else
               match built_files with
               | inl r => update (with_renderer r)
               | inr e => throw e
               end) s0) as [[[[]|e|] s1] ev1];
    cbn [result final events fst snd]; try (split; reflexivity).
  rewrite start_from_use.
  destruct (adapter_start adapter (adapter_calls s1 ++ [AUse])); split; reflexivity.
Qed.

Lemma keeps_server_closed b cs ls r r' :
  (its_started r = b /\ its_adapter_calls r = cs /\ its_listeners r = ls) ->
  keeps_server r r' ->
  its_started r' = b /\ its_adapter_calls r' = cs /\ its_listeners r' = ls.
Proof.
  intros (H1 & H2 & H3) (K1 & K2 & K3). rewrite K1, K2, K3. auto.
Qed.

Lemma keeps_host_closed cs ls r r' :
  (its_adapter_calls r = cs /\ its_listeners r = ls) ->
  keeps_host r r' ->
  its_adapter_calls r' = cs /\ its_listeners r' = ls.
Proof.
  intros (H2 & H3) (K2 & K3). rewrite K2, K3. auto.
Qed.

(** X4.  [start] resolves only after the terminal middleware has been handed
    to the adapter and the adapter's [start] has resolved, the last two calls
    made on the adapter; the server is then marked started and a [SIGINT] and
    a [SIGTERM] listener are the last two of the process, whether the server
    was already started or not; in production mode the renderer is the one
    built from the files read.  In production mode, when no hook of a plugin
    touches the [started] mark, the adapter or the listeners: the adapter
    calls and the listeners of a start that resolves are those from before
    with these additions; a start that rejects leaves the [started] mark and
    the listeners as they were, and the adapter either untouched (a
    [beforeStart] hook or the renderer setup failed) or used and started,
    its [start] having rejected with that error. *)
Theorem start_marks_started_only_on_success
    fuel options adapter built_files setupDevMiddleware st :
  let x := start fuel options adapter built_files setupDevMiddleware st in
  (result x = Ok tt ->
   started (final x) = true
   /\ (exists cs, adapter_calls (final x) = cs ++ [AUse; AStart]
                  /\ adapter_start adapter (cs ++ [AUse]) = None)
   /\ (exists ls, listeners (final x) = ls ++ ["SIGINT"; "SIGTERM"])
   /\ (webpack options = false -> built_files = inl (renderer (final x))))
  /\ (webpack options = false ->
      Forall (abides keeps_server) (plugins st) ->
      match result x with
      | Ok _ =>
          listeners (final x) = listeners st ++ ["SIGINT"; "SIGTERM"]
          /\ adapter_calls (final x) = adapter_calls st ++ [AUse; AStart]
      | Throw e =>
          started (final x) = started st
          /\ listeners (final x) = listeners st
          /\ (adapter_calls (final x) = adapter_calls st
              \/ (adapter_calls (final x) = adapter_calls st ++ [AUse; AStart]
                  /\ adapter_start adapter (adapter_calls st ++ [AUse]) = Some e))
      | Diverge =>
          started (final x) = started st
          /\ listeners (final x) = listeners st
          /\ adapter_calls (final x) = adapter_calls st
      end).
Proof.
  cbn zeta.
  pose proof (start_cases fuel options adapter built_files setupDevMiddleware st) as H.
  cbn zeta in H.
  split.
  - intros Hok.
    destruct (result (invokeAsync fuel "beforeStart" [ArgServer] st)) as [[]|e|];
      [|destruct H as [H _]; rewrite H in Hok; discriminate
       |destruct H as [H _]; rewrite H in Hok; discriminate].
    set (s0 := final (invokeAsync fuel "beforeStart" [ArgServer] st)) in *.
    destruct (webpack options) eqn:Hw.
    + destruct (result (await_hook setupDevMiddleware [ArgServer; ArgCallback] s0))
        as [[]|e|];
        [|destruct H as [H _]; rewrite H in Hok; discriminate
         |destruct H as [H _]; rewrite H in Hok; discriminate].
      set (s1 := final (await_hook setupDevMiddleware [ArgServer; ArgCallback] s0)) in *.
      destruct (adapter_start adapter (adapter_calls s1 ++ [AUse])) as [e|] eqn:Ha;
        destruct H as [H1 H2]; [rewrite H1 in Hok; discriminate|].
      rewrite H2. cbn.
      split; [reflexivity|]. split; [exists (adapter_calls s1); split; [reflexivity|exact Ha]|].
      split; [exists (listeners s1); reflexivity | discriminate].
    + destruct built_files as [r|e].
      * cbn [update result final fst snd] in H.
        destruct (adapter_start adapter (adapter_calls (with_renderer r s0) ++ [AUse]))
          as [e|] eqn:Ha; destruct H as [H1 H2]; [rewrite H1 in Hok; discriminate|].
        rewrite H2. cbn.
        split; [reflexivity|].
        split; [exists (adapter_calls s0); split; [reflexivity|exact Ha]|].
        split; [exists (listeners s0); reflexivity | reflexivity].
      * cbn in H. destruct H as [H _]; rewrite H in Hok; discriminate.
  - intros Hw Hps. rewrite Hw in H.
    destruct (framed_invokeAsync keeps_server
                (fun r => its_started r = started st
                          /\ its_adapter_calls r = adapter_calls st
                          /\ its_listeners r = listeners st)
                (keeps_server_closed _ _ _)
                (fun s HJ => ltac:(unfold suspend; destruct (rebuilds s) as [|[?|] ?];
                                   exact HJ))
                fuel "beforeStart" [ArgServer] st) as [[(Hs & Hc & Hl) _] _];
      [split; [repeat split | exact Hps]|].
    cbn [reach its_started its_adapter_calls its_listeners] in Hs, Hc, Hl.
    destruct (result (invokeAsync fuel "beforeStart" [ArgServer] st)) as [[]|e|];
      [|destruct H as [H1 H2]; rewrite H1, H2; auto
       |destruct H as [H1 H2]; rewrite H1, H2; auto].
    set (s0 := final (invokeAsync fuel "beforeStart" [ArgServer] st)) in *.
    destruct built_files as [r|e].
    + cbn [update result final fst snd] in H.
      change (adapter_calls (with_renderer r s0)) with (adapter_calls s0) in H.
      change (listeners (with_renderer r s0)) with (listeners s0) in H.
      rewrite Hc, Hl in H.
      destruct (adapter_start adapter (adapter_calls st ++ [AUse])) as [e|] eqn:Ha;
        destruct H as [H1 H2]; rewrite H1, H2; cbn.
      * split; [exact Hs|]. split; [exact Hl|]. right. split; reflexivity.
      * split; reflexivity.
    + cbn in H. destruct H as [H1 H2]; rewrite H1, H2. auto.
Qed.

Lemma termination_listeners_removed l :
  filter (fun s => negb (String.eqb s "SIGTERM"))
    (filter (fun s => negb (String.eqb s "SIGINT")) (l ++ ["SIGINT"; "SIGTERM"]))
  = filter (fun s => negb (is_termination_signal s)) l.
Proof.
  rewrite filter_app. cbn [filter String.eqb Ascii.eqb Bool.eqb negb].
  rewrite filter_app. cbn [filter String.eqb Ascii.eqb Bool.eqb negb].
  rewrite app_nil_r.
  induction l as [|s l IH]; [reflexivity|].
  cbn [filter]. unfold is_termination_signal at 1.
  destruct (String.eqb s "SIGINT"); cbn [negb orb].
  - exact IH.
  - cbn [filter]. destruct (String.eqb s "SIGTERM"); cbn [negb]; rewrite IH; reflexivity.
Qed.

(** X5.  A successful [start] followed by [stop]: the last calls on the
    adapter are its use, its start and its stop, in this order; [stop] ends
    as the adapter's [stop] does; and every [SIGINT] and [SIGTERM] listener
    is removed, those the application or a hook had installed with the
    server's.  In production mode, when no hook of a plugin touches the
    adapter or the listeners, the adapter calls are those from before
    [start] followed by use, start and stop, and the process is left with
    the listeners it had before [start] on other signals only. *)
Theorem start_then_stop fuel options adapter built_files setupDevMiddleware st :
  let x := start fuel options adapter built_files setupDevMiddleware st in
  let y := stop adapter (final x) in
  result x = Ok tt ->
  (exists cs ls,
      adapter_calls (final x) = cs ++ [AUse; AStart]
      /\ listeners (final x) = ls ++ ["SIGINT"; "SIGTERM"]
      /\ result y
         = match adapter_stop adapter (cs ++ [AUse; AStart]) with
           | None => Ok tt
           | Some e => Throw e
           end
      /\ adapter_calls (final y) = cs ++ [AUse; AStart; AStop]
      /\ listeners (final y) = filter (fun s => negb (is_termination_signal s)) ls)
  /\ (webpack options = false ->
      Forall (abides keeps_host) (plugins st) ->
      result y
      = match adapter_stop adapter (adapter_calls st ++ [AUse; AStart]) with
        | None => Ok tt
        | Some e => Throw e
        end
      /\ adapter_calls (final y) = adapter_calls st ++ [AUse; AStart; AStop]
      /\ listeners (final y)
         = filter (fun s => negb (is_termination_signal s)) (listeners st)).
Proof.
  cbn zeta. intros Hok.
  pose proof (start_cases fuel options adapter built_files setupDevMiddleware st) as H.
  cbn zeta in H.
  assert (Hshape : exists s1,
             final (start fuel options adapter built_files setupDevMiddleware st)
             = with_listeners (listeners s1 ++ ["SIGINT"; "SIGTERM"])
                 (with_started true
                    (with_adapter_calls (adapter_calls s1 ++ [AUse; AStart]) s1))
             /\ (webpack options = false ->
                 Forall (abides keeps_host) (plugins st) ->
                 adapter_calls s1 = adapter_calls st /\ listeners s1 = listeners st)).
  { destruct (result (invokeAsync fuel "beforeStart" [ArgServer] st)) as [[]|e|] eqn:Hra;
      [|destruct H as [H _]; rewrite H in Hok; discriminate
       |destruct H as [H _]; rewrite H in Hok; discriminate].
    set (s0 := final (invokeAsync fuel "beforeStart" [ArgServer] st)) in *.
    match type of H with
    | match result ?b with _ => _ end =>
        destruct (result b) as [[]|e|] eqn:Hrb;
          [|destruct H as [H _]; rewrite H in Hok; discriminate
           |destruct H as [H _]; rewrite H in Hok; discriminate];
          set (s1 := final b) in *
    end.
    destruct (adapter_start adapter (adapter_calls s1 ++ [AUse])) as [e|];
      destruct H as [H1 H2]; [rewrite H1 in Hok; discriminate|].
    exists s1. split; [exact H2|].
    intros Hw Hps.
    destruct (framed_invokeAsync keeps_host
                (fun r => its_adapter_calls r = adapter_calls st
                          /\ its_listeners r = listeners st)
                (keeps_host_closed _ _)
                (fun s HJ => ltac:(unfold suspend; destruct (rebuilds s) as [|[?|] ?];
                                   exact HJ))
                fuel "beforeStart" [ArgServer] st) as [[(Hc & Hl) _] _];
      [split; [repeat split | exact Hps]|].
    cbn [reach its_adapter_calls its_listeners] in Hc, Hl. fold s0 in Hc, Hl.
    subst s1. rewrite Hw in *. destruct built_files as [r|e]; [|discriminate].
    cbn. split; assumption. }
  destruct Hshape as (s1 & Hx & Hframe).
  rewrite stop_run, Hx. cbn [started with_listeners with_started with_adapter_calls
                              adapter_calls listeners result final fst snd].
  assert (Hgen :
    (match adapter_stop adapter (adapter_calls s1 ++ [AUse; AStart]) with
     | None => Ok tt
     | Some e => Throw e
     end : Res unit)
    = match adapter_stop adapter (adapter_calls s1 ++ [AUse; AStart]) with
      | None => Ok tt
      | Some e => Throw e
      end) by reflexivity.
  split.
  - exists (adapter_calls s1), (listeners s1).
    split; [reflexivity|]. split; [reflexivity|]. split; [reflexivity|].
    split; [rewrite <- app_assoc; reflexivity | apply termination_listeners_removed].
  - intros Hw Hps. destruct (Hframe Hw Hps) as [Hc Hl]. rewrite Hc, Hl.
    split; [reflexivity|].
    split; [rewrite <- app_assoc; reflexivity | apply termination_listeners_removed].
Qed.

Lemma start_then_stop_witness :
  let st := Examples.with_own_listeners
              [Examples.plugin_with "beforeStart"
                 (Examples.hook_register
                    [Examples.plugin_with "beforeStart" Examples.hook_noop])] in
  let x := start Examples.rounds Examples.no_spa Examples.easy_adapter (inl 0)
             Examples.hook_noop st in
  result x = Ok tt
  /\ listeners (final x) = ["SIGINT"; "SIGHUP"; "SIGINT"; "SIGTERM"]
  /\ length (plugins (final x)) = 2
  /\ listeners (final (stop Examples.easy_adapter (final x))) = ["SIGHUP"].
Proof.
  cbn zeta.
  split; [reflexivity|]. split; [reflexivity|]. split; [reflexivity|].
  refine (proj2 (proj2 (proj2 (start_then_stop Examples.rounds Examples.no_spa
                         Examples.easy_adapter (inl 0) Examples.hook_noop
                         (Examples.with_own_listeners
                            [Examples.plugin_with "beforeStart"
                               (Examples.hook_register
                                  [Examples.plugin_with "beforeStart" Examples.hook_noop])])
                         eq_refl)
                         eq_refl _))).
  constructor; [|constructor].
  constructor; unfold Examples.plugin_with, Examples.hook_register;
    intros; destruct (String.eqb name "beforeStart"); try discriminate;
    match goal with H : Some _ = Some _ |- _ => inversion H; subst; clear H end;
    try discriminate.
  match goal with H : HReturn _ _ = HReturn _ _ |- _ => inversion H; subst; clear H end.
  split; [split; reflexivity|].
  constructor; [|constructor].
  apply abides_plugin_with. intros a r0. cbn. repeat split.
Defined.

(** ** What follows the terminal write *)

(** X6.  Once the pipeline has written the response, all it still does is
    call [afterResponse] hooks: no renderer call, no other hook, no log and
    no second write follows the send step, whichever path led to it. *)
Theorem only_afterResponse_follows_the_send
    fuel options renderers micromatch_some NODE_ENV rq st :
  let x := renderMiddleware fuel options renderers micromatch_some NODE_ENV rq st in
  Forall afterResponse_call (after_send (events x)).
Proof.
  cbn zeta.
  destruct (pipeline_shape fuel options renderers micromatch_some NODE_ENV rq st)
    as (handled & after & Hev & Hsend & _ & Hafter).
  rewrite Hev.
  destruct Hsend as [Hq|(pre & b & Heq & Hpre)].
  - rewrite after_send_quiet; [constructor|].
    apply Forall_app; split; [assumption|].
    eapply Forall_impl; [|exact Hafter].
    intros [] He; cbn in He; try contradiction; reflexivity.
  - rewrite Heq, <- app_assoc. cbn [app].
    rewrite after_send_app; assumption.
Qed.

(** ** Requests on a server whose plugins stay out of the pipeline *)

Lemma suspend_idle st : rebuilds st = [] -> suspend st = (Ok tt, st, []).
Proof. intros H; unfold suspend; rewrite H; reflexivity. Qed.

(** Projections of states and stores that are given by their fields. *)
Ltac store_step :=
  cbn [result final events fst snd world plugins renderer rebuilds started
       adapter_calls listeners with_world res context response url body
       redirected req_url statusCode status set_body world_of].

Lemma no_request_hooks_lacks ps :
  Forall no_request_hooks ps ->
  Forall (lacks "beforeRender") ps /\ Forall (lacks "beforeBuild") ps
  /\ Forall (lacks "rendered") ps /\ Forall (lacks "routeError") ps
  /\ Forall (lacks "afterResponse") ps.
Proof.
  intros H; repeat split; (eapply Forall_impl; [|exact H]);
    intros p (H1 & H2 & H3 & H4 & H5); assumption.
Qed.

(** The send step on an open response with a status code that the transport
    accepts. *)
Lemma send_run_ok st :
  let w := world st in
  let code := match statusCode (context w) with
              | Some c => if (c =? 0)%Z then status (response w) else c
              | None => status (response w)
              end in
  phase (res w) = Open ->
  (100 <= to_int32 code <= 999)%Z ->
  send_run st = (Ok tt, with_world (sent w) st, [EvEnd (body (response w))]).
Proof.
  cbn zeta. intros Hph Hcode. unfold send_run. cbn zeta. rewrite Hph.
  unfold can_send, headersSent, status_to_send. rewrite Hph. cbn [negb andb].
  rewrite (proj2 (Z.leb_le _ _) (proj1 Hcode)), (proj2 (Z.leb_le _ _) (proj2 Hcode)).
  reflexivity.
Qed.

Lemma open_unfinished r : phase r = Open -> finished r = false.
Proof. unfold finished; intros H; rewrite H; reflexivity. Qed.

(** X7.  A request outside the SPA routes, on a server whose plugins have
    none of the pipeline's hooks and with no rebuild pending, whose transport
    response is unfinished: when [render] returns the body [b1] without
    flagging a redirect, [renderSSRPage], given [b1], returns [b2], the
    renderer has left the transport response open, and the status code to
    send ([context.statusCode || response.status]) is one that the transport
    accepts, the pipeline makes these two renderer calls, writes [b2] with
    [Content-Length] [b2.length] and that status code, and resolves with the
    contexts as the renderer left them. *)
Theorem plain_ssr_request
    fuel options renderers micromatch_some NODE_ENV rq st b1 w1 b2 w2 :
  let r := renderer st in
  let wf := sent (set_body b2 w2) in
  let code := match statusCode (context w2) with
              | Some c => if (c =? 0)%Z then status (response w2) else c
              | None => status (response w2)
              end in
  Forall no_request_hooks (plugins st) ->
  rebuilds st = [] ->
  finished (res (world st)) = false ->
  spa_route options micromatch_some (req_url rq) = false ->
  render (renderers r) (fresh_contexts rq (world st)) = Normal b1 w1 ->
  redirected (context w1) = false ->
  renderSSRPage (renderers r) b1 (set_body b1 w1) = Normal b2 w2 ->
  phase (res w2) = Open ->
  (100 <= to_int32 code <= 999)%Z ->
  renderMiddleware fuel options renderers micromatch_some NODE_ENV rq st
  = (Ok (Some (context w2, mkResponseContext b2 (status (response w2)))),
     with_world wf st,
     match_events options (req_url rq)
       ++ [EvRender r; EvRenderSSRPage r b1; EvEnd b2])
  /\ context wf = context w2
  /\ response wf = mkResponseContext b2 (status (response w2))
  /\ ended (res wf) = ended (res w2) ++ [b2]
  /\ phase (res wf) = Finished
  /\ res_statusCode (res wf) = to_int32 code
  /\ res_getHeader "Content-Length" (res wf) = Some (HNumber (Z.of_nat (length b2))).
Proof.
  cbn zeta. intros Hp Hq Hopen Hroute Hrender Hred Hssr Hph Hcode.
  destruct (no_request_hooks_lacks _ Hp) as (P1 & P2 & P3 & P4 & P5).
  split; [|repeat split; reflexivity].
  unfold fresh_contexts in Hrender.
  rewrite renderMiddleware_run, try_catch_run, try_block_run.
  unfold entering, fresh_contexts.
  rewrite invokeAsync_absent by exact P1.
  store_step. rewrite Hopen. cbn zeta.
  rewrite classify_and_render_run.
  store_step. rewrite Hroute, ssr_branch_run. cbn zeta.
  rewrite suspend_idle by exact Hq.
  store_step. rewrite Hrender, Hred.
  rewrite invokeAsync_absent by exact P2.
  rewrite suspend_idle by exact Hq.
  store_step. rewrite Hssr.
  store_step.
  rewrite rendered_and_send_run.
  rewrite invokeAsync_absent by exact P3.
  rewrite send_run_ok by (store_step; assumption).
  store_step. cbn [as_flow].
  rewrite invoke_absent by exact P5.
  cbn. rewrite ?app_nil_r. reflexivity.
Qed.

Lemma plain_ssr_request_witness :
  let st := Examples.serving [Examples.plugin_with "beforeStart" Examples.hook_noop] [] in
  let w0 := fresh_contexts Examples.about (world st) in
  let rd := Examples.page_renderer "About" in
  let x := renderMiddleware Examples.rounds Examples.no_spa (fun _ => rd)
             Examples.literal_some None Examples.about st in
  Forall no_request_hooks (plugins st)
  /\ rebuilds st = []
  /\ finished (res (world st)) = false
  /\ spa_route Examples.no_spa Examples.literal_some (req_url Examples.about) = false
  /\ render rd w0 = Normal (js "<div>About") w0
  /\ redirected (context w0) = false
  /\ renderSSRPage rd (js "<div>About") (set_body (js "<div>About") w0)
     = Normal (js "<html><div>About") (set_body (js "<div>About") w0)
  /\ phase (res w0) = Open
  /\ (100 <= to_int32 200 <= 999)%Z
  /\ events x
     = [EvRender 0; EvRenderSSRPage 0 (js "<div>About"); EvEnd (js "<html><div>About")].
Proof.
  cbn zeta.
  assert (Hp : Forall no_request_hooks
                 [Examples.plugin_with "beforeStart" Examples.hook_noop])
    by (repeat constructor).
  assert (Hcode : (100 <= to_int32 200 <= 999)%Z) by (vm_compute; split; discriminate).
  split; [exact Hp|].
  repeat (split; [first [reflexivity | exact Hcode]|]).
  exact (f_equal events
           (proj1 (plain_ssr_request Examples.rounds Examples.no_spa
                     (fun _ => Examples.page_renderer "About")
                     Examples.literal_some None Examples.about
                     (Examples.serving
                        [Examples.plugin_with "beforeStart" Examples.hook_noop] [])
                     (js "<div>About")
                     (fresh_contexts Examples.about (world (Examples.serving [] [])))
                     (js "<html><div>About")
                     (set_body (js "<div>About")
                        (fresh_contexts Examples.about (world (Examples.serving [] []))))
                     Hp eq_refl eq_refl eq_refl eq_refl eq_refl eq_refl eq_refl Hcode))).
Defined.

(** X8.  A request on an SPA route, on a server whose plugins have none
    of the pipeline's hooks and with no rebuild pending, whose transport
    response is unfinished: when [renderSPAPage] returns the body [b], the
    renderer has left the transport response open, and the status code to
    send is one that the transport accepts, the pipeline makes this one
    renderer call, writes [b] with that status code, and resolves with the
    contexts. *)
Theorem plain_spa_request
    fuel options renderers micromatch_some NODE_ENV rq st b w1 :
  let r := renderer st in
  let wf := sent (set_body b w1) in
  let code := match statusCode (context w1) with
              | Some c => if (c =? 0)%Z then status (response w1) else c
              | None => status (response w1)
              end in
  Forall no_request_hooks (plugins st) ->
  rebuilds st = [] ->
  finished (res (world st)) = false ->
  spa_route options micromatch_some (req_url rq) = true ->
  renderSPAPage (renderers r) (fresh_contexts rq (world st)) = Normal b w1 ->
  phase (res w1) = Open ->
  (100 <= to_int32 code <= 999)%Z ->
  renderMiddleware fuel options renderers micromatch_some NODE_ENV rq st
  = (Ok (Some (context w1, mkResponseContext b (status (response w1)))),
     with_world wf st,
     match_events options (req_url rq) ++ [EvRenderSPAPage r; EvEnd b])
  /\ context wf = context w1
  /\ response wf = mkResponseContext b (status (response w1))
  /\ ended (res wf) = ended (res w1) ++ [b]
  /\ phase (res wf) = Finished
  /\ res_statusCode (res wf) = to_int32 code.
Proof.
  cbn zeta. intros Hp Hq Hopen Hroute Hrender Hph Hcode.
  destruct (no_request_hooks_lacks _ Hp) as (P1 & P2 & P3 & P4 & P5).
  split; [|repeat split; reflexivity].
  unfold fresh_contexts in Hrender.
  rewrite renderMiddleware_run, try_catch_run, try_block_run.
  unfold entering, fresh_contexts.
  rewrite invokeAsync_absent by exact P1.
  store_step. rewrite Hopen. cbn zeta.
  rewrite classify_and_render_run.
  store_step. rewrite Hroute, spa_branch_run. cbn zeta.
  rewrite suspend_idle by exact Hq.
  store_step. rewrite Hrender.
  store_step.
  rewrite rendered_and_send_run.
  rewrite invokeAsync_absent by exact P3.
  rewrite send_run_ok by (store_step; assumption).
  store_step. cbn [as_flow].
  rewrite invoke_absent by exact P5.
  cbn. rewrite ?app_nil_r. reflexivity.
Qed.

Lemma plain_spa_request_witness :
  let st := Examples.serving [Examples.plugin_with "beforeStart" Examples.hook_noop] [] in
  let rq := mkIncomingMessage "/app" in
  let w0 := fresh_contexts rq (world st) in
  let x := renderMiddleware Examples.rounds Examples.spa_app
             (fun _ => Examples.page_renderer "App") Examples.literal_some None rq st in
  Forall no_request_hooks (plugins st)
  /\ rebuilds st = []
  /\ finished (res (world st)) = false
  /\ spa_route Examples.spa_app Examples.literal_some (req_url rq) = true
  /\ renderSPAPage (Examples.page_renderer "App") w0 = Normal (js "<spa>App") w0
  /\ phase (res w0) = Open
  /\ (100 <= to_int32 200 <= 999)%Z
  /\ events x = [EvMatch "/app" ["/app"]; EvRenderSPAPage 0; EvEnd (js "<spa>App")].
Proof.
  cbn zeta.
  assert (Hp : Forall no_request_hooks
                 [Examples.plugin_with "beforeStart" Examples.hook_noop])
    by (repeat constructor).
  assert (Hcode : (100 <= to_int32 200 <= 999)%Z) by (vm_compute; split; discriminate).
  split; [exact Hp|].
  repeat (split; [first [reflexivity | exact Hcode]|]).
  exact (f_equal events
           (proj1 (plain_spa_request Examples.rounds Examples.spa_app
                     (fun _ => Examples.page_renderer "App")
                     Examples.literal_some None (mkIncomingMessage "/app")
                     (Examples.serving
                        [Examples.plugin_with "beforeStart" Examples.hook_noop] [])
                     (js "<spa>App")
                     (fresh_contexts (mkIncomingMessage "/app")
                        (world (Examples.serving [] [])))
                     Hp eq_refl eq_refl eq_refl eq_refl eq_refl Hcode))).
Defined.

(** X9.  When the page assembly fails after [render] produced a body.  On
    a server whose plugins have none of the pipeline's hooks, with no
    rebuild pending and an unfinished transport response, for a request
    outside the SPA routes: when [render] returns the body [b1] without
    flagging a redirect and [renderSSRPage] rejects, leaving the transport
    response open and the response context with the non-empty body [b1], and
    the code to send ([context.statusCode], or 500 without one) is one that
    the transport accepts, then the error is logged (outside test mode) and
    the client receives, with that status code, the body that [render]
    returned: the fragment, not ["Server error"]. *)
Theorem failed_assembly_sends_the_fragment
    fuel options renderers micromatch_some NODE_ENV rq st b1 w1 e w2 :
  let r := renderer st in
  let wf := sent (error_defaults w2) in
  let code := match statusCode (context w2) with
              | Some c => if (c =? 0)%Z then 500%Z else c
              | None => 500%Z
              end in
  Forall no_request_hooks (plugins st) ->
  rebuilds st = [] ->
  finished (res (world st)) = false ->
  spa_route options micromatch_some (req_url rq) = false ->
  render (renderers r) (fresh_contexts rq (world st)) = Normal b1 w1 ->
  redirected (context w1) = false ->
  renderSSRPage (renderers r) b1 (set_body b1 w1) = Abrupt e w2 ->
  phase (res w2) = Open ->
  body (response w2) = b1 ->
  b1 <> [] ->
  (100 <= to_int32 code <= 999)%Z ->
  renderMiddleware fuel options renderers micromatch_some NODE_ENV rq st
  = (Ok (Some (context w2, mkResponseContext b1 500)), with_world wf st,
     match_events options (req_url rq)
       ++ [EvRender r; EvRenderSSRPage r b1]
       ++ (if in_test_mode NODE_ENV then [] else [EvLog e]) ++ [EvEnd b1])
  /\ context wf = context w2
  /\ response wf = mkResponseContext b1 500
  /\ ended (res wf) = ended (res w2) ++ [b1]
  /\ phase (res wf) = Finished
  /\ res_statusCode (res wf) = to_int32 code.
Proof.
  cbn zeta. intros Hp Hq Hopen Hroute Hrender Hred Hssr Hph Hbody Hne Hcode.
  destruct (no_request_hooks_lacks _ Hp) as (P1 & P2 & P3 & P4 & P5).
  assert (Hpage : error_page w2 = b1).
  { unfold error_page. rewrite Hbody.
    destruct b1; [contradiction Hne; reflexivity | reflexivity]. }
  assert (Hsend : forall s,
             send_run (with_world (error_defaults w2) s)
             = (Ok tt, with_world (sent (error_defaults w2)) s, [EvEnd b1])).
  { intros s. rewrite send_run_ok.
    - replace (body (response (world (with_world (error_defaults w2) s)))) with b1
        by (symmetry; exact Hpage).
      reflexivity.
    - exact Hph.
    - exact Hcode. }
  split; [|rewrite <- Hpage; repeat split; reflexivity].
  unfold fresh_contexts in Hrender.
  rewrite renderMiddleware_run, try_catch_run, try_block_run.
  unfold entering, fresh_contexts.
  rewrite invokeAsync_absent by exact P1.
  store_step. rewrite Hopen. cbn zeta.
  rewrite classify_and_render_run.
  store_step. rewrite Hroute, ssr_branch_run. cbn zeta.
  rewrite suspend_idle by exact Hq.
  store_step. rewrite Hrender, Hred.
  rewrite invokeAsync_absent by exact P2.
  rewrite suspend_idle by exact Hq.
  store_step. rewrite Hssr.
  store_step.
  rewrite catch_block_run.
  rewrite invokeAsync_absent by exact P4.
  store_step. rewrite (open_unfinished _ Hph). cbn zeta.
  rewrite Hsend.
  store_step. cbn [as_flow].
  rewrite invoke_absent by exact P5.
  unfold logged, sent, prepared, error_defaults. cbn. rewrite ?Hpage, ?app_nil_r, <- ?app_assoc.
  reflexivity.
Qed.

Lemma failed_assembly_sends_the_fragment_witness :
  let st := Examples.serving [Examples.plugin_with "beforeStart" Examples.hook_noop] [] in
  let w0 := fresh_contexts Examples.about (world st) in
  let w1 := set_body (js "<div>About") w0 in
  let x := renderMiddleware Examples.rounds Examples.no_spa
             (fun _ => Examples.assembly_fails) Examples.literal_some None
             Examples.about st in
  Forall no_request_hooks (plugins st)
  /\ rebuilds st = []
  /\ finished (res (world st)) = false
  /\ spa_route Examples.no_spa Examples.literal_some (req_url Examples.about) = false
  /\ render Examples.assembly_fails w0 = Normal (js "<div>About") w0
  /\ redirected (context w0) = false
  /\ renderSSRPage Examples.assembly_fails (js "<div>About") w1
     = Abrupt "template missing" w1
  /\ phase (res w1) = Open
  /\ body (response w1) = js "<div>About"
  /\ js "<div>About" <> []
  /\ (100 <= to_int32 500 <= 999)%Z
  /\ events x
     = [EvRender 0; EvRenderSSRPage 0 (js "<div>About"); EvLog "template missing";
        EvEnd (js "<div>About")].
Proof.
  cbn zeta.
  assert (Hp : Forall no_request_hooks
                 [Examples.plugin_with "beforeStart" Examples.hook_noop])
    by (repeat constructor).
  assert (Hne : js "<div>About" <> []) by discriminate.
  assert (Hcode : (100 <= to_int32 500 <= 999)%Z) by (vm_compute; split; discriminate).
  split; [exact Hp|].
  repeat (split; [first [reflexivity | exact Hne | exact Hcode]|]).
  exact (f_equal events
           (proj1 (failed_assembly_sends_the_fragment Examples.rounds Examples.no_spa
                     (fun _ => Examples.assembly_fails)
                     Examples.literal_some None Examples.about
                     (Examples.serving
                        [Examples.plugin_with "beforeStart" Examples.hook_noop] [])
                     (js "<div>About")
                     (fresh_contexts Examples.about (world (Examples.serving [] [])))
                     "template missing"
                     (set_body (js "<div>About")
                        (fresh_contexts Examples.about (world (Examples.serving [] []))))
                     Hp eq_refl eq_refl eq_refl eq_refl eq_refl eq_refl
                     eq_refl eq_refl Hne Hcode))).
Defined.

(** ** The bare [return] *)

Lemma only_beforeRender_before_return evs :
  Forall (only_hooks ["beforeRender"]) evs -> Forall before_return evs.
Proof.
  intros H; eapply Forall_impl; [|exact H].
  intros [] He; cbn in *; try contradiction; try exact Logic.I;
    destruct He as [He|[]]; symmetry; exact He.
Qed.

Lemma suspend_before_return st : Forall before_return (events (suspend st)).
Proof. unfold suspend; destruct (rebuilds st) as [|[r|] q]; repeat constructor. Qed.

Lemma match_events_before_return options u :
  Forall before_return (match_events options u).
Proof.
  unfold match_events; destruct (spaPaths options) as [[|g gs]|]; repeat constructor.
Qed.

Lemma rendered_and_send_result fuel flow st :
  result (rendered_and_send fuel flow st) = Ok Return ->
  flow = Return /\ rendered_and_send fuel flow st = (Ok Return, st, []).
Proof.
  rewrite rendered_and_send_run. destruct flow; [|split; reflexivity].
  destruct (invokeAsync fuel "rendered" _ st) as [[[u|e|] s1] ev1]; try discriminate.
  cbn [result fst]. destruct (result (send_run s1)); discriminate.
Qed.

Lemma spa_branch_no_return renderers st :
  result (spa_branch renderers st) <> Ok Return.
Proof.
  rewrite spa_branch_run.
  destruct (renderSPAPage _ _); discriminate.
Qed.

Lemma ssr_branch_return fuel renderers st :
  result (ssr_branch fuel renderers st) = Ok Return ->
  Forall before_return (events (ssr_branch fuel renderers st))
  /\ redirected (context (world (final (ssr_branch fuel renderers st)))) = true.
Proof.
  rewrite ssr_branch_run. cbn zeta.
  destruct (render _ _) as [b w|e w]; [|discriminate].
  destruct (redirected (context w)) eqn:Hred.
  - intros _. cbn [events final fst snd world with_world].
    split; [constructor; [exact Logic.I | apply suspend_before_return] | exact Hred].
  - destruct (invokeAsync fuel "beforeBuild" _ _) as [[[u|e|] s2] ev2]; try discriminate.
    destruct (renderSSRPage _ _ _); discriminate.
Qed.

Lemma catch_block_no_return fuel NODE_ENV err st :
  result (catch_block fuel NODE_ENV err st) <> Ok Return.
Proof.
  rewrite catch_block_run.
  destruct (invokeAsync fuel "routeError" _ st) as [[[u|e|] s1] ev1]; try discriminate.
  destruct (finished (res (world s1))); [discriminate|].
  cbn zeta. cbn [result fst]. destruct (result (send_run _)); discriminate.
Qed.

(** The [try] block ends by the bare [return] only from the call of
    [render]. *)
Lemma try_block_return fuel options renderers micromatch_some st :
  let x := try_block fuel options renderers micromatch_some st in
  result x = Ok Return ->
  Forall before_return (events x)
  /\ redirected (context (world (final x))) = true.
Proof.
  cbn zeta. rewrite try_block_run.
  pose proof (invokeAsync_only_hooks fuel ["beforeRender"] "beforeRender"
                [ArgContext; ArgServer] st (or_introl eq_refl)) as Hev.
  apply only_beforeRender_before_return in Hev.
  destruct (invokeAsync fuel "beforeRender" _ st) as [[[u|e|] s1] ev1];
    cbn [result final events fst snd] in *; try discriminate.
  destruct (finished (res (world s1))); [discriminate|].
  cbn zeta. rewrite classify_and_render_run.
  pose proof (spa_branch_no_return renderers s1) as Hspa.
  pose proof (ssr_branch_return fuel renderers s1) as Hssr.
  destruct (spa_route options micromatch_some (url (context (world s1)))).
  - destruct (spa_branch renderers s1) as [[[flow|e|] s2] ev2];
      cbn [result final events fst snd] in *; try discriminate.
    intros Hr. destruct (rendered_and_send_result fuel flow s2 Hr) as [-> _].
    contradiction Hspa; reflexivity.
  - destruct (ssr_branch fuel renderers s1) as [[[flow|e|] s2] ev2];
      cbn [result final events fst snd] in *; try discriminate.
    intros Hr. destruct (rendered_and_send_result fuel flow s2 Hr) as [-> Hrun].
    rewrite Hrun. cbn [result final events fst snd].
    destruct (Hssr eq_refl) as [H1 H2].
    split; [|exact H2].
    rewrite app_nil_r.
    apply Forall_app; split; [exact Hev|].
    apply Forall_app; split; [apply match_events_before_return | exact H1].
Qed.

(** X10.  The pipeline resolves with [undefined] only by its bare
    [return]: [render] has then left [context.redirected] set, and all that
    the pipeline did is invoke [beforeRender] hooks, test the route and call
    [render].  No [beforeBuild], [rendered], [routeError] or [afterResponse]
    hook ran, nothing was logged and nothing was sent. *)
Theorem bare_return_skips_everything
    fuel options renderers micromatch_some NODE_ENV rq st :
  let x := renderMiddleware fuel options renderers micromatch_some NODE_ENV rq st in
  result x = Ok None ->
  Forall before_return (events x)
  /\ redirected (context (world (final x))) = true.
Proof.
  cbn zeta. rewrite renderMiddleware_run, try_catch_run.
  pose proof (try_block_return fuel options renderers micromatch_some (entering rq st))
    as Htry.
  cbn zeta in Htry.
  destruct (try_block fuel options renderers micromatch_some (entering rq st))
    as [[[[|]|e|] s1] ev1]; cbn [result final events fst snd] in *.
  - destruct (invoke fuel "afterResponse" _ s1) as [[[u|e|] s2] ev2]; discriminate.
  - intros _. apply Htry. reflexivity.
  - pose proof (catch_block_no_return fuel NODE_ENV e s1) as Hc.
    destruct (catch_block fuel NODE_ENV e s1) as [[[[|]|e'|] s4] ev4];
      cbn [result final events fst snd] in *.
    + destruct (invoke fuel "afterResponse" _ s4) as [[[u|e''|] s5] ev5]; discriminate.
    + contradiction Hc; reflexivity.
    + discriminate.
    + discriminate.
  - discriminate.
Qed.

Lemma bare_return_skips_everything_witness :
  let st := Examples.serving
              [Examples.plugin_with "beforeRender" (Examples.hook_set_statusCode 302);
               Examples.plugin_with "afterResponse" Examples.hook_noop] [] in
  let x := renderMiddleware Examples.rounds Examples.no_spa
             (fun _ => Examples.redirecting_renderer) Examples.literal_some None
             Examples.about st in
  result x = Ok None
  /\ events x = [EvHook "beforeRender" 0; EvAwaited "beforeRender" 0; EvRender 0]
  /\ redirected (context (world (final x))) = true.
Proof.
  cbn zeta.
  split; [reflexivity|]. split; [reflexivity|].
  exact (proj2 (bare_return_skips_everything Examples.rounds Examples.no_spa
                  (fun _ => Examples.redirecting_renderer) Examples.literal_some None
                  Examples.about
                  (Examples.serving
                     [Examples.plugin_with "beforeRender" (Examples.hook_set_statusCode 302);
                      Examples.plugin_with "afterResponse" Examples.hook_noop] [])
                  eq_refl)).
Defined.

(** ** The declared length of the body *)

Lemma utf8_byte_length_upto n :
  forall s, (length s <= n)%nat ->
    (js_length s <= utf8_byte_length s <= 3 * js_length s)%Z
    /\ (utf8_byte_length s = js_length s -> Forall is_ascii_unit s).
Proof.
  unfold js_length.
  induction n as [|n IH]; intros s Hlen.
  - destruct s; [|cbn in Hlen; lia]. cbn. split; [lia | constructor].
  - destruct s as [|u rest]; [cbn; split; [lia | constructor]|].
    cbn [length] in Hlen.
    assert (Hrest : (length rest <= n)%nat) by lia.
    destruct (IH rest Hrest) as [Hb Hex].
    rewrite length_cons, Nat2Z.inj_succ.
    cbn [utf8_byte_length].
    destruct (u <? 0x80)%N eqn:Hu.
    + split; [lia|]. intros Heq. constructor.
      * apply N.ltb_lt; exact Hu.
      * apply Hex; lia.
    + destruct (u <? 0x800)%N; [split; [lia | intros; lia]|].
      destruct (is_high_surrogate u); [|split; [lia | intros; lia]].
      destruct rest as [|v rest']; [cbn in *; split; [lia | intros; lia]|].
      destruct (is_low_surrogate v); [|split; [lia | intros; lia]].
      cbn [length] in Hrest.
      destruct (IH rest' ltac:(lia)) as [Hb' _].
      rewrite length_cons, Nat2Z.inj_succ in *.
      split; [lia | intros; lia].
Qed.

(** X11.  When the send step completes (the header block was not sent and
    the status code is one that the transport accepts), the [Content-Length]
    it declares never overstates the body it writes: the UTF-8 length of the
    body lies between the declared number and three times it, and the two
    are equal exactly when every code unit of the body is ASCII. *)
Theorem content_length_never_overstates st :
  let w := world st in
  let b := body (response w) in
  let code := match statusCode (context w) with
              | Some c => if (c =? 0)%Z then status (response w) else c
              | None => status (response w)
              end in
  let x := sendResponse st in
  let r := res (world (final x)) in
  phase (res w) = Open ->
  (100 <= to_int32 code <= 999)%Z ->
  result x = Ok tt
  /\ events x = [EvEnd b]
  /\ exists n,
       res_getHeader "Content-Length" r = Some (HNumber n)
       /\ ended r = ended (res w) ++ [b]
       /\ (n <= utf8_byte_length b <= 3 * n)%Z
       /\ (n = utf8_byte_length b <-> Forall is_ascii_unit b).
Proof.
  cbn zeta. intros Hph Hcode.
  rewrite sendResponse_run, (send_run_ok st Hph Hcode).
  split; [reflexivity|]. split; [reflexivity|].
  exists (js_length (body (response (world st)))).
  destruct (utf8_byte_length_upto _ (body (response (world st))) (le_n _)) as [Hb Hex].
  split; [reflexivity|]. split; [reflexivity|]. split; [exact Hb|].
  split.
  - intros Heq; apply Hex; symmetry; exact Heq.
  - intros Hall; symmetry; apply ascii_byte_length; exact Hall.
Qed.

Lemma content_length_never_overstates_witness :
  let st := with_world (set_body [0xE9%N] (set_status 200 (world (Examples.serving [] []))))
              (Examples.serving [] []) in
  phase (res (world st)) = Open
  /\ (100 <= to_int32 200 <= 999)%Z
  /\ result (sendResponse st) = Ok tt
  /\ utf8_byte_length [0xE9%N] = 2%Z.
Proof.
  cbn zeta.
  assert (Hcode : (100 <= to_int32 200 <= 999)%Z) by (vm_compute; split; discriminate).
  split; [reflexivity|]. split; [exact Hcode|].
  split; [|reflexivity].
  exact (proj1 (content_length_never_overstates
                  (with_world
                     (set_body [0xE9%N] (set_status 200 (world (Examples.serving [] []))))
                     (Examples.serving [] []))
                  eq_refl Hcode)).
Defined.

(** ** The static files plugin *)

Lemma starts_with_spec p s :
  StaticPlugin.starts_with p s = true <-> exists suf, s = String.append p suf.
Proof.
  revert s; induction p as [|a p IH]; intros s; cbn.
  - split; [intros _; exists s; reflexivity | reflexivity].
  - destruct s as [|b s].
    + split; [discriminate | intros [suf H]; discriminate].
    + rewrite andb_true_iff, Ascii.eqb_eq, IH. split.
      * intros [-> [suf ->]]. exists suf; reflexivity.
      * intros [suf H]. injection H as -> ->. split; [reflexivity | exists suf; reflexivity].
Qed.

Lemma occurs_in_spec n s :
  StaticPlugin.occurs_in n s = true
  <-> exists pre suf, s = String.append pre (String.append n suf).
Proof.
  induction s as [|a s IH].
  - cbn [StaticPlugin.occurs_in]. rewrite orb_false_r, starts_with_spec. split.
    + intros [suf H]. exists "", suf. exact H.
    + intros [[|b pre] [suf H]]; [exists suf; exact H | discriminate].
  - cbn [StaticPlugin.occurs_in]. rewrite orb_true_iff, starts_with_spec, IH. split.
    + intros [[suf H]|[pre [suf H]]].
      * exists "", suf. exact H.
      * exists (String a pre), suf. cbn. rewrite H. reflexivity.
    + intros [[|b pre] [suf H]].
      * left. exists suf. exact H.
      * right. cbn in H. injection H as -> H. exists pre, suf. exact H.
Qed.

(** X12.  The default [setHeaders] of the static plugin acts on every path
    that has [service-worker.js] anywhere in it, not only on a file of that
    name: it then sets [Cache-Control] to [public, max-age=0] and leaves the
    status code, the written bodies and the finished flag alone.  For any
    other path it leaves the response as it is. *)
Theorem setHeaders_only_for_service_worker_paths r path :
  (StaticPlugin.mentions_service_worker path ->
     let r' := StaticPlugin.setHeaders r path in
     res_getHeader "Cache-Control" r' = Some (HString "public, max-age=0")
     /\ res_statusCode r' = res_statusCode r
     /\ ended r' = ended r
     /\ finished r' = finished r)
  /\ (~ StaticPlugin.mentions_service_worker path ->
      StaticPlugin.setHeaders r path = r).
Proof.
  unfold StaticPlugin.mentions_service_worker, StaticPlugin.setHeaders.
  pose proof (occurs_in_spec "service-worker.js" path) as Hspec.
  destruct (StaticPlugin.occurs_in "service-worker.js" path).
  - split.
    + intros _. repeat split.
    + intros Hno. exfalso. apply Hno, Hspec. reflexivity.
  - split.
    + intros Hyes. apply Hspec in Hyes. discriminate.
    + reflexivity.
Qed.

(** ** The client webpack configuration *)

Lemma lookup_set_key_same {V} k (v : V) m :
  ClientConfig.lookup k (ClientConfig.set_key k v m) = Some v.
Proof.
  induction m as [|[k' v'] m IH]; cbn.
  - rewrite String.eqb_refl. reflexivity.
  - destruct (String.eqb k' k) eqn:E; cbn.
    + rewrite String.eqb_refl. reflexivity.
    + rewrite E. exact IH.
Qed.

Lemma lookup_set_key_other {V} k j (v : V) m :
  j <> k ->
  ClientConfig.lookup j (ClientConfig.set_key k v m) = ClientConfig.lookup j m.
Proof.
  intros Hne.
  assert (Hkj : String.eqb k j = false).
  { apply String.eqb_neq. intros H; apply Hne; symmetry; exact H. }
  induction m as [|[k' v'] m IH]; cbn.
  - rewrite Hkj. reflexivity.
  - destruct (String.eqb k' k) eqn:E; cbn.
    + apply String.eqb_eq in E. subst k'. rewrite Hkj. reflexivity.
    + rewrite IH. reflexivity.
Qed.

(** X13.  When the client configuration succeeds, the manifest file name
    given to the SSR client plugin is the modern one exactly when both
    [VUE_CLI_MODERN_MODE] and [VUE_CLI_MODERN_BUILD] are set, and the modern
    mode plugin agrees with it: the modern build installs
    [modern-mode-modern] with [isModernBuild] true, the legacy build of a
    modern mode run installs [modern-mode-legacy] with [isModernBuild] false,
    and outside modern mode neither is touched, whatever
    [VUE_CLI_MODERN_BUILD] says. *)
Theorem manifest_follows_the_modern_build env outputDir client_entry cfg cfg' :
  ClientConfig.client_config env outputDir client_entry cfg = Ok cfg' ->
  let was n := ClientConfig.lookup n (ClientConfig.chain_plugins cfg) in
  let now n := ClientConfig.lookup n (ClientConfig.chain_plugins cfg') in
  ClientConfig.manifest_of cfg'
  = Some (if ClientConfig.modern_build env
          then ClientConfig.modern_manifest else ClientConfig.legacy_manifest)
  /\ (if ClientConfig.truthy (ClientConfig.VUE_CLI_MODERN_MODE env) then
        if ClientConfig.truthy (ClientConfig.VUE_CLI_MODERN_BUILD env) then
          now "modern-mode-modern"
          = Some (ClientConfig.modern_mode_plugin outputDir true)
          /\ now "modern-mode-legacy" = was "modern-mode-legacy"
        else
          now "modern-mode-legacy"
          = Some (ClientConfig.modern_mode_plugin outputDir false)
          /\ now "modern-mode-modern" = was "modern-mode-modern"
      else
        now "modern-mode-modern" = was "modern-mode-modern"
        /\ now "modern-mode-legacy" = was "modern-mode-legacy").
Proof.
  unfold ClientConfig.client_config, ClientConfig.modern_build.
  destruct (ClientConfig.lookup "app" (ClientConfig.entryPoints cfg)); [|discriminate].
  intros H; injection H as <-. cbn zeta.
  unfold ClientConfig.manifest_of, ClientConfig.use_plugin, ClientConfig.modern_mode_plugin.
  cbn [ClientConfig.chain_plugins ClientConfig.entryPoints].
  rewrite lookup_set_key_same.
  destruct (ClientConfig.truthy (ClientConfig.VUE_CLI_MODERN_MODE env));
    destruct (ClientConfig.truthy (ClientConfig.VUE_CLI_MODERN_BUILD env));
    cbn [negb orb andb ClientConfig.chain_plugins ClientConfig.entryPoints];
    (split; [reflexivity|]);
    rewrite ?(lookup_set_key_other "vue-ssr-plugin") by discriminate;
    rewrite ?lookup_set_key_same;
    rewrite ?(lookup_set_key_other "modern-mode-modern" "modern-mode-legacy") by discriminate;
    rewrite ?(lookup_set_key_other "modern-mode-legacy" "modern-mode-modern") by discriminate;
    split; reflexivity.
Qed.

Lemma manifest_follows_the_modern_build_witness :
  let env := ClientConfig.mkEnv None (Some "true") in
  let r := ClientConfig.client_config env "dist" "client.js" ClientConfig.cli_config in
  exists cfg',
    r = Ok cfg'
    /\ ClientConfig.manifest_of cfg' = Some ClientConfig.legacy_manifest
    /\ ClientConfig.lookup "modern-mode-modern" (ClientConfig.chain_plugins cfg') = None.
Proof.
  cbn zeta. eexists. split; [reflexivity|].
  pose proof (manifest_follows_the_modern_build
                (ClientConfig.mkEnv None (Some "true")) "dist" "client.js"
                ClientConfig.cli_config _ eq_refl) as H.
  cbn zeta in H. destruct H as [H1 [H2 _]].
  split; [exact H1 | exact H2].
Defined.

(** X14.  The client configuration fails exactly when the chained
    configuration has no [app] entry point.  Otherwise the [app] entry
    becomes the client entry of the framework alone, whatever it listed
    before; every other entry point is kept, and so is every plugin other
    than the three that the function sets. *)
Theorem client_config_replaces_only_the_app_entry env outputDir client_entry cfg :
  match ClientConfig.client_config env outputDir client_entry cfg with
  | Ok cfg' =>
      ClientConfig.lookup "app" (ClientConfig.entryPoints cfg) <> None
      /\ ClientConfig.lookup "app" (ClientConfig.entryPoints cfg') = Some [client_entry]
      /\ (forall k, k <> "app" ->
            ClientConfig.lookup k (ClientConfig.entryPoints cfg')
            = ClientConfig.lookup k (ClientConfig.entryPoints cfg))
      /\ (forall k, ~ In k ClientConfig.own_plugin_names ->
            ClientConfig.lookup k (ClientConfig.chain_plugins cfg')
            = ClientConfig.lookup k (ClientConfig.chain_plugins cfg))
  | Throw _ => ClientConfig.lookup "app" (ClientConfig.entryPoints cfg) = None
  | Diverge => False
  end.
Proof.
  unfold ClientConfig.client_config.
  destruct (ClientConfig.lookup "app" (ClientConfig.entryPoints cfg)) eqn:Happ;
    [|reflexivity].
  cbn zeta. unfold ClientConfig.use_plugin.
  split; [discriminate|].
  split.
  { destruct (ClientConfig.truthy (ClientConfig.VUE_CLI_MODERN_MODE env));
      [destruct (negb (ClientConfig.truthy (ClientConfig.VUE_CLI_MODERN_BUILD env)))|];
      cbn [ClientConfig.entryPoints]; apply lookup_set_key_same. }
  split.
  { intros k Hk.
    destruct (ClientConfig.truthy (ClientConfig.VUE_CLI_MODERN_MODE env));
      [destruct (negb (ClientConfig.truthy (ClientConfig.VUE_CLI_MODERN_BUILD env)))|];
      cbn [ClientConfig.entryPoints]; apply lookup_set_key_other; exact Hk. }
  intros k Hk. unfold ClientConfig.own_plugin_names in Hk. cbn [In] in Hk.
  assert (H1 : k <> "modern-mode-legacy") by (intros E; apply Hk; auto).
  assert (H2 : k <> "modern-mode-modern") by (intros E; apply Hk; auto).
  assert (H3 : k <> "vue-ssr-plugin") by (intros E; apply Hk; auto).
  cbn [ClientConfig.chain_plugins].
  rewrite (lookup_set_key_other _ _ _ _ H3).
  destruct (ClientConfig.truthy (ClientConfig.VUE_CLI_MODERN_MODE env));
    [destruct (negb (ClientConfig.truthy (ClientConfig.VUE_CLI_MODERN_BUILD env)))|];
    cbn [ClientConfig.chain_plugins];
    rewrite ?(lookup_set_key_other _ _ _ _ H1), ?(lookup_set_key_other _ _ _ _ H2);
    reflexivity.
Qed.
